(** * Symbolic Fourier Approximation (SFA_NEW) and the distance factory:
      a shallow embedding

    The development follows
    [sktime/transformations/panel/dictionary_based/_sfa_new.py]:

    - [MachineInt]: the fixed-width integers the word array stores;
    - [Encoder]: [generate_words], [_create_bigram_word] and the table
      selection of [_transform_case];
    - [Segmenter]: the fit-time windows of [_binning_dft] and the sliding
      windows of [_mft];
    - [Spectral]: [_fast_fourier_transform], [_calc_incremental_mean_std],
      [_get_phis] and [_mft];
    - [Discretizer]: the variance selection of [_binning] and the
      breakpoint tables of [_mcb], [_igb] and [_k_bins_discretizer];
    - [Estimator]: [__init__], [_binning], [fit] with its guards, and
      [transform];
    - [Scenario]: a small panel and stand-ins for the sklearn collaborators,
      on which the statements are run;

    and [sktime/distances/distance_rework/_base/_base.py]:

    - [Distance]: [BaseDistance] with [distance_factory], [distance] and the
      callables the factory wraps around a subclass's distance;
    - [DistanceScenario]: two small subclasses.

    Arithmetic on float64 is read over the real numbers wherever the code
    adds, multiplies or takes roots; the encoder only compares, and is kept
    generic in the comparison so that it runs on binary64 values. *)

From Stdlib Require Import ZArith List Bool Lia PrimFloat Reals Lra Sorted Permutation.
From Stdlib Require String.
Import ListNotations.
Import String.StringSyntax.
Delimit Scope string_scope with string.

(* ================================================================== *)
(** * Machine integers *)
(* ================================================================== *)

Module MachineInt.
Local Open Scope Z_scope.

(** A signed [w]-bit integer is a [Z] reduced to [-2^(w-1) .. 2^(w-1)-1]. *)
Definition wrap (w : Z) (z : Z) : Z :=
  (z + 2 ^ (w - 1)) mod 2 ^ w - 2 ^ (w - 1).

(** [np.int32], the dtype of the [words] array. *)
Definition int32 (z : Z) : Z := wrap 32 z.

(** The native integer a jitted local holds ([word], [bigram]). *)
Definition int64 (z : Z) : Z := wrap 64 z.

End MachineInt.

(* ================================================================== *)
(** * WordEncoder *)
(* ================================================================== *)

Module Encoder.
Import MachineInt.
Local Open Scope Z_scope.

Section Generic.

(** The coefficient type and its [<=]; float64 with [PrimFloat.leb] in the
    code, where a NaN compares false with everything. *)
Variable A : Type.
Variable leb : A -> A -> bool.
(** [np.inf]. *)
Variable inf : A.

(** The inner loop [for bp in range(breakpoints.shape[1])] of
    [generate_words]: the first column [bp] with
    [dfts[a, window, i] <= breakpoints[i, bp]], counted from [bp]. *)
Fixpoint scan (v : A) (row : list A) (bp : nat) : option nat :=
  match row with
  | [] => None
  | b :: row' => if leb v b then Some bp else scan v row' (S bp)
  end.

(** [word = (word << letter_bits) | bp]; a coefficient that matched no column
    leaves [word] as it is (the loop ends without reaching [break]). *)
Definition push (letter_bits : Z) (word : Z) (hit : option nat) : Z :=
  match hit with
  | Some bp => int64 (Z.lor (Z.shiftl word letter_bits) (Z.of_nat bp))
  | None => word
  end.

(** The loop [for i in range(len(dfts[a, window]))]: coefficient [i] is
    compared against row [i] of the table.  Reading a row the table does not
    have is an index error, [None]. *)
Fixpoint encode (letter_bits : Z) (vector : list A) (breakpoints : list (list A))
    (word : Z) : option Z :=
  match vector, breakpoints with
  | [], _ => Some word
  | v :: vector', row :: breakpoints' =>
      encode letter_bits vector' breakpoints' (push letter_bits word (scan v row 0))
  | _ :: _, [] => None
  end.

(** The letters the loop of [encode] shifts in, in order: the columns at
    which [scan] stopped. *)
Fixpoint hits (vector : list A) (table : list (list A)) : list nat :=
  match vector, table with
  | v :: vector', row :: table' =>
      match scan v row 0 with
      | Some bp => bp :: hits vector' table'
      | None => hits vector' table'
      end
  | _, _ => []
  end.

(** [_create_bigram_word]. *)
Definition _create_bigram_word (word other_word word_bits : Z) : Z :=
  int64 (Z.lor (Z.shiftl word word_bits) other_word).

(** [np.zeros((.., n), dtype=np.int32)] for one instance; a negative
    dimension is an error. *)
Definition zeros (n : Z) : option (list Z) :=
  if n <? 0 then None else Some (repeat 0 (Z.to_nat n)).

(** [words[a, k] = value]: the value is cut to 32 bits; an index outside the
    row is an error. *)
Fixpoint store (row : list Z) (k : nat) (value : Z) : option (list Z) :=
  match row, k with
  | [], _ => None
  | _ :: row', O => Some (int32 value :: row')
  | x :: row', S k' =>
      match store row' k' value with
      | Some r => Some (x :: r)
      | None => None
      end
  end.

(** One turn of [for window in prange(dfts.shape[1])] on the row of instance
    [a]; [nwin] is [dfts.shape[1]]. *)
Definition window_step (breakpoints : list (list A))
    (letter_bits word_bits : Z) (window_size : Z) (bigrams : bool) (nwin : Z)
    (window : Z) (vector : list A) (row : list Z) : option (list Z) :=
  match encode letter_bits vector breakpoints 0 with
  | None => None
  | Some word =>
      match store row (Z.to_nat window) word with
      | None => None
      | Some row1 =>
          if bigrams && (0 <=? window - window_size) then
            match nth_error row1 (Z.to_nat (window - window_size)) with
            | None => None
            | Some other =>
                store row1 (Z.to_nat (nwin + window - window_size))
                  (_create_bigram_word word other word_bits)
            end
          else Some row1
      end
  end.

Fixpoint windows_loop (breakpoints : list (list A))
    (letter_bits word_bits : Z) (window_size : Z) (bigrams : bool) (nwin : Z)
    (window : Z) (vectors : list (list A)) (row : list Z) : option (list Z) :=
  match vectors with
  | [] => Some row
  | vector :: vectors' =>
      match window_step breakpoints letter_bits word_bits window_size bigrams
              nwin window vector row with
      | None => None
      | Some row' =>
          windows_loop breakpoints letter_bits word_bits window_size bigrams
            nwin (window + 1) vectors' row'
      end
  end.

(** The row [words[a]] that [generate_words] fills for instance [a], whose
    windows are [dfts_a]. *)
Definition words_row (dfts_a : list (list A)) (breakpoints : list (list A))
    (letter_bits word_bits : Z) (window_size : Z) (bigrams : bool)
    : option (list Z) :=
  let nwin := Z.of_nat (length dfts_a) in
  match zeros (if bigrams then 2 * nwin - window_size else nwin) with
  | None => None
  | Some row =>
      windows_loop breakpoints letter_bits word_bits window_size bigrams nwin
        0 dfts_a row
  end.

(** [for a in prange(dfts.shape[0])]: the instances are independent. *)
Fixpoint generate_words (dfts : list (list (list A))) (breakpoints : list (list A))
    (letter_bits word_bits : Z) (window_size : Z) (bigrams : bool)
    : option (list (list Z)) :=
  match dfts with
  | [] => Some []
  | dfts_a :: dfts' =>
      match words_row dfts_a breakpoints letter_bits word_bits window_size bigrams,
            generate_words dfts' breakpoints letter_bits word_bits window_size bigrams with
      | Some r, Some rs => Some (r :: rs)
      | _, _ => None
      end
  end.

(** [breakpoints.shape[1]] of a rectangular table. *)
Definition shape1 (breakpoints : list (list A)) : nat :=
  match breakpoints with
  | [] => 0%nat
  | row :: _ => length row
  end.

(** [bp[:, 0] = breakpoints[:, 1]; bp[:, 1] = np.inf]. *)
Fixpoint second_column_table (breakpoints : list (list A)) : option (list (list A)) :=
  match breakpoints with
  | [] => Some []
  | row :: rest =>
      match nth_error row 1, second_column_table rest with
      | Some b, Some t => Some ([b; inf] :: t)
      | _, _ => None
      end
  end.

(** The table [_transform_case] hands to [generate_words]. *)
Definition used_table (breakpoints : list (list A)) : option (list (list A)) :=
  if Nat.eqb (shape1 breakpoints) 2 then Some breakpoints
  else second_column_table breakpoints.

(** [_transform_case], from the coefficient vectors [dfts] that [_mft]
    returned. *)
Definition _transform_case (dfts : list (list (list A)))
    (breakpoints : list (list A)) (letter_bits word_bits : Z)
    (window_size : Z) (bigrams : bool) : option (list (list Z)) :=
  if Nat.eqb (shape1 breakpoints) 2 then
    generate_words dfts breakpoints letter_bits word_bits window_size bigrams
  else
    match second_column_table breakpoints with
    | None => None
    | Some bp =>
        generate_words dfts bp letter_bits word_bits window_size bigrams
    end.

End Generic.

End Encoder.

(* ================================================================== *)
(** * What the specification says of the encoder *)
(* ================================================================== *)

Module EncoderSpec.
Local Open Scope Z_scope.

Section Generic.
Variable A : Type.
Variable leb : A -> A -> bool.

(** "the smallest bin index [bp] such that [vector[i] <= breakpoints[i][bp]]". *)
Definition smallest_bin (v : A) (row : list A) (bp : nat) : Prop :=
  (exists b, nth_error row bp = Some b /\ leb v b = true) /\
  (forall j b, (j < bp)%nat -> nth_error row j = Some b -> leb v b = false).

(** The letters of a window, position by position; a coefficient above every
    entry of its row (or not comparable with any) has no letter. *)
Inductive picks : list A -> list (list A) -> list nat -> Prop :=
| picks_nil : forall table, picks [] table []
| picks_hit : forall v vector row table bp letters,
    smallest_bin v row bp ->
    picks vector table letters ->
    picks (v :: vector) (row :: table) (bp :: letters)
| picks_miss : forall v vector row table letters,
    (forall b, In b row -> leb v b = false) ->
    picks vector table letters ->
    picks (v :: vector) (row :: table) letters.

End Generic.

(** "accumulate [word = (word << letter_bits) | bp]", on unbounded integers. *)
Definition pack (letter_bits : Z) (letters : list nat) : Z :=
  fold_left (fun word bp => Z.lor (Z.shiftl word letter_bits) (Z.of_nat bp))
    letters 0.

(** "right-shifting a packed word by [letter_bits] and masking off
    [letter_bits] bits", [n] times; the letters come out last first. *)
Fixpoint unpack (letter_bits : Z) (n : nat) (word : Z) : list nat :=
  match n with
  | O => []
  | S n' =>
      unpack letter_bits n' (Z.shiftr word letter_bits)
        ++ [Z.to_nat (Z.land word (Z.ones letter_bits))]
  end.

(** [ceil(log2(alphabet_size))]. *)
Definition letter_bits_of (alphabet_size : Z) : Z := Z.log2_up alphabet_size.

End EncoderSpec.

(* ================================================================== *)
(** * WindowSegmenter *)
(* ================================================================== *)

Module Segmenter.
Local Open Scope Z_scope.

Section Slices.
Variable A : Type.

(** A slice bound as Python reads it on a sequence of [len] items: a
    negative bound counts from the end, and both are clipped to [0 .. len]. *)
Definition slice_bound (len i : Z) : Z :=
  if i <? 0 then Z.max 0 (i + len) else Z.min i len.

(** [x[start:stop]]. *)
Definition pyslice (x : list A) (start stop : Z) : list A :=
  let len := Z.of_nat (length x) in
  let s := slice_bound len start in
  let e := slice_bound len stop in
  firstn (Z.to_nat (e - s)) (skipn (Z.to_nat s) x).

(** [np.split(x, indices)]: the pieces [x[0:i1]], [x[i1:i2]], ..., [x[ik:]]. *)
Fixpoint split_from (x : list A) (st : Z) (indices : list Z) : list (list A) :=
  match indices with
  | [] => [pyslice x st (Z.of_nat (length x))]
  | i :: rest => pyslice x st i :: split_from x i rest
  end.

Definition np_split (x : list A) (indices : list Z) : list (list A) :=
  split_from x 0 indices.

(** [split[-1] = piece] on a Python list. *)
Definition set_last (split : list (list A)) (piece : list A) : option (list (list A)) :=
  match split with
  | [] => None
  | _ => Some (removelast split ++ [piece])
  end.

End Slices.

(** [math.ceil(series_length / window_size)] for a positive window size. *)
Definition ceil_div (a b : Z) : Z := - ((- a) / b).

(** [np.linspace(start, stop, num).astype(np.int_)] when the step is a whole
    number, as it is for [start = window_size],
    [stop = window_size * (num_windows_per_inst - 1)]. *)
Definition linspace_int (start stop : Z) (num : Z) : option (list Z) :=
  if num <? 0 then None
  else if num =? 0 then Some []
  else if num =? 1 then Some [start]
  else
    let step := (stop - start) / (num - 1) in
    Some (map (fun j => Z.of_nat j * step + start) (seq 0 (Z.to_nat num))).

(** The windows [_binning_dft] cuts from one series [X[i, :]] of length
    [series_length]: the [split] list after its last piece is replaced. *)
Definition binning_windows (A : Type) (x : list A) (window_size : Z)
    : option (list (list A)) :=
  let series_length := Z.of_nat (length x) in
  let num_windows_per_inst := ceil_div series_length window_size in
  let start := series_length - window_size in
  match linspace_int window_size (window_size * (num_windows_per_inst - 1))
          (num_windows_per_inst - 1) with
  | None => None
  | Some points =>
      set_last A (np_split A x points) (pyslice A x start series_length)
  end.

(** [end = max(1, len(X[0]) - window_size + 1)] in [_mft]: the number of
    sliding windows. *)
Definition mft_end (series_length window_size : Z) : Z :=
  Z.max 1 (series_length - window_size + 1).

End Segmenter.

(* ================================================================== *)
(** * SpectralReducer *)
(* ================================================================== *)

Module Spectral.
Import Segmenter.
Local Open Scope R_scope.

(** ** numpy on one-dimensional arrays *)

(** [np.sum]. *)
Definition sum (l : list R) : R := fold_right Rplus 0 l.

(** [np.std]: the root of the mean squared deviation from the mean. *)
Definition mean (l : list R) : R := sum l / INR (length l).

Definition np_std (l : list R) : R :=
  sqrt (mean (map (fun v => (v - mean l) * (v - mean l)) l)).

(** [a[0::2]] and [a[1::2]]. *)
Fixpoint evens (A : Type) (l : list A) : list A :=
  match l with
  | [] => []
  | a :: l' =>
      a :: match l' with
           | [] => []
           | _ :: l'' => evens A l''
           end
  end.

Definition odds (A : Type) (l : list A) : list A := evens A (tl l).

(** The row [r] with [r[0::2] = e] and [r[1::2] = o]. *)
Fixpoint interleave (A : Type) (e o : list A) : list A :=
  match e, o with
  | a :: e', b :: o' => a :: b :: interleave A e' o'
  | a :: _, [] => [a]
  | [], _ => []
  end.

(** Elementwise arithmetic on two arrays of one shape. *)
Fixpoint zip_with (A B C : Type) (f : A -> B -> C) (l : list A) (r : list B) : list C :=
  match l, r with
  | a :: l', b :: r' => f a b :: zip_with A B C f l' r'
  | _, _ => []
  end.

(** [a[sel]] for a boolean array [sel]. *)
Fixpoint bool_select (A : Type) (sel : list bool) (l : list A) : list A :=
  match sel, l with
  | b :: sel', v :: l' =>
      if b then v :: bool_select A sel' l' else bool_select A sel' l'
  | _, _ => []
  end.

(** [a[s] = True]; an index past the end is an error. *)
Fixpoint set_true (l : list bool) (s : nat) : option (list bool) :=
  match l, s with
  | [] , _ => None
  | _ :: l', O => Some (true :: l')
  | b :: l', S s' =>
      match set_true l' s' with
      | Some r => Some (b :: r)
      | None => None
      end
  end.

(** Assigning the columns [src] to a slice of [slots] columns: the shapes
    agree, or a single column is broadcast; any other shape is an error. *)
Definition assign_cols (slots : nat) (src : list R) : option (list R) :=
  if Nat.eqb (length src) slots then Some src
  else if Nat.eqb (length src) 1 then Some (repeat (hd 0 src) slots)
  else None.

(** All results, or the first failure. *)
Fixpoint all_some (A : Type) (l : list (option A)) : option (list A) :=
  match l with
  | [] => Some []
  | Some a :: l' =>
      match all_some A l' with
      | Some r => Some (a :: r)
      | None => None
      end
  | None :: _ => None
  end.

(** The sum of [f 0 .. f (n-1)]. *)
Fixpoint rsum (f : nat -> R) (n : nat) : R :=
  match n with
  | O => 0
  | S n' => rsum f n' + f n'
  end.

(** [np.fft.rfft(a)], by the definition numpy documents:
    [A_k = sum_m a_m * exp(-2 pi i m k / n)] for [k = 0 .. n // 2];
    real and imaginary parts. *)
Definition rfft_re (a : list R) (k : nat) : R :=
  rsum (fun m => nth m a 0 * cos (2 * PI * INR m * INR k / INR (length a)))
    (length a).

Definition rfft_im (a : list R) (k : nat) : R :=
  rsum (fun m => nth m a 0 * - sin (2 * PI * INR m * INR k / INR (length a)))
    (length a).

Definition rfft_reals (a : list R) : list R :=
  map (rfft_re a) (seq 0 (length a / 2 + 1)).

Definition rfft_imags (a : list R) : list R :=
  map (rfft_im a) (seq 0 (length a / 2 + 1)).

(** ** [_fast_fourier_transform] *)

(** The row of one window [x = X[i]]. *)
Definition fft_row (x : list R) (norm : bool) (dft_length : nat)
    (inverse_sqrt_win_size : R) : option (list R) :=
  let start := if norm then 2%nat else 0%nat in
  let length := (start + dft_length)%nat in
  let std := np_std x in
  let std := if Rlt_dec std 1e-8 then 1e-8 else std in
  match assign_cols (Nat.div2 (S length)) (firstn (length / 2) (rfft_reals x)),
        assign_cols (length / 2) (firstn (length / 2) (rfft_imags x)) with
  | Some reals, Some imags =>
      Some (skipn start
              (map (fun v => v / std * inverse_sqrt_win_size)
                 (interleave R reals imags)))
  | _, _ => None
  end.

Definition _fast_fourier_transform (X : list (list R)) (norm : bool)
    (dft_length : nat) (inverse_sqrt_win_size : R) : option (list (list R)) :=
  all_some (list R)
    (map (fun x => fft_row x norm dft_length inverse_sqrt_win_size) X).

(** ** [_calc_incremental_mean_std] *)

Definition std_of_sums (series_sum square_sum r_window_length : R) : R :=
  let mean := series_sum * r_window_length in
  let buf := sqrt (square_sum * r_window_length - mean * mean) in
  if Rgt_dec buf 1e-8 then buf else 1e-8.

(** The loop [for w in range(1, end)], carrying the two running sums. *)
Fixpoint std_loop (series : list R) (window_size : nat) (ws : list nat)
    (series_sum square_sum : R) : list R :=
  match ws with
  | [] => []
  | w :: ws' =>
      let series_sum' :=
        series_sum + (nth (w + window_size - 1) series 0 - nth (w - 1) series 0) in
      let square_sum' :=
        square_sum
        + (nth (w + window_size - 1) series 0 * nth (w + window_size - 1) series 0
           - nth (w - 1) series 0 * nth (w - 1) series 0) in
      std_of_sums series_sum' square_sum' (1 / INR window_size)
        :: std_loop series window_size ws' series_sum' square_sum'
  end.

Definition _calc_incremental_mean_std (series : list R) (end_ window_size : nat)
    : list R :=
  let window := pyslice R series 0 (Z.of_nat window_size) in
  let series_sum := sum window in
  let square_sum := sum (zip_with R R R Rmult window window) in
  std_of_sums series_sum square_sum (1 / INR window_size)
    :: std_loop series window_size (seq 1 (end_ - 1)) series_sum square_sum.

(** ** [_get_phis] *)

Definition _get_phis (window_size length : nat) : option (list R) :=
  let i := seq 0 (length / 2) in
  let const := 2 * PI / INR window_size in
  match assign_cols (Nat.div2 (S length)) (map (fun i => cos (- INR i * const)) i),
        assign_cols (length / 2) (map (fun i => - sin (- INR i * const)) i) with
  | Some c, Some s => Some (interleave R c s)
  | _, _ => None
  end.

(** ** [_mft] *)

(** The loop [for s in support] that marks the selected coefficients and
    their real or imaginary partners. *)
Fixpoint mark_support (support : list nat) (indices mask : list bool)
    : option (list bool * list bool) :=
  match support with
  | [] => Some (indices, mask)
  | s :: rest =>
      match set_true indices s, set_true mask s with
      | Some indices1, Some mask1 =>
          match set_true indices1 (if Nat.even s then s + 1 else s - 1)%nat with
          | Some indices2 => mark_support rest indices2 mask1
          | None => None
          end
      | _, _ => None
      end
  end.

(** One turn of the loop [for i in range(1, end)] on the row of window
    [i - 1]: [x_in = X[a, i + window_size - 1]], [x_out = X[a, i - 1]]. *)
Definition mft_step (prev phis2 : list R) (x_in x_out : R) : list R :=
  let reals := map (fun v => v + x_in - x_out) (evens R prev) in
  let imags := odds R prev in
  let c := evens R phis2 in
  let s := odds R phis2 in
  interleave R
    (zip_with R R R Rminus (zip_with R R R Rmult reals c) (zip_with R R R Rmult imags s))
    (zip_with R R R Rplus (zip_with R R R Rmult reals s) (zip_with R R R Rmult c imags)).

Fixpoint mft_loop (x : list R) (window_size : nat) (phis2 : list R)
    (steps : list nat) (prev : list R) : list (list R) :=
  match steps with
  | [] => []
  | i :: steps' =>
      let row :=
        mft_step prev phis2 (nth (i + window_size - 1) x 0) (nth (i - 1) x 0) in
      row :: mft_loop x window_size phis2 steps' row
  end.

(** The windows of one series [x = X[a]]. *)
Definition mft_series (x : list R) (window_size dft_length : nat) (norm : bool)
    (support : list nat) (anova variance : bool) (inverse_sqrt_win_size : R)
    : option (list (list R)) :=
  let start_offset := if norm then 2%nat else 0%nat in
  let length := (dft_length + start_offset + dft_length mod 2)%nat in
  let end_ :=
    Z.to_nat (mft_end (Z.of_nat (List.length x)) (Z.of_nat window_size)) in
  let selection :=
    if anova || variance then
      match mark_support (map (fun s => (s + start_offset)%nat) support)
              (repeat false length) (repeat false length) with
      | Some (indices, mask) => Some (indices, bool_select bool indices mask)
      | None => None
      end
    else Some (repeat true length, []) in
  match selection, _get_phis window_size length with
  | Some (indices, mask), Some phis =>
      let first := pyslice R x 0 (Z.of_nat window_size) in
      match assign_cols (Nat.div2 (S length)) (firstn (length / 2) (rfft_reals first)),
            assign_cols (length / 2) (firstn (length / 2) (rfft_imags first)) with
      | Some reals, Some imags =>
          let phis2 := bool_select R indices phis in
          let row0 := bool_select R indices (interleave R reals imags) in
          let transformed2 :=
            row0 :: mft_loop x window_size phis2 (seq 1 (end_ - 1)) row0 in
          let transformed2 :=
            map (map (fun v => v * inverse_sqrt_win_size)) transformed2 in
          let stds := _calc_incremental_mean_std x end_ window_size in
          if anova || variance then
            Some (zip_with (list R) R (list R)
                    (fun row std => map (fun v => v / std) (bool_select R mask row))
                    transformed2 stds)
          else
            Some (zip_with (list R) R (list R)
                    (fun row std => skipn start_offset (map (fun v => v / std) row))
                    transformed2 stds)
      | _, _ => None
      end
  | _, _ => None
  end.

Definition _mft (X : list (list R)) (window_size dft_length : nat) (norm : bool)
    (support : list nat) (anova variance : bool) (inverse_sqrt_win_size : R)
    : option (list (list (list R))) :=
  all_some (list (list R))
    (map (fun x => mft_series x window_size dft_length norm support anova
                     variance inverse_sqrt_win_size) X).

End Spectral.

(** Notions used to state what the reducer computes. *)
Module SpectralSpec.
Import Segmenter Spectral.
Local Open Scope R_scope.

(** The samples of sliding window [w]: [x[w : w + window_size]]. *)
Definition window (x : list R) (window_size w : nat) : list R :=
  pyslice R x (Z.of_nat w) (Z.of_nat (w + window_size)).

(** The lowest [half] frequency bins of [a], real and imaginary parts
    interleaved. *)
Definition spectrum (a : list R) (half : nat) : list R :=
  interleave R (map (rfft_re a) (seq 0 half)) (map (rfft_im a) (seq 0 half)).

(** A direct transform of the samples [a] with the per-window std
    normalisation and the [1/sqrt(window_size)] scaling:
    [_fast_fourier_transform] on the single window [a], and then the columns
    [support] of it when a selection is active, as [_binning] takes them. *)
Definition direct_transform (a : list R) (norm : bool) (dft_length : nat)
    (support : list nat) (selection : bool) (inverse_sqrt_win_size : R)
    : option (list R) :=
  match fft_row a norm dft_length inverse_sqrt_win_size with
  | Some dft =>
      Some (if selection then map (fun s => nth s dft 0) support else dft)
  | None => None
  end.

(** Each flag twice: a selection of coefficient pairs as a selection of
    columns. *)
Fixpoint dup (p : list bool) : list bool :=
  match p with
  | [] => []
  | b :: p' => b :: b :: dup p'
  end.

End SpectralSpec.

(* ================================================================== *)
(** * CoefficientSelector and Discretizer *)
(* ================================================================== *)

Module Discretizer.
Import Segmenter Spectral.
Local Open Scope R_scope.

(** An entry of the breakpoint table: a finite value or [np.inf]. *)
Inductive xreal : Type :=
| Fin (r : R)
| PInf.

(** [sys.float_info.max], [(2 - 2^-52) * 2^1023]. *)
Definition DBL_MAX : R := IZR ((2 ^ 53 - 1) * 2 ^ 971).

Definition Rleb (a b : R) : bool := if Rle_dec a b then true else false.

(** [a <= b] on table entries. *)
Definition xleb (a b : xreal) : bool :=
  match a, b with
  | _, PInf => true
  | PInf, Fin _ => false
  | Fin x, Fin y => Rleb x y
  end.

(** [np.sort]: ascending, equal keys in their first order. *)
Section Sorting.
Variable A : Type.
Variable leb : A -> A -> bool.

Fixpoint insert (a : A) (l : list A) : list A :=
  match l with
  | [] => [a]
  | b :: l' => if leb a b then a :: l else b :: insert a l'
  end.

Fixpoint sort (l : list A) : list A :=
  match l with
  | [] => []
  | a :: l' => insert a (sort l')
  end.

End Sorting.

(** [np.argsort(keys)]. *)
Definition argsort (keys : list R) : list nat :=
  sort nat (fun i j => Rleb (nth i keys 0) (nth j keys 0)) (seq 0 (length keys)).

(** [np.round(v, 2)]: to the nearest hundredth, ties to the even one. *)
Definition rint (r : R) : Z :=
  let f := (up r - 1)%Z in
  let d := r - IZR f in
  if Rlt_dec d (1 / 2) then f
  else if Rlt_dec (1 / 2) d then (f + 1)%Z
  else if Z.even f then f else (f + 1)%Z.

Definition round2 (r : R) : R := IZR (rint (r * 100)) / 100.

(** [dft[:, j]]; a column the matrix does not have is an error. *)
Definition column (dft : list (list R)) (j : nat) : option (list R) :=
  all_some R (map (fun row => nth_error row j) dft).

(** [np.var(dft, axis=0)] for [ncols] columns. *)
Definition np_var (l : list R) : R :=
  mean (map (fun v => (v - mean l) * (v - mean l)) l).

Definition variances (dft : list (list R)) (ncols : nat) : option (list R) :=
  match all_some (list R) (map (column dft) (seq 0 ncols)) with
  | Some cols => Some (map np_var cols)
  | None => None
  end.

(** [dft[:, support]]. *)
Definition take_columns (dft : list (list R)) (support : list nat)
    : option (list (list R)) :=
  all_some (list R)
    (map (fun row => all_some R (map (fun s => nth_error row s) support)) dft).

(** [np.max(support)]; the maximum of nothing is an error. *)
Definition np_max (support : list nat) : option nat :=
  match support with
  | [] => None
  | s :: rest => Some (fold_left Nat.max rest s)
  end.

(** The variance branch of [_binning]: the new [support], the reduced matrix
    and the new [dft_length]. *)
Definition select_by_variance (dft : list (list R)) (ncols word_length : nat)
    : option (list nat * list (list R) * nat) :=
  match variances dft ncols with
  | None => None
  | Some dft_variance =>
      let support := firstn word_length (argsort (map Ropp dft_variance)) in
      let support := sort nat Nat.leb support in
      match take_columns dft support, np_max support with
      | Some dft', Some m =>
          let dft_length := (m + 1)%nat in
          Some (support, dft', (dft_length + dft_length mod 2)%nat)
      | _, _ => None
      end
  end.

(** ** [_mcb] *)

(** The equi-depth breakpoints of a sorted column of [n = len(dft)] values:
    [bin_index] is [n / alphabet_size] added [bp + 1] times, cut to an
    integer. *)
Definition equi_depth (column : list R) (n alphabet_size : Z) : option (list R) :=
  all_some R
    (map (fun bp =>
            nth_error column
              (Z.to_nat ((Z.of_nat bp + 1) * n / alphabet_size)))
       (seq 0 (Z.to_nat (alphabet_size - 1)))).

(** The equi-width breakpoints; [column[-1]] and [column[0]] need a value. *)
Definition equi_width (column : list R) (alphabet_size : Z) : option (list R) :=
  match column with
  | [] => None
  | first :: _ =>
      let target_bin_width := (last column 0 - first) / IZR alphabet_size in
      Some (map (fun bp => (INR bp + 1) * target_bin_width + first)
              (seq 0 (Z.to_nat (alphabet_size - 1))))
  end.

Definition mcb_row (dft : list (list R)) (binning_method : String.string)
    (alphabet_size : Z) (letter : nat) : option (list xreal) :=
  match column dft letter with
  | None => None
  | Some col =>
      let col := sort R Rleb col in
      let inner :=
        if String.eqb binning_method "equi-depth"%string then
          equi_depth col (Z.of_nat (length dft)) alphabet_size
        else if String.eqb binning_method "equi-width"%string then
          equi_width col alphabet_size
        else Some (repeat 0 (Z.to_nat (alphabet_size - 1))) in
      match inner with
      | Some bps => Some (map Fin bps ++ [Fin DBL_MAX])
      | None => None
      end
  end.

Definition _mcb (dft : list (list R)) (binning_method : String.string)
    (word_length : nat) (alphabet_size : Z) : option (list (list xreal)) :=
  let dft := map (map round2) dft in
  all_some (list xreal)
    (map (mcb_row dft binning_method alphabet_size) (seq 0 word_length)).

(** ** [_igb] *)

(** Row [i] before the final sort: the thresholds of the fitted tree, then
    [np.inf]; more thresholds than columns is an index error. *)
Definition igb_row (threshold : list R) (alphabet_size : Z) : option (list xreal) :=
  if (Z.of_nat (length threshold) <=? alphabet_size)%Z then
    Some (map Fin threshold
            ++ repeat PInf (Z.to_nat (alphabet_size - Z.of_nat (length threshold))))
  else None.

Section Collaborators.

(** [DecisionTreeClassifier(criterion="entropy", max_depth=..,
    max_leaf_nodes=alphabet_size, random_state=1)] fitted on one column and
    the labels: the thresholds of its inner nodes,
    [clf.tree_.threshold[clf.tree_.children_left != -1]]. *)
Variable tree_thresholds : Z -> list R -> list Z -> list R.

Definition _igb (dft : list (list R)) (y : list Z) (word_length : nat)
    (alphabet_size : Z) : option (list (list xreal)) :=
  all_some (list xreal)
    (map (fun i =>
            match column dft i with
            | None => None
            | Some col =>
                match igb_row (tree_thresholds alphabet_size col y) alphabet_size with
                | Some row => Some (sort xreal xleb row)
                | None => None
                end
            end)
       (seq 0 word_length)).

(** ** [_k_bins_discretizer] *)

(** [encoder.bin_edges_] of a fitted [KBinsDiscretizer]: a one-dimensional
    array holding one array of edges per feature, or a two-dimensional
    array of edges. *)
Inductive bin_edges : Type :=
| EdgesPerFeature (edges : list (list R))
| EdgesMatrix (edges : list (list R)).

Variable kbins_fit : Z -> String.string -> list (list R) -> bin_edges.

(** The entries [breaks[letter, 1 .. len - 2]] written over the zeros of a
    row; an entry past the row is an index error. *)
Fixpoint overwrite (row : list R) (values : list R) : option (list R) :=
  match values, row with
  | [], _ => Some row
  | v :: values', _ :: row' =>
      match overwrite row' values' with
      | Some r => Some (v :: r)
      | None => None
      end
  | _ :: _, [] => None
  end.

(** The entries [breaks[letter, bp]] for [bp] in [range(1, len(breaks[letter]) - 1)].
    After [reshape((-1, 1))] a row of the one-dimensional form holds a single
    object, and the range is empty. *)
Definition breaks_inner (breaks : bin_edges) (letter : nat) : option (list R) :=
  match breaks with
  | EdgesPerFeature edges =>
      match nth_error edges letter with
      | Some _ => Some []
      | None => None
      end
  | EdgesMatrix edges =>
      match nth_error edges letter with
      | Some e => Some (removelast (tl e))
      | None => None
      end
  end.

Definition kbins_row (breaks : bin_edges) (alphabet_size : Z) (letter : nat)
    : option (list xreal) :=
  match breaks_inner breaks letter with
  | None => None
  | Some inner =>
      match overwrite (repeat 0 (Z.to_nat alphabet_size)) inner with
      | Some row => Some (map Fin (removelast row) ++ [Fin DBL_MAX])
      | None => None
      end
  end.

Definition _k_bins_discretizer (dft : list (list R)) (binning_method : String.string)
    (word_length : nat) (alphabet_size : Z) : option (list (list xreal)) :=
  let breaks := kbins_fit alphabet_size binning_method dft in
  all_some (list xreal)
    (map (kbins_row breaks alphabet_size) (seq 0 word_length)).

End Collaborators.

End Discretizer.

(** Notions used to state what the fit stores. *)
Module DiscretizerSpec.
Import Discretizer.
Local Open Scope R_scope.

(** "each row of the breakpoint table is non-decreasing". *)
Definition nondecreasing (row : list xreal) : Prop :=
  StronglySorted (fun a b => xleb a b = true) row.


(** "rank coefficients by descending variance; take the top [word_length]
    indices": the chosen indices are distinct columns of the matrix,
    [min(word_length, ncols)] of them, and no column left out has a larger
    variance than a chosen one. *)
Definition top_variance (vars : list R) (word_length : nat) (support : list nat)
    : Prop :=
  NoDup support /\
  length support = Nat.min word_length (length vars) /\
  Forall (fun s => (s < length vars)%nat) support /\
  forall i j, In i support -> (j < length vars)%nat -> ~ In j support ->
    nth j vars 0 <= nth i vars 0.


End DiscretizerSpec.

(* ================================================================== *)
(** * The estimator: [__init__], [fit], [transform] *)
(* ================================================================== *)

Module Estimator.
Import Segmenter Spectral Discretizer.
Local Open Scope R_scope.

(** [binning_methods]. *)
Definition binning_methods : list String.string :=
  ["equi-depth"%string; "equi-width"%string; "information-gain"%string;
   "kmeans"%string].

(** What a call can raise. [LibraryError] stands for an error raised inside
    a numpy or scikit-learn call (a shape or index error). *)
Inductive exn : Type :=
| ValueError (msg : String.string)
| TypeError (msg : String.string) (arg : list String.string)
| NotFittedError
| LibraryError.

(** The attributes of an [SFA_NEW] object. *)
Record SFA_NEW : Type := mkSFA {
  word_length : nat;
  alphabet_size : Z;
  window_size : nat;
  norm : bool;
  binning_method : String.string;
  anova : bool;
  variance : bool;
  bigrams : bool;
  dft_length : nat;
  support : list nat;
  breakpoints : list (list xreal);
  inverse_sqrt_win_size : R;
  n_instances : nat;
  series_length : nat;
  letter_bits : Z;
  word_bits : Z;
  max_bits : Z;
  _is_fitted : bool
}.

(** [SFA_NEW.__init__]. *)
Definition __init__ (word_length : nat) (alphabet_size : Z) (window_size : nat)
    (norm : bool) (binning_method : String.string) (anova variance bigrams : bool)
    : SFA_NEW :=
  let offset := if norm then 2%nat else 0%nat in
  let dft_length :=
    if anova || variance then (window_size - offset)%nat else word_length in
  let dft_length := (dft_length + dft_length mod 2)%nat in
  {| word_length := word_length;
     alphabet_size := alphabet_size;
     window_size := window_size;
     norm := norm;
     binning_method := binning_method;
     anova := anova;
     variance := variance;
     bigrams := bigrams;
     dft_length := dft_length;
     support := seq 0 word_length;
     breakpoints := [];
     inverse_sqrt_win_size := 1 / sqrt (INR window_size);
     n_instances := 0;
     series_length := 0;
     letter_bits := 0;
     word_bits := 0;
     max_bits := 0;
     _is_fitted := false |}.

Definition set_selection (self : SFA_NEW) (support : list nat) (dft_length : nat)
    : SFA_NEW :=
  {| word_length := word_length self;
     alphabet_size := alphabet_size self;
     window_size := window_size self;
     norm := norm self;
     binning_method := binning_method self;
     anova := anova self;
     variance := variance self;
     bigrams := bigrams self;
     dft_length := dft_length;
     support := support;
     breakpoints := breakpoints self;
     inverse_sqrt_win_size := inverse_sqrt_win_size self;
     n_instances := n_instances self;
     series_length := series_length self;
     letter_bits := letter_bits self;
     word_bits := word_bits self;
     max_bits := max_bits self;
     _is_fitted := _is_fitted self |}.

(** [self.letter_bits], [self.word_bits], [self.max_bits]. *)
Definition set_bits (self : SFA_NEW) (letter_bits word_bits max_bits : Z)
    : SFA_NEW :=
  {| word_length := word_length self;
     alphabet_size := alphabet_size self;
     window_size := window_size self;
     norm := norm self;
     binning_method := binning_method self;
     anova := anova self;
     variance := variance self;
     bigrams := bigrams self;
     dft_length := dft_length self;
     support := support self;
     breakpoints := breakpoints self;
     inverse_sqrt_win_size := inverse_sqrt_win_size self;
     n_instances := n_instances self;
     series_length := series_length self;
     letter_bits := letter_bits;
     word_bits := word_bits;
     max_bits := max_bits;
     _is_fitted := _is_fitted self |}.

(** [self.n_instances, self.series_length = X.shape]. *)
Definition set_shape (self : SFA_NEW) (X : list (list R)) : SFA_NEW :=
  {| word_length := word_length self;
     alphabet_size := alphabet_size self;
     window_size := window_size self;
     norm := norm self;
     binning_method := binning_method self;
     anova := anova self;
     variance := variance self;
     bigrams := bigrams self;
     dft_length := dft_length self;
     support := support self;
     breakpoints := breakpoints self;
     inverse_sqrt_win_size := inverse_sqrt_win_size self;
     n_instances := length X;
     series_length := match X with [] => 0%nat | x :: _ => length x end;
     letter_bits := letter_bits self;
     word_bits := word_bits self;
     max_bits := max_bits self;
     _is_fitted := _is_fitted self |}.

(** [self.breakpoints = ...; self._is_fitted = True]. *)
Definition set_fitted (self : SFA_NEW) (table : list (list xreal)) : SFA_NEW :=
  {| word_length := word_length self;
     alphabet_size := alphabet_size self;
     window_size := window_size self;
     norm := norm self;
     binning_method := binning_method self;
     anova := anova self;
     variance := variance self;
     bigrams := bigrams self;
     dft_length := dft_length self;
     support := support self;
     breakpoints := table;
     inverse_sqrt_win_size := inverse_sqrt_win_size self;
     n_instances := n_instances self;
     series_length := series_length self;
     letter_bits := letter_bits self;
     word_bits := word_bits self;
     max_bits := max_bits self;
     _is_fitted := true |}.

(** [_binning_dft]: the transforms of the fit-time windows of every
    instance, flattened to one matrix. *)
Definition _binning_dft (X : list (list R)) (window_size dft_length : nat)
    (norm : bool) (inverse_sqrt_win_size : R) : option (list (list R)) :=
  match
    all_some (list (list R))
      (map (fun x =>
              match binning_windows R x (Z.of_nat window_size) with
              | Some split =>
                  _fast_fourier_transform split norm dft_length
                    inverse_sqrt_win_size
              | None => None
              end) X)
  with
  | Some dft => Some (concat dft)
  | None => None
  end.

(** [np.repeat(y, dft.shape[0] / len(y))]. *)
Definition repeat_labels (y : list Z) (rows : nat) : option (list Z) :=
  match y with
  | [] => None
  | _ => Some (flat_map (fun l => repeat l (rows / length y)) y)
  end.

Section Collaborators.

(** The panel as the caller passes it, and the validator [check_X] with
    [squeeze(1)]: one row per instance. *)
Variable Panel : Type.
Variable check_X : Panel -> exn + list (list R).

(** [f_classif(dft, y)[0]], [DecisionTreeClassifier] and [KBinsDiscretizer]. *)
Variable f_classif : list (list R) -> list Z -> list R.
Variable tree_thresholds : Z -> list R -> list Z -> list R.
Variable kbins_fit : Z -> String.string -> list (list R) -> bin_edges.

(** The ANOVA branch of [_binning]. *)
Definition select_by_anova (self : SFA_NEW) (dft : list (list R)) (ncols : nat)
    (y : list Z) : option (list nat * list (list R) * nat) :=
  match variances dft ncols with
  | None => None
  | Some vars =>
      let non_constant :=
        filter (fun j => if Rle_dec (Rabs (nth j vars 0)) 1e-8 then false else true)
          (seq 0 ncols) in
      let chosen :=
        if Nat.leb (word_length self) (length non_constant) then
          match take_columns dft non_constant with
          | Some sub =>
              Some (firstn (word_length self)
                      (map (fun i => nth i non_constant 0%nat)
                         (argsort (map Ropp (f_classif sub y)))))
          | None => None
          end
        else Some (support self) in
      match chosen with
      | None => None
      | Some support =>
          let support := sort nat Nat.leb support in
          match take_columns dft support, np_max support with
          | Some dft', Some m =>
              let dft_length := (m + 1)%nat in
              Some (support, dft', (dft_length + dft_length mod 2)%nat)
          | _, _ => None
          end
      end
  end.

(** [_binning]: the object with its selection updated, and the table. *)
Definition _binning (self : SFA_NEW) (X : list (list R)) (y : option (list Z))
    : option (SFA_NEW * list (list xreal)) :=
  match _binning_dft X (window_size self) (dft_length self) (norm self)
          (inverse_sqrt_win_size self) with
  | None => None
  | Some dft =>
      let y :=
        match y with
        | Some labels => option_map Some (repeat_labels labels (length dft))
        | None => Some None
        end in
      match y with
      | None => None
      | Some y =>
          let after_variance :=
            match variance self, y with
            | true, Some _ =>
                match select_by_variance dft (dft_length self) (word_length self) with
                | Some (support, dft', dft_length) =>
                    Some (set_selection self support dft_length, dft')
                | None => None
                end
            | _, _ => Some (self, dft)
            end in
          let after_anova :=
            match after_variance with
            | None => None
            | Some (self1, dft1) =>
                match anova self1, y with
                | true, Some labels =>
                    match select_by_anova self1 dft1
                            (match dft1 with [] => 0%nat | row :: _ => length row end)
                            labels with
                    | Some (support, dft', dft_length) =>
                        Some (set_selection self1 support dft_length, dft')
                    | None => None
                    end
                | _, _ => Some (self1, dft1)
                end
            end in
          match after_anova with
          | None => None
          | Some (self2, dft2) =>
              let table :=
                if String.eqb (binning_method self2) "information-gain"%string then
                  match y with
                  | Some labels =>
                      _igb tree_thresholds dft2 labels (word_length self2)
                        (alphabet_size self2)
                  | None => None
                  end
                else if String.eqb (binning_method self2) "kmeans"%string then
                  _k_bins_discretizer kbins_fit dft2 (binning_method self2)
                    (word_length self2) (alphabet_size self2)
                else
                  _mcb dft2 (binning_method self2) (word_length self2)
                    (alphabet_size self2) in
              match table with
              | Some t => Some (self2, t)
              | None => None
              end
          end
      end
  end.

(** The four guards at the head of [fit]. *)
Definition fit_guards (self : SFA_NEW) (y : option (list Z)) : option exn :=
  if (alphabet_size self <? 2)%Z then
    Some (ValueError "Alphabet size must be an integer greater than 2"%string)
  else if String.eqb (binning_method self) "information-gain"%string
          && (match y with None => true | Some _ => false end) then
    Some (ValueError "Class values must be provided for information gain binning"%string)
  else if variance self && anova self then
    Some (ValueError "Please set either variance or anova feature selection"%string)
  else if negb (existsb (String.eqb (binning_method self)) binning_methods) then
    Some (TypeError "binning_method must be one of: "%string binning_methods)
  else None.

(** [fit] after the guards: the bit widths, the validation of the panel,
    the binning pass. *)
Definition fit_body (self : SFA_NEW) (X : Panel) (y : option (list Z))
    : exn + SFA_NEW :=
  let letter_bits := Z.log2_up (alphabet_size self) in
  let word_bits := (Z.of_nat (word_length self) * letter_bits)%Z in
  let max_bits := if bigrams self then (word_bits * 2)%Z else word_bits in
  let self := set_bits self letter_bits word_bits max_bits in
  match check_X X with
  | inl e => inl e
  | inr X =>
      match _binning (set_shape self X) X y with
      | None => inl LibraryError
      | Some (self, table) => inr (set_fitted self table)
      end
  end.

(** [fit]. *)
Definition fit (self : SFA_NEW) (X : Panel) (y : option (list Z)) : exn + SFA_NEW :=
  match fit_guards self y with
  | Some e => inl e
  | None => fit_body self X y
  end.

(** Modelled from the spec: [check_is_fitted] of the base class, which is
    not among the sources; "[transform] invoked before [fit] -> not fitted
    error".  The flag [_is_fitted] is false until [fit] sets it. *)
Definition check_is_fitted (self : SFA_NEW) : option exn :=
  if _is_fitted self then None else Some NotFittedError.

(** [transform]. *)
Definition transform (self : SFA_NEW) (X : Panel) : exn + list (list Z) :=
  match check_is_fitted self with
  | Some e => inl e
  | None =>
      match check_X X with
      | inl e => inl e
      | inr X =>
          match _mft X (window_size self) (dft_length self) (norm self)
                  (support self) (anova self) (variance self)
                  (inverse_sqrt_win_size self) with
          | None => inl LibraryError
          | Some dfts =>
              match Encoder._transform_case xreal xleb PInf
                      (map (map (map Fin)) dfts) (breakpoints self)
                      (letter_bits self) (word_bits self)
                      (Z.of_nat (window_size self)) (bigrams self) with
              | Some words => inr words
              | None => inl LibraryError
              end
          end
      end
  end.

End Collaborators.

End Estimator.

(** A panel already in the validated form, and collaborators that answer
    with nothing: enough to run the equi-depth and equi-width fits. *)
Module Scenario.
Import Discretizer Estimator.
Local Open Scope R_scope.

Definition check_X_id (X : list (list R)) : exn + list (list R) := inr X.

Definition no_f_classif (dft : list (list R)) (y : list Z) : list R := [].

Definition no_tree (alphabet_size : Z) (col : list R) (y : list Z) : list R := [].

Definition no_kbins (alphabet_size : Z) (strategy : String.string)
    (dft : list (list R)) : bin_edges := EdgesPerFeature [].

(** A [KBinsDiscretizer] that answers with its edges as scikit-learn stores
    them, one array per feature, and a tree with a single split at 0. *)
Definition per_feature_kbins (alphabet_size : Z) (strategy : String.string)
    (dft : list (list R)) : bin_edges :=
  EdgesPerFeature [[-1; 0; 1]; [-2; 0; 2]].

Definition one_split (alphabet_size : Z) (col : list R) (y : list Z) : list R := [0].

(** An [f_classif] that scores every column it is handed with 1. *)
Definition unit_scores (dft : list (list R)) (y : list Z) : list R :=
  map (fun _ => 1) (hd [] dft).

(** Two series of four samples, one window each for [window_size = 4]. *)
Definition two_waves : list (list R) := [[1; 0; -1; 0]; [-1; 0; 1; 0]].

(** [SFA_NEW(word_length=2, alphabet_size=4, window_size=4, norm=False,
    binning_method="equi-depth")]. *)
Definition depth_sfa : SFA_NEW :=
  __init__ 2 4 4 false "equi-depth"%string false false false.

(** The same with [variance=True] and a given word length. *)
Definition variance_sfa (word_length : nat) : SFA_NEW :=
  __init__ word_length 4 4 false "equi-depth"%string false true false.

(** The divisor [_fast_fourier_transform] uses for a window. *)
Definition window_std (x : list R) : R :=
  if Rlt_dec (Spectral.np_std x) 1e-8 then 1e-8 else Spectral.np_std x.

End Scenario.
(* ================================================================== *)
(** * The distance factory: [BaseDistance] *)
(* ================================================================== *)

(** [sktime/distances/distance_rework/_base/_base.py].  A call that raises
    is [None].  [numba.njit] compiles the function it is given: on the
    arguments its signature admits, the compiled function returns what the
    Python function returns, and it is read here as that function. *)
Module Distance.
Local Open Scope R_scope.

(** What a distance is called with: a Python float, a numpy scalar (the
    item of a one-dimensional array), a one-dimensional array, or a
    two-dimensional array of [ncols] columns. *)
Inductive arg : Type :=
| Float (r : R)
| Arr0 (r : R)
| Arr1 (v : list R)
| Arr2 (ncols : nat) (rows : list (list R)).

(** [x.ndim]; a Python float has none. *)
Definition ndim (x : arg) : option nat :=
  match x with
  | Float _ => None
  | Arr0 _ => Some 0%nat
  | Arr1 _ => Some 1%nat
  | Arr2 _ _ => Some 2%nat
  end.

(** [x.shape[0]], [x.shape[1]] and [x.shape[-1]]. *)
Definition shape0 (x : arg) : option nat :=
  match x with
  | Arr1 v => Some (length v)
  | Arr2 _ rows => Some (length rows)
  | _ => None
  end.

Definition shape1 (x : arg) : option nat :=
  match x with
  | Arr2 ncols _ => Some ncols
  | _ => None
  end.

Definition shape_last (x : arg) : option nat :=
  match x with
  | Arr1 v => Some (length v)
  | Arr2 ncols _ => Some ncols
  | _ => None
  end.

(** [x[i]]. *)
Definition getitem (x : arg) (i : nat) : option arg :=
  match x with
  | Arr1 v => option_map Arr0 (nth_error v i)
  | Arr2 _ rows => option_map Arr1 (nth_error rows i)
  | _ => None
  end.

(** [x.reshape(1, -1)]. *)
Definition reshape_row (x : arg) : option arg :=
  match x with
  | Float _ => None
  | Arr0 r => Some (Arr2 1 [[r]])
  | Arr1 v => Some (Arr2 (length v) [v])
  | Arr2 ncols rows => Some (Arr2 (ncols * length rows) [concat rows])
  end.

(** [numba.njit(...)(func)]. *)
Definition njit (A : Type) (func : A) : A := func.

Section Factory.

(** [**kwargs], and the cost matrices with [np.zeros((n, m))] and [np.add]. *)
Variable K : Type.
Variable Cost : Type.
Variable cost_zeros : nat -> nat -> Cost.
Variable cost_add : Cost -> Cost -> option Cost.

(** [DistanceCallableReturn]: a float, or a float with a cost matrix. *)
Inductive ret : Type :=
| Dist (d : R)
| DistCost (d : R) (cost : Cost).

(** [DistanceCallable]. *)
Definition callable : Type := arg -> arg -> option ret.

(** [numbadistance(distance_type, cache=.., fastmath=..,
    return_cost_matrix=..)(func)]. *)
Definition numbadistance (distance_type : String.string)
    (cache fastmath return_cost_matrix : bool) (func : callable) : callable :=
  njit callable func.

(** A subclass of [BaseDistance]: its class attributes and its methods.
    [_dependent_distance] and [_result_distance_callback] are [None] when
    the subclass does not override them; [_local_distance] is [None] when it
    is the one of the base class, which raises. *)
Record BaseDistance : Type := mkDistance {
  _has_cost_matrix : bool;
  _numba_distance : bool;
  _cache : bool;
  _fastmath : bool;
  _has_local_distance : bool;
  _independent_distance : arg -> arg -> K -> option callable;
  _dependent_distance : option (arg -> arg -> K -> option callable);
  _local_distance : option (arg -> arg -> K -> option callable);
  _result_distance_callback : option (R -> nat -> nat -> R);
  _preprocessing_time_series_callback : K -> arg -> option arg
}.

(** [_preprocessing_callback] of the base class. *)
Definition default_preprocessing (kwargs : K) (x : arg) : option arg := Some x.

(** [_preprocess_time_series] for a one-dimensional example: [_x] is written
    into the single row of [np.zeros((1, _x.shape[0]))]; a two-dimensional
    [_x] fits that row only when it is 1 by 1. *)
Definition to_single_row (x : arg) : option arg :=
  match x with
  | Arr1 v => Some (Arr2 (length v) [v])
  | Arr2 1 [[v]] => Some (Arr2 1 [[v]])
  | _ => None
  end.

(** [_preprocess_time_series_factory]. *)
Definition _preprocess_time_series_factory (self : BaseDistance) (x y : arg)
    (kwargs : K) : option (arg -> option arg) :=
  let callback := _preprocessing_time_series_callback self kwargs in
  let callback :=
    if _numba_distance self then njit (arg -> option arg) callback else callback in
  match ndim x with
  | None => None
  | Some d =>
      if (d <? 2)%nat then
        let _preprocess_time_series := fun _x =>
          match to_single_row _x with
          | Some _process_x => callback _process_x
          | None => None
          end in
        Some (if _numba_distance self
              then njit (arg -> option arg) _preprocess_time_series
              else _preprocess_time_series)
      else Some callback
  end.

(** The loop of [_independent_distance_wrapper] without a cost matrix:
    [total += callable_distance(_x[i], _y[i])]. *)
Fixpoint sum_dimensions (callable_distance : callable) (_x _y : arg)
    (dims : list nat) (total : R) : option R :=
  match dims with
  | [] => Some total
  | i :: dims' =>
      match getitem _x i, getitem _y i with
      | Some xi, Some yi =>
          match callable_distance xi yi with
          | Some (Dist curr_dist) =>
              sum_dimensions callable_distance _x _y dims' (total + curr_dist)
          | _ => None
          end
      | _, _ => None
      end
  end.

(** The loop with a cost matrix: the callable has to return a pair. *)
Fixpoint sum_dimensions_cost (callable_distance : callable) (_x _y : arg)
    (dims : list nat) (total : R) (cost_matrix : Cost) : option (R * Cost) :=
  match dims with
  | [] => Some (total, cost_matrix)
  | i :: dims' =>
      match getitem _x i, getitem _y i with
      | Some xi, Some yi =>
          match callable_distance xi yi with
          | Some (DistCost curr_dist curr_cost_matrix) =>
              match cost_add cost_matrix curr_cost_matrix with
              | Some cost_matrix' =>
                  sum_dimensions_cost callable_distance _x _y dims'
                    (total + curr_dist) cost_matrix'
              | None => None
              end
          | _ => None
          end
      | _, _ => None
      end
  end.

(** [_independent_distance_wrapper], in its two forms. *)
Definition _independent_distance_wrapper (return_cost_matrix : bool)
    (callable_distance : callable) : callable :=
  fun _x _y =>
    if return_cost_matrix then
      match shape1 _x, shape1 _y, shape0 _x with
      | Some n, Some m, Some dims =>
          match sum_dimensions_cost callable_distance _x _y (seq 0 dims) 0
                  (cost_zeros n m) with
          | Some (total, cost_matrix) => Some (DistCost total cost_matrix)
          | None => None
          end
      | _, _, _ => None
      end
    else
      match shape0 _x with
      | Some dims =>
          match sum_dimensions callable_distance _x _y (seq 0 dims) 0 with
          | Some total => Some (Dist total)
          | None => None
          end
      | None => None
      end.

(** [initial_distance_callable(_x, _y)[0]]. *)
Definition _cost_matrix_callable (initial_distance_callable : callable) : callable :=
  fun _x _y =>
    match initial_distance_callable _x _y with
    | Some (DistCost d _) => Some (Dist d)
    | _ => None
    end.

(** [result_callback_callable], in its two forms. *)
Definition result_callback_callable (return_cost_matrix : bool)
    (result_callback : R -> nat -> nat -> R) (final_distance_callable : callable)
    : callable :=
  fun _x _y =>
    match final_distance_callable _x _y, shape_last _x, shape_last _y with
    | Some (DistCost distance cost_matrix), Some n, Some m =>
        if return_cost_matrix
        then Some (DistCost (result_callback distance n m) cost_matrix)
        else None
    | Some (Dist distance), Some n, Some m =>
        if return_cost_matrix then None
        else Some (Dist (result_callback distance n m))
    | _, _, _ => None
    end.

(** [distance_factory]. *)
Definition distance_factory (self : BaseDistance) (x y : arg)
    (strategy : String.string) (return_cost_matrix : bool) (kwargs : K)
    : option callable :=
  if String.eqb strategy "local"%string && _has_local_distance self then
    match _local_distance self with
    | None => None
    | Some local =>
        match local x y kwargs with
        | None => None
        | Some local_dist =>
            Some (if _numba_distance self then njit callable local_dist
                  else local_dist)
        end
    end
  else
    match ndim x with
    | None => None
    | Some d =>
        let strategy :=
          if (d <? 2)%nat then "independent"%string else strategy in
        match (if (d <? 2)%nat then reshape_row x else Some x),
              (if (d <? 2)%nat then reshape_row y else Some y) with
        | Some temp_x, Some temp_y =>
            let independent :=
              String.eqb strategy "independent"%string
              || match _dependent_distance self with
                 | None => true
                 | Some _ => false
                 end in
            let strategy := if independent then "independent"%string else strategy in
            match
              (if independent then _independent_distance self temp_x temp_y kwargs
               else
                 match _dependent_distance self with
                 | Some dependent => dependent temp_x temp_y kwargs
                 | None => None
                 end)
            with
            | None => None
            | Some initial_distance_callable =>
                let initial_distance_callable :=
                  if _numba_distance self then
                    numbadistance strategy (_cache self) (_fastmath self)
                      (_has_cost_matrix self) initial_distance_callable
                  else initial_distance_callable in
                let callable_distance :=
                  if negb return_cost_matrix then
                    if _has_cost_matrix self then
                      if _numba_distance self then
                        numbadistance strategy (_cache self) (_fastmath self) false
                          (_cost_matrix_callable initial_distance_callable)
                      else _cost_matrix_callable initial_distance_callable
                    else initial_distance_callable
                  else initial_distance_callable in
                let final_distance_callable :=
                  if String.eqb strategy "independent"%string then
                    if _numba_distance self then
                      numbadistance "dependent"%string (_cache self) (_fastmath self)
                        return_cost_matrix
                        (_independent_distance_wrapper return_cost_matrix
                           callable_distance)
                    else
                      _independent_distance_wrapper return_cost_matrix
                        callable_distance
                  else callable_distance in
                let with_callback :=
                  match _result_distance_callback self with
                  | Some result_callback =>
                      let result_callback :=
                        if _numba_distance self
                        then njit (R -> nat -> nat -> R) result_callback
                        else result_callback in
                      if _numba_distance self then
                        numbadistance "dependent"%string (_cache self)
                          (_fastmath self) return_cost_matrix
                          (result_callback_callable return_cost_matrix
                             result_callback final_distance_callable)
                      else
                        result_callback_callable return_cost_matrix
                          result_callback final_distance_callable
                  | None => final_distance_callable
                  end in
                match _preprocess_time_series_factory self x y kwargs with
                | None => None
                | Some _preprocess_time_series =>
                    let _preprocessed_distance_callable := fun _x _y =>
                      match _preprocess_time_series _x, _preprocess_time_series _y with
                      | Some _preprocess_x, Some _preprocess_y =>
                          with_callback _preprocess_x _preprocess_y
                      | _, _ => None
                      end in
                    Some (if _numba_distance self then
                            numbadistance
                              (if (d <? 2)%nat then "independent"%string
                               else "dependent"%string)
                              (_cache self) (_fastmath self) return_cost_matrix
                              _preprocessed_distance_callable
                          else _preprocessed_distance_callable)
                end
            end
        | _, _ => None
        end
    end.

(** [distance]. *)
Definition distance (self : BaseDistance) (x y : arg) (strategy : String.string)
    (return_cost_matrix : bool) (kwargs : K) : option ret :=
  match distance_factory self x y strategy return_cost_matrix kwargs with
  | Some distance_callable => distance_callable x y
  | None => None
  end.

(** [independent_distance], [dependent_distance] and [local_distance]. *)
Definition independent_distance (self : BaseDistance) (x y : arg)
    (return_cost_matrix : bool) (kwargs : K) : option ret :=
  distance self x y "independent"%string return_cost_matrix kwargs.

Definition dependent_distance (self : BaseDistance) (x y : arg)
    (return_cost_matrix : bool) (kwargs : K) : option ret :=
  distance self x y "dependent"%string return_cost_matrix kwargs.

Definition local_distance (self : BaseDistance) (x y : arg) (kwargs : K)
    : option ret :=
  distance self x y "local"%string false kwargs.

End Factory.

Arguments Dist {Cost} d.
Arguments DistCost {Cost} d cost.
Arguments _has_cost_matrix {K Cost} b.
Arguments _numba_distance {K Cost} b.
Arguments _has_local_distance {K Cost} b.
Arguments _independent_distance {K Cost} b.
Arguments _dependent_distance {K Cost} b.
Arguments _local_distance {K Cost} b.
Arguments _result_distance_callback {K Cost} b.
Arguments _preprocessing_time_series_callback {K Cost} b.

End Distance.

(** Two subclasses to run the factory on: the squared Euclidean distance of
    two one-dimensional arrays, alone and with a one-entry cost matrix. *)
Module DistanceScenario.
Import Distance.
Local Open Scope R_scope.

Definition matrix : Type := list (list R).

Definition zeros (n m : nat) : matrix := repeat (repeat 0 m) n.

(** [np.add] on two matrices of one shape. *)
Definition add (a b : matrix) : option matrix :=
  if Nat.eqb (length a) (length b)
     && forallb (fun p => Nat.eqb (length (fst p)) (length (snd p))) (combine a b)
  then Some (map (fun p => map (fun q => fst q + snd q) (combine (fst p) (snd p)))
               (combine a b))
  else None.

Definition squared (u v : list R) : R :=
  fold_left Rplus (map (fun p => (fst p - snd p) * (fst p - snd p)) (combine u v)) 0.

Definition squared_callable (a b : arg) : option (ret matrix) :=
  match a, b with
  | Arr1 u, Arr1 v => Some (Dist (squared u v))
  | _, _ => None
  end.

Definition squared_cost_callable (a b : arg) : option (ret matrix) :=
  match a, b with
  | Arr1 u, Arr1 v =>
      Some (DistCost (squared u v)
              (repeat (repeat (squared u v) (length v)) (length u)))
  | _, _ => None
  end.

Definition plain_distance : BaseDistance unit matrix :=
  {| _has_cost_matrix := false;
     _numba_distance := false;
     _cache := true;
     _fastmath := false;
     _has_local_distance := false;
     _independent_distance := fun _ _ _ => Some squared_callable;
     _dependent_distance := None;
     _local_distance := None;
     _result_distance_callback := None;
     _preprocessing_time_series_callback := default_preprocessing unit |}.

Definition cost_distance : BaseDistance unit matrix :=
  {| _has_cost_matrix := true;
     _numba_distance := false;
     _cache := true;
     _fastmath := false;
     _has_local_distance := false;
     _independent_distance := fun _ _ _ => Some squared_cost_callable;
     _dependent_distance := None;
     _local_distance := None;
     _result_distance_callback := None;
     _preprocessing_time_series_callback := default_preprocessing unit |}.

End DistanceScenario.

(* ================================================================== *)
(** * Properties of the machine integers *)
(* ================================================================== *)

Module MachineIntFacts.
Import MachineInt.
Local Open Scope Z_scope.

Lemma wrap_mod (w z : Z) : 0 < w -> wrap w z mod 2 ^ w = z mod 2 ^ w.
Proof.
  intros Hw. unfold wrap.
  assert (Hp : 2 ^ w = 2 * 2 ^ (w - 1)).
  { replace w with (Z.succ (w - 1)) at 1 by lia. apply Z.pow_succ_r. lia. }
  assert (0 < 2 ^ (w - 1)) by (apply Z.pow_pos_nonneg; lia).
  rewrite <- Zminus_mod_idemp_l.
  rewrite Z.mod_mod by lia.
  rewrite Zminus_mod_idemp_l.
  f_equal. lia.
Qed.

Lemma wrap_eq_iff (w a b : Z) :
  0 < w -> (wrap w a = wrap w b <-> a mod 2 ^ w = b mod 2 ^ w).
Proof.
  intros Hw. split; intros H.
  - rewrite <- (wrap_mod w a), <- (wrap_mod w b) by assumption. now rewrite H.
  - unfold wrap.
    assert (Hp : 2 ^ w = 2 * 2 ^ (w - 1)).
    { replace w with (Z.succ (w - 1)) at 1 by lia. apply Z.pow_succ_r. lia. }
    assert (E : (a + 2 ^ (w - 1)) mod 2 ^ w = (b + 2 ^ (w - 1)) mod 2 ^ w).
    { rewrite <- (Zplus_mod_idemp_l a), <- (Zplus_mod_idemp_l b). now rewrite H. }
    now rewrite E.
Qed.

Lemma wrap_range (w z : Z) :
  0 < w -> - 2 ^ (w - 1) <= wrap w z < 2 ^ (w - 1).
Proof.
  intros Hw. unfold wrap.
  assert (Hp : 2 ^ w = 2 * 2 ^ (w - 1)).
  { replace w with (Z.succ (w - 1)) at 1 by lia. apply Z.pow_succ_r. lia. }
  assert (0 < 2 ^ (w - 1)) by (apply Z.pow_pos_nonneg; lia).
  pose proof (Z.mod_pos_bound (z + 2 ^ (w - 1)) (2 ^ w)). lia.
Qed.

Lemma wrap_small (w z : Z) :
  0 < w -> - 2 ^ (w - 1) <= z < 2 ^ (w - 1) -> wrap w z = z.
Proof.
  intros Hw Hz. unfold wrap.
  assert (Hp : 2 ^ w = 2 * 2 ^ (w - 1)).
  { replace w with (Z.succ (w - 1)) at 1 by lia. apply Z.pow_succ_r. lia. }
  rewrite Z.mod_small by lia. lia.
Qed.

(** Bits below [w] survive the reduction to [w] bits. *)
Lemma wrap_testbit (w z i : Z) :
  0 < w -> 0 <= i < w -> Z.testbit (wrap w z) i = Z.testbit z i.
Proof.
  intros Hw Hi.
  rewrite <- (Z.mod_pow2_bits_low (wrap w z) w i) by lia.
  rewrite wrap_mod by assumption.
  apply Z.mod_pow2_bits_low. lia.
Qed.

Lemma mod_pow2_eq_bits (w a b : Z) :
  0 <= w ->
  (forall i, 0 <= i < w -> Z.testbit a i = Z.testbit b i) ->
  a mod 2 ^ w = b mod 2 ^ w.
Proof.
  intros Hw H. apply Z.bits_inj'. intros i Hi.
  destruct (Z_lt_ge_dec i w).
  - rewrite !Z.mod_pow2_bits_low by lia. apply H. lia.
  - rewrite !Z.mod_pow2_bits_high by lia. reflexivity.
Qed.

Lemma int32_int64 (z : Z) : int32 (int64 z) = int32 z.
Proof.
  unfold int32, int64. apply wrap_eq_iff; [lia|].
  apply mod_pow2_eq_bits; [lia|]. intros i Hi.
  apply wrap_testbit; lia.
Qed.

(** The low 32 bits of [(a << k) | b] depend on the low 32 bits of [a] and
    [b] only. *)
Lemma int32_shift_or (a a' b b' k : Z) :
  0 <= k -> int32 a = int32 a' -> int32 b = int32 b' ->
  int32 (Z.lor (Z.shiftl a k) b) = int32 (Z.lor (Z.shiftl a' k) b').
Proof.
  intros Hk Ha Hb. unfold int32 in *.
  apply wrap_eq_iff in Ha; [|lia]. apply wrap_eq_iff in Hb; [|lia].
  apply wrap_eq_iff; [lia|].
  apply mod_pow2_eq_bits; [lia|]. intros i Hi.
  rewrite !Z.lor_spec, !Z.shiftl_spec by lia.
  f_equal.
  - destruct (Z_lt_ge_dec (i - k) 0).
    + rewrite !Z.testbit_neg_r by lia. reflexivity.
    + rewrite <- (Z.mod_pow2_bits_low a 32), <- (Z.mod_pow2_bits_low a' 32) by lia.
      now rewrite Ha.
  - rewrite <- (Z.mod_pow2_bits_low b 32), <- (Z.mod_pow2_bits_low b' 32) by lia.
    now rewrite Hb.
Qed.


End MachineIntFacts.

(* ================================================================== *)
(** * Properties of the encoder *)
(* ================================================================== *)

Module EncoderFacts.
Import MachineInt MachineIntFacts Encoder EncoderSpec.
Local Open Scope Z_scope.

Section Generic.
Variable A : Type.
Variable leb : A -> A -> bool.
Variable inf : A.

Lemma scan_some (v : A) (row : list A) :
  forall k bp, scan A leb v row k = Some bp ->
    (k <= bp)%nat /\ smallest_bin A leb v row (bp - k).
Proof.
  induction row as [|b row IH]; intros k bp H; simpl in H; [discriminate|].
  destruct (leb v b) eqn:E.
  - inversion H; subst. split; [lia|]. rewrite Nat.sub_diag. split.
    + exists b. auto.
    + intros j b' Hj. lia.
  - apply IH in H. destruct H as [Hk [[b' [Hn Hb']] Hmin]]. split; [lia|].
    replace (bp - k)%nat with (S (bp - S k)) by lia. split.
    + exists b'. auto.
    + intros [|j] b'' Hj Hn'; simpl in Hn'.
      * inversion Hn'; subst. assumption.
      * apply (Hmin j); [lia|assumption].
Qed.

Lemma scan_none (v : A) (row : list A) :
  forall k, scan A leb v row k = None -> forall b, In b row -> leb v b = false.
Proof.
  induction row as [|b row IH]; intros k H b' Hin; simpl in *; [contradiction|].
  destruct (leb v b) eqn:E; [discriminate|].
  destruct Hin as [->|Hin]; [assumption|]. eapply IH; eauto.
Qed.

Lemma scan_bound (v : A) (row : list A) :
  forall k bp, scan A leb v row k = Some bp -> (bp < k + length row)%nat.
Proof.
  induction row as [|b row IH]; intros k bp H; simpl in H; [discriminate|].
  destruct (leb v b).
  - inversion H; subst. simpl. lia.
  - apply IH in H. simpl. lia.
Qed.

(** The smallest matching bin is unique, and excludes a miss. *)
Lemma smallest_bin_unique (v : A) (row : list A) (bp bp' : nat) :
  smallest_bin A leb v row bp -> smallest_bin A leb v row bp' -> bp = bp'.
Proof.
  intros [[b [Hn Hb]] Hmin] [[b' [Hn' Hb']] Hmin'].
  destruct (Nat.lt_trichotomy bp bp') as [L|[E|L]]; [|assumption|].
  - rewrite (Hmin' bp b L Hn) in Hb. discriminate.
  - rewrite (Hmin bp' b' L Hn') in Hb'. discriminate.
Qed.

Lemma smallest_bin_not_miss (v : A) (row : list A) (bp : nat) :
  smallest_bin A leb v row bp -> ~ (forall b, In b row -> leb v b = false).
Proof.
  intros [[b [Hn Hb]] _] H. apply nth_error_In in Hn.
  rewrite (H b Hn) in Hb. discriminate.
Qed.

Lemma picks_hits (vector : list A) (table : list (list A)) :
  (length vector <= length table)%nat ->
  picks A leb vector table (hits A leb vector table).
Proof.
  revert table. induction vector as [|v vector IH]; intros [|row table] H;
    simpl in *; try apply picks_nil; try lia.
  destruct (scan A leb v row 0) eqn:E.
  - apply scan_some in E. destruct E as [_ E]. rewrite Nat.sub_0_r in E.
    apply picks_hit; [assumption|]. apply IH. lia.
  - apply picks_miss; [eapply scan_none; eauto|]. apply IH. lia.
Qed.

Lemma picks_functional (vector : list A) (table : list (list A)) (letters : list nat) :
  picks A leb vector table letters -> letters = hits A leb vector table.
Proof.
  induction 1 as [table|v vector row table bp letters Hs _ IH
                 |v vector row table letters Hm _ IH]; simpl.
  - reflexivity.
  - destruct (scan A leb v row 0) eqn:E.
    + apply scan_some in E. destruct E as [_ E]. rewrite Nat.sub_0_r in E.
      f_equal; [eapply smallest_bin_unique; eauto|assumption].
    + exfalso. eapply smallest_bin_not_miss; eauto. eapply scan_none; eauto.
  - destruct (scan A leb v row 0) eqn:E; [|assumption].
    apply scan_some in E. destruct E as [_ E]. rewrite Nat.sub_0_r in E.
    exfalso. eapply smallest_bin_not_miss; eauto.
Qed.

(** [encode] succeeds when the table has a row for every coefficient, and
    its low 32 bits are those of the unbounded shift-and-or. *)
Lemma encode_from (letter_bits : Z) (vector : list A) :
  0 <= letter_bits ->
  forall (table : list (list A)) (word0 acc0 : Z),
    (length vector <= length table)%nat ->
    int32 word0 = int32 acc0 ->
    exists word,
      encode A leb letter_bits vector table word0 = Some word /\
      int32 word =
        int32 (fold_left
                 (fun w bp => Z.lor (Z.shiftl w letter_bits) (Z.of_nat bp))
                 (hits A leb vector table) acc0).
Proof.
  intros Hlb. induction vector as [|v vector IH]; intros [|row table] word0 acc0 Hlen H0;
    simpl in *; try lia.
  - exists word0. auto.
  - exists word0. auto.
  - destruct (scan A leb v row 0) as [bp|]; simpl.
    + apply IH; [lia|]. rewrite int32_int64.
      apply int32_shift_or; auto.
    + apply IH; [lia|assumption].
Qed.

Lemma encode_pack (letter_bits : Z) (vector : list A) (table : list (list A)) :
  0 <= letter_bits ->
  (length vector <= length table)%nat ->
  exists word,
    encode A leb letter_bits vector table 0 = Some word /\
    int32 word = int32 (pack letter_bits (hits A leb vector table)).
Proof.
  intros Hlb Hlen. unfold pack.
  apply encode_from; auto.
Qed.

(** ** Stores into a row *)

Lemma store_some (row : list Z) :
  forall k value, (k < length row)%nat ->
    exists row', store row k value = Some row'.
Proof.
  induction row as [|x row IH]; intros [|k] value H; simpl in *; try lia.
  - eexists; reflexivity.
  - destruct (IH k value) as [r Hr]; [lia|]. rewrite Hr. eexists; reflexivity.
Qed.

Lemma store_length (row : list Z) :
  forall k value row', store row k value = Some row' -> length row' = length row.
Proof.
  induction row as [|x row IH]; intros [|k] value row' H; simpl in *; try discriminate.
  - inversion H; subst. reflexivity.
  - destruct (store row k value) eqn:E; [|discriminate].
    inversion H; subst. simpl. f_equal. eapply IH; eauto.
Qed.

Lemma store_same (row : list Z) :
  forall k value row', store row k value = Some row' ->
    nth_error row' k = Some (int32 value).
Proof.
  induction row as [|x row IH]; intros [|k] value row' H; simpl in *; try discriminate.
  - inversion H; subst. reflexivity.
  - destruct (store row k value) eqn:E; [|discriminate].
    inversion H; subst. simpl. eapply IH; eauto.
Qed.

Lemma store_other (row : list Z) :
  forall k value row' i, store row k value = Some row' -> i <> k ->
    nth_error row' i = nth_error row i.
Proof.
  induction row as [|x row IH]; intros [|k] value row' i H Hi; simpl in *; try discriminate.
  - inversion H; subst. destruct i; [congruence|reflexivity].
  - destruct (store row k value) eqn:E; [|discriminate].
    inversion H; subst. destruct i; [reflexivity|]. simpl. eapply IH; eauto.
Qed.

(** ** The loop over the windows of one instance *)

Section Loop.
Variable table : list (list A).
Variables letter_bits word_bits window_size : Z.
Variable bigrams : bool.
Variable n : nat.
Hypothesis Hlb : 0 <= letter_bits.
Hypothesis HW : 0 <= window_size.

(** After the windows from [k] on have run over [row]: the slots written by
    earlier windows are untouched, window [k + j] left its word at [k + j]
    and, with bigrams, its bigram at [n + (k + j) - window_size]. *)
Lemma windows_loop_inv (vectors : list (list A)) :
  forall (k : nat) (row : list Z),
    (k + length vectors = n)%nat ->
    Z.of_nat (length row) =
      (if bigrams then 2 * Z.of_nat n - window_size else Z.of_nat n) ->
    (bigrams = true -> window_size <= Z.of_nat n) ->
    Forall (fun v => (length v <= length table)%nat) vectors ->
    exists row',
      windows_loop A leb table letter_bits word_bits window_size bigrams
        (Z.of_nat n) (Z.of_nat k) vectors row = Some row' /\
      length row' = length row /\
      (forall i,
          (i < k)%nat \/
          ((n <= i)%nat /\ Z.of_nat i + window_size < Z.of_nat n + Z.of_nat k) ->
          nth_error row' i = nth_error row i) /\
      (forall j v, nth_error vectors j = Some v ->
         exists word,
           encode A leb letter_bits v table 0 = Some word /\
           nth_error row' (k + j) = Some (int32 word) /\
           (bigrams = true -> window_size <= Z.of_nat (k + j) ->
            exists other,
              nth_error row' (Z.to_nat (Z.of_nat (k + j) - window_size)) = Some other /\
              nth_error row' (Z.to_nat (Z.of_nat n + Z.of_nat (k + j) - window_size))
                = Some (int32 (_create_bigram_word word other word_bits)))).
Proof.
  induction vectors as [|v vectors IH]; intros k row Hk Hlen Hbig Hall.
  - exists row. simpl. repeat split; auto.
    intros [|j] v H; discriminate.
  - simpl in Hk.
    assert (Hv : (length v <= length table)%nat) by (inversion Hall; assumption).
    assert (Hvs : Forall (fun v => (length v <= length table)%nat) vectors)
      by (inversion Hall; assumption).
    destruct (encode_pack letter_bits v table Hlb Hv) as [word [Hword _]].
    assert (Hkrow : (k < length row)%nat).
    { destruct bigrams; [specialize (Hbig eq_refl)|]; lia. }
    destruct (store_some row (Z.to_nat (Z.of_nat k)) word) as [row1 H1];
      [lia|].
    assert (L1 : length row1 = length row) by (eapply store_length; eauto).
    (* the state after this window *)
    assert (Hstep : exists row2,
      window_step A leb table letter_bits word_bits window_size bigrams
        (Z.of_nat n) (Z.of_nat k) v row = Some row2 /\
      length row2 = length row /\
      (forall i, i <> k ->
         (bigrams = true -> window_size <= Z.of_nat k ->
            Z.of_nat i <> Z.of_nat n + Z.of_nat k - window_size) ->
         nth_error row2 i = nth_error row i) /\
      nth_error row2 k = Some (int32 word) /\
      (bigrams = true -> window_size <= Z.of_nat k ->
       exists other,
         nth_error row2 (Z.to_nat (Z.of_nat k - window_size)) = Some other /\
         nth_error row2 (Z.to_nat (Z.of_nat n + Z.of_nat k - window_size))
           = Some (int32 (_create_bigram_word word other word_bits)))).
    { unfold window_step. rewrite Hword, H1.
      destruct (bigrams && (0 <=? Z.of_nat k - window_size)) eqn:Eb.
      - apply andb_prop in Eb. destruct Eb as [Eb1 Eb2].
        apply Z.leb_le in Eb2. specialize (Hbig Eb1). rewrite Eb1 in Hlen.
        destruct (nth_error row1 (Z.to_nat (Z.of_nat k - window_size)))
          as [other|] eqn:Eo.
        2:{ apply nth_error_None in Eo. lia. }
        destruct (store_some row1 (Z.to_nat (Z.of_nat n + Z.of_nat k - window_size))
                    (_create_bigram_word word other word_bits)) as [row2 H2];
          [lia|].
        exists row2. split; [exact H2|].
        assert (L2 : length row2 = length row1) by (eapply store_length; eauto).
        split; [lia|]. split; [|split].
        + intros i Hik Hib.
          rewrite (store_other _ _ _ _ i H2) by (specialize (Hib Eb1); lia).
          apply (store_other _ _ _ _ i H1). lia.
        + rewrite (store_other _ _ _ _ k H2) by lia.
          rewrite <- (Nat2Z.id k) at 1. eapply store_same; eauto.
        + intros _ _. exists other. split.
          * rewrite (store_other _ _ _ _ _ H2) by lia. assumption.
          * eapply store_same; eauto.
      - exists row1. split; [reflexivity|]. split; [assumption|].
        split; [|split].
        + intros i Hik _. apply (store_other _ _ _ _ i H1). lia.
        + rewrite <- (Nat2Z.id k) at 1. eapply store_same; eauto.
        + intros Hb Hw. rewrite Hb in Eb. simpl in Eb.
          apply Z.leb_gt in Eb. lia. }
    destruct Hstep as [row2 [Hstep [L2 [Hkeep [Hk2 Hbg2]]]]].
    destruct (IH (S k) row2) as [row' [Hloop [L' [Hpres Hnew]]]];
      [lia|lia|assumption|assumption|].
    exists row'. split; [|split; [|split]].
    + simpl. rewrite Hstep.
      replace (Z.of_nat k + 1) with (Z.of_nat (S k)) by lia. assumption.
    + lia.
    + intros i Hi. rewrite Hpres by lia. apply Hkeep; lia.
    + intros [|j] v' Hj; simpl in Hj.
      * inversion Hj; subst v'. exists word. split; [assumption|].
        rewrite Nat.add_0_r. split.
        { rewrite Hpres by lia. assumption. }
        intros Hb Hw. destruct (Hbg2 Hb Hw) as [other [Ho Hb2]].
        exists other. split; rewrite Hpres by lia; assumption.
      * destruct (Hnew j v' Hj) as [w' [Hw' [Hn' Hb']]].
        exists w'. replace (k + S j)%nat with (S k + j)%nat by lia. auto.
Qed.

End Loop.

(** The row of one instance: every window leaves its word, and with bigrams
    every window from [window_size] on leaves its bigram past the words. *)
Lemma words_row_spec (dfts_a : list (list A)) (table : list (list A))
    (letter_bits word_bits window_size : Z) (bigrams : bool) :
  0 <= letter_bits -> 0 <= window_size ->
  (bigrams = true -> window_size <= Z.of_nat (length dfts_a)) ->
  Forall (fun v => (length v <= length table)%nat) dfts_a ->
  exists row,
    words_row A leb dfts_a table letter_bits word_bits window_size bigrams = Some row /\
    Z.of_nat (length row) =
      (if bigrams then 2 * Z.of_nat (length dfts_a) - window_size
       else Z.of_nat (length dfts_a)) /\
    (forall w v, nth_error dfts_a w = Some v ->
       exists word,
         encode A leb letter_bits v table 0 = Some word /\
         nth_error row w = Some (int32 word) /\
         (bigrams = true -> window_size <= Z.of_nat w ->
          exists other,
            nth_error row (Z.to_nat (Z.of_nat w - window_size)) = Some other /\
            nth_error row
              (Z.to_nat (Z.of_nat (length dfts_a) + Z.of_nat w - window_size))
              = Some (int32 (_create_bigram_word word other word_bits)))).
Proof.
  intros Hlb HW Hbig Hall. unfold words_row, zeros.
  set (n := length dfts_a) in *.
  set (cols := if bigrams then 2 * Z.of_nat n - window_size else Z.of_nat n).
  assert (Hcols : 0 <= cols).
  { unfold cols. destruct bigrams; [specialize (Hbig eq_refl)|]; lia. }
  destruct (cols <? 0) eqn:E; [apply Z.ltb_lt in E; lia|].
  destruct (windows_loop_inv table letter_bits word_bits window_size bigrams n
              Hlb HW dfts_a 0%nat (repeat 0 (Z.to_nat cols)))
    as [row [Hrow [Hlen [_ Hnew]]]]; auto.
  { rewrite repeat_length. fold cols. lia. }
  exists row. split; [exact Hrow|]. split.
  - rewrite Hlen, repeat_length. fold cols. lia.
  - intros w v Hw. destruct (Hnew w v Hw) as [word H]. exists word. exact H.
Qed.

Lemma generate_words_rows (table : list (list A))
    (letter_bits word_bits window_size : Z) (bigrams : bool)
    (P : list (list A) -> list Z -> Prop) (dfts : list (list (list A))) :
  Forall (fun dfts_a => exists row,
            words_row A leb dfts_a table letter_bits word_bits window_size bigrams
              = Some row /\ P dfts_a row) dfts ->
  exists words,
    generate_words A leb dfts table letter_bits word_bits window_size bigrams
      = Some words /\
    Forall2 P dfts words.
Proof.
  induction 1 as [|dfts_a dfts [row [Hrow HP]] _ [words [Hw HF]]]; simpl.
  - exists []. split; [reflexivity|constructor].
  - rewrite Hrow, Hw. exists (row :: words). split; [reflexivity|].
    constructor; assumption.
Qed.

(** ** Packing and unpacking *)

Lemma pack_snoc (letter_bits : Z) (letters : list nat) (x : nat) :
  pack letter_bits (letters ++ [x]) =
  Z.lor (Z.shiftl (pack letter_bits letters) letter_bits) (Z.of_nat x).
Proof. unfold pack. rewrite fold_left_app. reflexivity. Qed.

Lemma small_bits_high (x lb i : Z) :
  0 <= x < 2 ^ lb -> lb <= i -> Z.testbit x i = false.
Proof.
  intros Hx Hi. destruct (Z.eq_dec x 0) as [->|Hne].
  - apply Z.bits_0.
  - apply Z.bits_above_log2; [lia|].
    assert (Z.log2 x < lb); [|lia].
    apply Z.log2_lt_pow2; lia.
Qed.

(** Reading [n] letters back needs only the low [n * letter_bits] bits. *)
Lemma unpack_bits (letter_bits : Z) (letters : list nat) :
  0 <= letter_bits ->
  Forall (fun l => Z.of_nat l < 2 ^ letter_bits) letters ->
  forall z,
    (forall i, 0 <= i < Z.of_nat (length letters) * letter_bits ->
               Z.testbit z i = Z.testbit (pack letter_bits letters) i) ->
    unpack letter_bits (length letters) z = letters.
Proof.
  intros Hlb. induction letters as [|x letters IH] using rev_ind; intros Hall z Hz.
  - reflexivity.
  - apply Forall_app in Hall. destruct Hall as [Hall Hx].
    inversion Hx as [|? ? Hx' _]; subst.
    rewrite length_app in *. simpl length in *.
    replace (length letters + 1)%nat with (S (length letters)) in * by lia.
    simpl unpack. f_equal.
    + apply IH; [assumption|]. intros i Hi.
      rewrite Z.shiftr_spec by lia. rewrite Hz by nia.
      rewrite pack_snoc, Z.lor_spec, Z.shiftl_spec by lia.
      rewrite (small_bits_high (Z.of_nat x) letter_bits) by lia.
      rewrite orb_false_r. f_equal. lia.
    + f_equal.
      assert (E : Z.land z (Z.ones letter_bits) = Z.of_nat x);
        [|rewrite E; apply Nat2Z.id].
      apply Z.bits_inj'. intros i Hi.
      rewrite Z.land_spec, Z.testbit_ones by lia.
      destruct (Z_lt_ge_dec i letter_bits) as [L|G].
      * replace (Z.leb 0 i && Z.ltb i letter_bits) with true
          by (symmetry; apply andb_true_intro; split;
              [apply Z.leb_le|apply Z.ltb_lt]; lia).
        rewrite andb_true_r, Hz by nia.
        rewrite pack_snoc, Z.lor_spec, Z.shiftl_spec by lia.
        rewrite (Z.testbit_neg_r _ (i - letter_bits)) by lia. reflexivity.
      * replace (Z.ltb i letter_bits) with false
          by (symmetry; apply Z.ltb_ge; lia).
        rewrite andb_false_r, andb_false_r.
        symmetry. apply (small_bits_high _ letter_bits); lia.
Qed.

Lemma unpack_int32_pack (letter_bits : Z) (letters : list nat) :
  0 <= letter_bits ->
  Forall (fun l => Z.of_nat l < 2 ^ letter_bits) letters ->
  Z.of_nat (length letters) * letter_bits <= 32 ->
  unpack letter_bits (length letters) (int32 (pack letter_bits letters)) = letters.
Proof.
  intros Hlb Hall Hfit. apply unpack_bits; auto.
  intros i Hi. apply wrap_testbit; lia.
Qed.

Lemma hits_length (vector : list A) (table : list (list A)) :
  Forall2 (fun v row => exists b, In b row /\ leb v b = true) vector table ->
  length (hits A leb vector table) = length vector.
Proof.
  induction 1 as [|v row vector table [b [Hin Hb]] _ IH]; simpl; [reflexivity|].
  destruct (scan A leb v row 0) eqn:E.
  - simpl. now rewrite IH.
  - rewrite (scan_none v row 0 E b Hin) in Hb. discriminate.
Qed.

Lemma hits_bound (bound : nat) (vector : list A) :
  forall table,
    Forall (fun row => (length row <= bound)%nat) table ->
    Forall (fun l => (l < bound)%nat) (hits A leb vector table).
Proof.
  induction vector as [|v vector IH]; intros [|row table] H; simpl; try constructor.
  inversion H as [|? ? Hr Ht]; subst.
  destruct (scan A leb v row 0) eqn:E; [|auto].
  constructor; [|auto]. apply scan_bound in E. lia.
Qed.

End Generic.
End EncoderFacts.

(* ================================================================== *)
(** * Properties of the segmenter *)
(* ================================================================== *)

Module SegmenterFacts.
Import Segmenter.
Local Open Scope Z_scope.

Lemma ceil_div_bounds (a b : Z) :
  0 < b -> (ceil_div a b - 1) * b < a <= ceil_div a b * b.
Proof.
  intros Hb. unfold ceil_div.
  pose proof (Z.mul_div_le (- a) b Hb).
  pose proof (Z.mul_succ_div_gt (- a) b Hb). lia.
Qed.

Lemma linspace_int_multiples (w n : Z) :
  0 <= n ->
  linspace_int w (w * n) n =
    Some (map (fun j => (Z.of_nat j + 1) * w) (seq 0 (Z.to_nat n))).
Proof.
  intros Hn. unfold linspace_int.
  destruct (n <? 0) eqn:E0; [apply Z.ltb_lt in E0; lia|].
  destruct (n =? 0) eqn:E1; [apply Z.eqb_eq in E1; subst; reflexivity|].
  destruct (n =? 1) eqn:E2.
  { apply Z.eqb_eq in E2; subst. change (Z.to_nat 1) with 1%nat.
    cbn [seq map]. f_equal. f_equal. lia. }
  apply Z.eqb_neq in E1, E2. f_equal. apply map_ext. intros j.
  replace (w * n - w) with (w * (n - 1)) by lia.
  rewrite Z.div_mul by lia. lia.
Qed.

Section Slices.
Variable A : Type.

Lemma pyslice_length (x : list A) (a b : Z) :
  0 <= a <= b -> b <= Z.of_nat (length x) ->
  Z.of_nat (length (pyslice A x a b)) = b - a.
Proof.
  intros Hab Hb. unfold pyslice, slice_bound.
  destruct (a <? 0) eqn:Ea; [apply Z.ltb_lt in Ea; lia|].
  destruct (b <? 0) eqn:Eb; [apply Z.ltb_lt in Eb; lia|].
  rewrite length_firstn, length_skipn. lia.
Qed.

Lemma pyslice_nth (x : list A) (a b : Z) (m : nat) :
  0 <= a <= b -> b <= Z.of_nat (length x) -> Z.of_nat m < b - a ->
  nth_error (pyslice A x a b) m = nth_error x (Z.to_nat a + m).
Proof.
  intros Hab Hb Hm. unfold pyslice, slice_bound.
  destruct (a <? 0) eqn:Ea; [apply Z.ltb_lt in Ea; lia|].
  destruct (b <? 0) eqn:Eb; [apply Z.ltb_lt in Eb; lia|].
  rewrite nth_error_firstn.
  destruct (Nat.ltb m (Z.to_nat (Z.min b (Z.of_nat (length x)) - Z.min a (Z.of_nat (length x))))) eqn:E.
  - rewrite nth_error_skipn. f_equal. lia.
  - apply Nat.ltb_ge in E. lia.
Qed.

Lemma pyslice_all (x : list A) (a b : Z) :
  a <= 0 -> a + Z.of_nat (length x) <= 0 \/ a = 0 -> Z.of_nat (length x) <= b ->
  pyslice A x a b = x.
Proof.
  intros Ha Ha' Hb. unfold pyslice, slice_bound.
  assert (Hs : (if a <? 0 then Z.max 0 (a + Z.of_nat (length x))
                else Z.min a (Z.of_nat (length x))) = 0).
  { destruct (a <? 0) eqn:Ea; [apply Z.ltb_lt in Ea|apply Z.ltb_ge in Ea]; lia. }
  rewrite Hs.
  destruct (b <? 0) eqn:Eb; [apply Z.ltb_lt in Eb; lia|].
  simpl. apply firstn_all2. lia.
Qed.

(** Cutting at the multiples of [w]. *)
Lemma split_from_multiples (x : list A) (w : Z) :
  forall (k a : nat),
    split_from A x (Z.of_nat a * w)
      (map (fun j => (Z.of_nat j + 1) * w) (seq a k)) =
    map (fun j => pyslice A x (Z.of_nat j * w) ((Z.of_nat j + 1) * w)) (seq a k)
      ++ [pyslice A x (Z.of_nat (a + k) * w) (Z.of_nat (length x))].
Proof.
  induction k as [|k IH]; intros a; cbn [seq map split_from app].
  - rewrite Nat.add_0_r. reflexivity.
  - f_equal.
    replace ((Z.of_nat a + 1) * w) with (Z.of_nat (S a) * w) by lia.
    rewrite IH. do 3 f_equal. lia.
Qed.

(** The fit-time windows of a series at least one window long:
    [ceil(L / window_size)] of them, window [j] covering
    [x[j * window_size : (j + 1) * window_size]] except the last, which
    covers the final [window_size] samples. *)
Lemma binning_windows_long (x : list A) (window_size : Z) :
  let L := Z.of_nat (length x) in
  let n := ceil_div L window_size in
  1 <= window_size <= L ->
  exists windows,
    binning_windows A x window_size = Some windows /\
    Z.of_nat (length windows) = n /\
    Forall (fun w => Z.of_nat (length w) = window_size) windows /\
    (forall j, (Z.of_nat j < n - 1) ->
       nth_error windows j =
         Some (pyslice A x (Z.of_nat j * window_size)
                 ((Z.of_nat j + 1) * window_size))) /\
    nth_error windows (Z.to_nat (n - 1)) = Some (pyslice A x (L - window_size) L).
Proof.
  intros L n HW.
  pose proof (ceil_div_bounds L window_size ltac:(lia)) as Hn. fold n in Hn.
  assert (Hn1 : 1 <= n) by nia.
  unfold binning_windows. fold L. fold n.
  rewrite linspace_int_multiples by lia.
  unfold np_split.
  change 0 with (Z.of_nat 0 * window_size).
  rewrite split_from_multiples.
  set (body := map (fun j => pyslice A x (Z.of_nat j * window_size)
                                ((Z.of_nat j + 1) * window_size))
                 (seq 0 (Z.to_nat (n - 1)))).
  set (tail := pyslice A x (Z.of_nat (0 + Z.to_nat (n - 1)) * window_size)
                 (Z.of_nat (length x))).
  assert (Hset : set_last A (body ++ [tail]) (pyslice A x (L - window_size) L)
                 = Some (body ++ [pyslice A x (L - window_size) L])).
  { unfold set_last. destruct (body ++ [tail]) eqn:E.
    - destruct body; discriminate.
    - rewrite <- E. rewrite removelast_last. reflexivity. }
  rewrite Hset. eexists. split; [reflexivity|].
  assert (Lb : length body = Z.to_nat (n - 1)).
  { unfold body. rewrite length_map, length_seq. reflexivity. }
  split; [|split; [|split]].
  - rewrite length_app, Lb. simpl. lia.
  - apply Forall_app. split.
    + unfold body. apply Forall_map. apply Forall_forall. intros j Hj.
      apply in_seq in Hj. rewrite pyslice_length; nia.
    + constructor; [|constructor]. rewrite pyslice_length; lia.
  - intros j Hj. rewrite nth_error_app1 by lia.
    unfold body. rewrite nth_error_map, nth_error_seq.
    destruct (Nat.ltb j (Z.to_nat (n - 1))) eqn:E; [reflexivity|].
    apply Nat.ltb_ge in E. lia.
  - rewrite nth_error_app2 by lia. rewrite Lb, Nat.sub_diag. reflexivity.
Qed.

(** A window size of twice the series or more, or of exactly the series
    length, gives one window holding the whole series. *)
Lemma binning_windows_whole (x : list A) (window_size : Z) :
  let L := Z.of_nat (length x) in
  1 <= L -> window_size = L \/ 2 * L <= window_size ->
  binning_windows A x window_size = Some [x].
Proof.
  intros L HL HW.
  assert (Hn : ceil_div L window_size = 1).
  { pose proof (ceil_div_bounds L window_size ltac:(lia)). nia. }
  unfold binning_windows. fold L. rewrite Hn. simpl.
  unfold np_split, split_from, set_last. simpl. f_equal. f_equal.
  apply pyslice_all; lia.
Qed.

(** Between the two, the single window is the tail [x[2L - window_size :]],
    [window_size - L] samples long. *)
Lemma binning_windows_short_tail (x : list A) (window_size : Z) :
  let L := Z.of_nat (length x) in
  L < window_size < 2 * L ->
  binning_windows A x window_size = Some [skipn (Z.to_nat (2 * L - window_size)) x].
Proof.
  intros L HW.
  assert (Hn : ceil_div L window_size = 1).
  { pose proof (ceil_div_bounds L window_size ltac:(lia)). nia. }
  remember (Z.to_nat (2 * L - window_size)) as k eqn:Hk.
  unfold binning_windows. fold L. rewrite Hn. simpl.
  unfold np_split, split_from, set_last. simpl. f_equal. f_equal.
  unfold pyslice, slice_bound. fold L.
  destruct (L - window_size <? 0) eqn:E; [|apply Z.ltb_ge in E; lia].
  destruct (L <? 0) eqn:E2; [apply Z.ltb_lt in E2; lia|].
  replace (Z.to_nat (Z.max 0 (L - window_size + L))) with k by lia.
  apply firstn_all2. rewrite length_skipn. lia.
Qed.

End Slices.
End SegmenterFacts.

(* ================================================================== *)
(** * Properties of the spectral reducer *)
(* ================================================================== *)

Module SpectralFacts.
Import Segmenter SegmenterFacts Spectral SpectralSpec.
Local Open Scope R_scope.

(** ** Interleaved rows *)

Lemma interleave_length (A : Type) (e o : list A) :
  length e = length o -> length (interleave A e o) = (2 * length e)%nat.
Proof.
  revert o. induction e as [|a e IH]; intros [|b o] H; simpl in *;
    try discriminate; [reflexivity|].
  rewrite IH by lia. lia.
Qed.

Lemma evens_interleave (A : Type) (e o : list A) :
  length e = length o -> evens A (interleave A e o) = e.
Proof.
  revert o. induction e as [|a e IH]; intros [|b o] H; simpl in *;
    try discriminate; [reflexivity|].
  f_equal. apply IH. lia.
Qed.

Lemma odds_interleave (A : Type) (e o : list A) :
  length e = length o -> odds A (interleave A e o) = o.
Proof.
  revert o. induction e as [|a e IH]; intros [|b o] H; simpl in *;
    try discriminate; [reflexivity|].
  unfold odds. simpl. f_equal.
  specialize (IH o ltac:(lia)). unfold odds in IH.
  destruct e as [|a' e], o as [|b' o]; simpl in *; try discriminate;
    [reflexivity|]. exact IH.
Qed.

Lemma zip_with_map (A B C D : Type) (f : A -> B -> C) (g : D -> A) (h : D -> B)
    (l : list D) :
  zip_with A B C f (map g l) (map h l) = map (fun i => f (g i) (h i)) l.
Proof. induction l as [|d l IH]; simpl; [reflexivity|]. now rewrite IH. Qed.

Lemma zip_with_length (A B C : Type) (f : A -> B -> C) (l : list A) (r : list B) :
  length (zip_with A B C f l r) = Nat.min (length l) (length r).
Proof.
  revert r. induction l as [|a l IH]; intros [|b r]; simpl; try reflexivity.
  now rewrite IH.
Qed.

Lemma zip_with_nth_error (A B C : Type) (f : A -> B -> C) (l : list A) (r : list B)
    (n : nat) (a : A) (b : B) :
  nth_error l n = Some a -> nth_error r n = Some b ->
  nth_error (zip_with A B C f l r) n = Some (f a b).
Proof.
  revert r n. induction l as [|a' l IH]; intros [|b' r] [|n] Ha Hb; simpl in *;
    try discriminate.
  - inversion Ha; inversion Hb; subst. reflexivity.
  - apply IH; assumption.
Qed.

(** ** Finite sums *)

Lemma rsum_ext (f g : nat -> R) (n : nat) :
  (forall m, (m < n)%nat -> f m = g m) -> rsum f n = rsum g n.
Proof.
  induction n as [|n IH]; intros H; simpl; [reflexivity|].
  rewrite IH by (intros; apply H; lia). rewrite H by lia. reflexivity.
Qed.

Lemma rsum_plus (f g : nat -> R) (n : nat) :
  rsum (fun m => f m + g m) n = rsum f n + rsum g n.
Proof. induction n as [|n IH]; simpl; [lra|]. rewrite IH. lra. Qed.

Lemma rsum_scal (f : nat -> R) (c : R) (n : nat) :
  rsum (fun m => f m * c) n = rsum f n * c.
Proof. induction n as [|n IH]; simpl; [lra|]. rewrite IH. lra. Qed.

(** Moving a sum one index up. *)
Lemma rsum_shift (F : nat -> R) (n : nat) :
  rsum (fun m => F (S m)) n = rsum F n + F n - F 0%nat.
Proof. induction n as [|n IH]; simpl; [lra|]. rewrite IH. lra. Qed.

Lemma sum_rsum (l : list R) :
  sum l = rsum (fun m => nth m l 0) (length l).
Proof.
  induction l as [|a l IH]; [reflexivity|].
  cbn [sum fold_right length rsum]. fold (sum l). rewrite IH.
  pose proof (rsum_shift (fun m => nth m (a :: l) 0) (length l)) as H.
  cbv beta in H. cbn [nth] in H. rewrite H. cbn [nth]. lra.
Qed.

(** ** The shift theorem *)

Section Shift.
Variable f : nat -> R.
Variables W k : nat.
Hypothesis HW : (0 < W)%nat.

Let ang (m : nat) : R := 2 * PI * INR m * INR k / INR W.
Let beta : R := INR k * (2 * PI / INR W).

Lemma INR_W_neq : INR W <> 0.
Proof. apply not_0_INR. lia. Qed.

Lemma ang_succ (m : nat) : ang (S m) - beta = ang m.
Proof. unfold ang, beta. rewrite S_INR. field. apply INR_W_neq. Qed.

Lemma ang_full : ang W - beta = - beta + 2 * INR k * PI.
Proof. unfold ang, beta. field. apply INR_W_neq. Qed.

Lemma ang_zero : ang 0 - beta = - beta.
Proof. unfold ang, beta. simpl. field. apply INR_W_neq. Qed.

Lemma phi_cos : cos (- INR k * (2 * PI / INR W)) = cos beta.
Proof.
  unfold beta. replace (- INR k * (2 * PI / INR W)) with (- (INR k * (2 * PI / INR W)))
    by ring. apply cos_neg.
Qed.

Lemma phi_sin : - sin (- INR k * (2 * PI / INR W)) = sin beta.
Proof.
  unfold beta. replace (- INR k * (2 * PI / INR W)) with (- (INR k * (2 * PI / INR W)))
    by ring. rewrite sin_neg. ring.
Qed.

(** The real part of the next window's bin [k], from the sums of this one. *)
Lemma shift_re :
  rsum (fun m => f (S m) * cos (ang m)) W =
  (rsum (fun m => f m * cos (ang m)) W + f W - f 0%nat)
    * cos (- INR k * (2 * PI / INR W))
  - rsum (fun m => f m * - sin (ang m)) W
    * - sin (- INR k * (2 * PI / INR W)).
Proof.
  rewrite phi_cos, phi_sin.
  rewrite (rsum_ext (fun m => f (S m) * cos (ang m))
             (fun m => f (S m) * cos (ang (S m) - beta)))
    by (intros; now rewrite ang_succ).
  pose proof (rsum_shift (fun j => f j * cos (ang j - beta)) W) as Hs.
  cbv beta in Hs. rewrite Hs. clear Hs.
  rewrite ang_full, ang_zero, cos_period, cos_neg.
  rewrite (rsum_ext (fun m => f m * cos (ang m - beta))
             (fun m => f m * cos (ang m) * cos beta + f m * sin (ang m) * sin beta))
    by (intros; rewrite cos_minus; ring).
  rewrite rsum_plus, !rsum_scal.
  rewrite (rsum_ext (fun m => f m * - sin (ang m))
             (fun m => f m * sin (ang m) * -1)) by (intros; ring).
  rewrite rsum_scal. ring.
Qed.

(** The imaginary part of the next window's bin [k]. *)
Lemma shift_im :
  rsum (fun m => f (S m) * - sin (ang m)) W =
  (rsum (fun m => f m * cos (ang m)) W + f W - f 0%nat)
    * - sin (- INR k * (2 * PI / INR W))
  + cos (- INR k * (2 * PI / INR W))
    * rsum (fun m => f m * - sin (ang m)) W.
Proof.
  rewrite phi_cos, phi_sin.
  rewrite (rsum_ext (fun m => f (S m) * - sin (ang m))
             (fun m => f (S m) * - sin (ang (S m) - beta)))
    by (intros; now rewrite ang_succ).
  pose proof (rsum_shift (fun j => f j * - sin (ang j - beta)) W) as Hs.
  cbv beta in Hs. rewrite Hs. clear Hs.
  rewrite ang_full, ang_zero, sin_period, sin_neg.
  rewrite (rsum_ext (fun m => f m * - sin (ang m - beta))
             (fun m => f m * sin (ang m) * - cos beta + f m * cos (ang m) * sin beta))
    by (intros; rewrite sin_minus; ring).
  rewrite rsum_plus, !rsum_scal.
  rewrite (rsum_ext (fun m => f m * - sin (ang m))
             (fun m => f m * sin (ang m) * -1)) by (intros; ring).
  rewrite rsum_scal. ring.
Qed.

End Shift.

(** ** Sliding windows *)

Lemma window_length (x : list R) (W w : nat) :
  (w + W <= length x)%nat -> length (window x W w) = W.
Proof.
  intros H. unfold window.
  pose proof (pyslice_length R x (Z.of_nat w) (Z.of_nat (w + W))) as P.
  lia.
Qed.

Lemma window_nth (x : list R) (W w m : nat) :
  (w + W <= length x)%nat -> (m < W)%nat ->
  nth m (window x W w) 0 = nth (w + m) x 0.
Proof.
  intros H Hm. unfold window.
  pose proof (pyslice_nth R x (Z.of_nat w) (Z.of_nat (w + W)) m) as P.
  rewrite Nat2Z.id in P. specialize (P ltac:(lia) ltac:(lia) ltac:(lia)).
  rewrite (nth_error_nth' x 0) in P by lia.
  now apply nth_error_nth.
Qed.

Lemma window_0 (x : list R) (W : nat) :
  window x W 0 = pyslice R x 0 (Z.of_nat W).
Proof. reflexivity. Qed.

Lemma rfft_re_window (x : list R) (W w k : nat) :
  (w + W <= length x)%nat ->
  rfft_re (window x W w) k =
  rsum (fun m => nth (w + m) x 0 * cos (2 * PI * INR m * INR k / INR W)) W.
Proof.
  intros H. unfold rfft_re. rewrite window_length by assumption.
  apply rsum_ext. intros m Hm. now rewrite window_nth.
Qed.

Lemma rfft_im_window (x : list R) (W w k : nat) :
  (w + W <= length x)%nat ->
  rfft_im (window x W w) k =
  rsum (fun m => nth (w + m) x 0 * - sin (2 * PI * INR m * INR k / INR W)) W.
Proof.
  intros H. unfold rfft_im. rewrite window_length by assumption.
  apply rsum_ext. intros m Hm. now rewrite window_nth.
Qed.

Lemma div2_succ_double (h : nat) : Nat.div2 (S (2 * h)) = h.
Proof. apply Nat.div2_succ_double. Qed.

Lemma double_div2 (h : nat) : (2 * h / 2 = h)%nat.
Proof. rewrite Nat.mul_comm. apply Nat.div_mul. lia. Qed.

Lemma assign_cols_same (src : list R) : assign_cols (length src) src = Some src.
Proof. unfold assign_cols. now rewrite Nat.eqb_refl. Qed.

(** The phase table of an even number of columns. *)
Lemma get_phis_even (W half : nat) :
  _get_phis W (2 * half) =
  Some (interleave R
          (map (fun i => cos (- INR i * (2 * PI / INR W))) (seq 0 half))
          (map (fun i => - sin (- INR i * (2 * PI / INR W))) (seq 0 half))).
Proof.
  unfold _get_phis. rewrite div2_succ_double, double_div2.
  set (c := map _ (seq 0 half)). set (s := map _ (seq 0 half)).
  assert (Lc : length c = half) by (unfold c; now rewrite length_map, length_seq).
  assert (Ls : length s = half) by (unfold s; now rewrite length_map, length_seq).
  rewrite <- Lc at 1. rewrite assign_cols_same.
  rewrite <- Ls at 1. rewrite assign_cols_same. reflexivity.
Qed.

(** One update of the loop turns the spectrum of window [w] into the
    spectrum of window [w + 1]. *)
Lemma mft_step_spectrum (x : list R) (W w half : nat) (phis : list R) :
  (0 < W)%nat -> (S w + W <= length x)%nat ->
  _get_phis W (2 * half) = Some phis ->
  mft_step (spectrum (window x W w) half) phis
    (nth (S w + W - 1) x 0) (nth (S w - 1) x 0)
  = spectrum (window x W (S w)) half.
Proof.
  intros HW Hw Hphis. rewrite get_phis_even in Hphis.
  inversion Hphis as [Hp]. clear Hphis Hp.
  unfold mft_step, spectrum.
  rewrite !evens_interleave, !odds_interleave
    by (now rewrite !length_map).
  rewrite map_map, !zip_with_map.
  f_equal; apply map_ext; intros k.
  - rewrite (rfft_re_window x W (S w)), (rfft_re_window x W w),
      (rfft_im_window x W w) by lia.
    rewrite (rsum_ext (fun m => nth (S w + m) x 0 * cos (2 * PI * INR m * INR k / INR W))
               (fun m => nth (w + S m) x 0 * cos (2 * PI * INR m * INR k / INR W)))
      by (intros; do 2 f_equal; lia).
    rewrite (shift_re (fun m => nth (w + m) x 0) W k HW).
    replace (S w + W - 1)%nat with (w + W)%nat by lia.
    replace (S w - 1)%nat with (w + 0)%nat by lia.
    reflexivity.
  - rewrite (rfft_im_window x W (S w)), (rfft_re_window x W w),
      (rfft_im_window x W w) by lia.
    rewrite (rsum_ext (fun m => nth (S w + m) x 0 * - sin (2 * PI * INR m * INR k / INR W))
               (fun m => nth (w + S m) x 0 * - sin (2 * PI * INR m * INR k / INR W)))
      by (intros; do 2 f_equal; lia).
    rewrite (shift_im (fun m => nth (w + m) x 0) W k HW).
    replace (S w + W - 1)%nat with (w + W)%nat by lia.
    replace (S w - 1)%nat with (w + 0)%nat by lia.
    reflexivity.
Qed.

(** ** Boolean selections *)

Lemma bool_select_all (A : Type) (l : list A) (n : nat) :
  (length l <= n)%nat -> bool_select A (repeat true n) l = l.
Proof.
  revert n. induction l as [|a l IH]; intros [|n] H; simpl in *;
    try reflexivity; try lia.
  f_equal. apply IH. lia.
Qed.

Lemma bool_select_map (A B : Type) (f : A -> B) (p : list bool) (l : list A) :
  bool_select B p (map f l) = map f (bool_select A p l).
Proof.
  revert l. induction p as [|b p IH]; intros [|a l]; simpl; try reflexivity.
  destruct b; simpl; now rewrite IH.
Qed.

Lemma bool_select_zip_with (A B C : Type) (f : A -> B -> C) (p : list bool)
    (l : list A) (r : list B) :
  length l = length r ->
  bool_select C p (zip_with A B C f l r)
  = zip_with A B C f (bool_select A p l) (bool_select B p r).
Proof.
  revert l r. induction p as [|b p IH]; intros [|a l] [|c r] H; simpl in *;
    try reflexivity; try discriminate.
  destruct b; simpl; rewrite IH by lia; reflexivity.
Qed.

Lemma bool_select_length_eq (A B : Type) (p : list bool) (l : list A) (r : list B) :
  length l = length r ->
  length (bool_select A p l) = length (bool_select B p r).
Proof.
  revert l r. induction p as [|b p IH]; intros [|a l] [|c r] H; simpl in *;
    try reflexivity; try discriminate.
  destruct b; simpl; rewrite (IH l r) by lia; reflexivity.
Qed.

Lemma bool_select_dup_interleave (A : Type) (p : list bool) (e o : list A) :
  length e = length o ->
  bool_select A (dup p) (interleave A e o)
  = interleave A (bool_select A p e) (bool_select A p o).
Proof.
  revert e o. induction p as [|b p IH]; intros [|a e] [|c o] H; simpl in *;
    try reflexivity; try discriminate.
  destruct b; simpl; rewrite IH by lia; reflexivity.
Qed.

(** Selecting whole coefficient pairs commutes with the update. *)
Lemma mft_step_select (p : list bool) (e o c s : list R) (x_in x_out : R) :
  length e = length o -> length c = length e -> length s = length e ->
  mft_step (bool_select R (dup p) (interleave R e o))
    (bool_select R (dup p) (interleave R c s)) x_in x_out
  = bool_select R (dup p) (mft_step (interleave R e o) (interleave R c s) x_in x_out).
Proof.
  intros Heo Hc Hs. unfold mft_step.
  rewrite !bool_select_dup_interleave by lia.
  rewrite !evens_interleave, !odds_interleave
    by (try lia; apply bool_select_length_eq; lia).
  rewrite bool_select_dup_interleave
    by (rewrite !zip_with_length, !length_map; lia).
  rewrite !bool_select_zip_with
    by (rewrite ?zip_with_length, ?length_map; lia).
  now rewrite bool_select_map.
Qed.

Lemma spectrum_parts_length (a : list R) (half : nat) :
  length (map (rfft_re a) (seq 0 half)) = half /\
  length (map (rfft_im a) (seq 0 half)) = half.
Proof. now rewrite !length_map, !length_seq. Qed.

(** The rows of the loop are the selected spectra of the windows. *)
Lemma mft_loop_spectrum (x : list R) (W half : nat) (p : list bool) (phis : list R) :
  (0 < W)%nat ->
  _get_phis W (2 * half) = Some phis ->
  forall (n i : nat),
    (i + n + W <= length x)%nat ->
    mft_loop x W (bool_select R (dup p) phis) (seq (S i) n)
      (bool_select R (dup p) (spectrum (window x W i) half))
    = map (fun j => bool_select R (dup p) (spectrum (window x W j) half))
        (seq (S i) n).
Proof.
  intros HW Hphis. induction n as [|n IH]; intros i Hi; [reflexivity|].
  cbn [seq mft_loop map].
  assert (Hstep :
    mft_step (bool_select R (dup p) (spectrum (window x W i) half))
      (bool_select R (dup p) phis) (nth (S i + W - 1) x 0) (nth (S i - 1) x 0)
    = bool_select R (dup p) (spectrum (window x W (S i)) half)).
  { rewrite <- (mft_step_spectrum x W i half phis HW ltac:(lia) Hphis).
    pose proof Hphis as Hp. rewrite get_phis_even in Hp.
    inversion Hp as [Hp']. unfold spectrum.
    apply mft_step_select; rewrite !length_map, !length_seq; reflexivity. }
  rewrite Hstep. f_equal. apply IH. lia.
Qed.

(** ** Marking the support *)

Lemma set_true_some (l : list bool) :
  forall s, (s < length l)%nat -> exists l', set_true l s = Some l'.
Proof.
  induction l as [|b l IH]; intros [|s] H; simpl in *; try lia.
  - eexists; reflexivity.
  - destruct (IH s) as [l' Hl']; [lia|]. rewrite Hl'. eexists; reflexivity.
Qed.

Lemma set_true_length (l : list bool) :
  forall s l', set_true l s = Some l' -> length l' = length l.
Proof.
  induction l as [|b l IH]; intros [|s] l' H; simpl in *; try discriminate.
  - inversion H; subst. reflexivity.
  - destruct (set_true l s) eqn:E; [|discriminate]. inversion H; subst.
    simpl. f_equal. eapply IH; eauto.
Qed.

Lemma set_true_nth (l : list bool) :
  forall s l' j, set_true l s = Some l' ->
    nth j l' false = if Nat.eqb j s then true else nth j l false.
Proof.
  induction l as [|b l IH]; intros [|s] l' j H; simpl in *; try discriminate.
  - inversion H; subst. destruct j; reflexivity.
  - destruct (set_true l s) eqn:E; [|discriminate]. inversion H; subst.
    destruct j; [reflexivity|]. simpl. eapply IH; eauto.
Qed.

Lemma dup_length (p : list bool) : length (dup p) = (2 * length p)%nat.
Proof. induction p as [|b p IH]; simpl; [reflexivity|]. rewrite IH. lia. Qed.

Lemma dup_repeat (b : bool) (n : nat) : dup (repeat b n) = repeat b (2 * n).
Proof.
  induction n as [|n IH]; [reflexivity|].
  replace (2 * S n)%nat with (S (S (2 * n))) by lia. simpl. now rewrite IH.
Qed.

(** Marking a column and its partner marks a whole pair. *)
Lemma set_true_pair (p : list bool) :
  forall s, (s < 2 * length p)%nat ->
    exists l1 p1,
      set_true (dup p) s = Some l1 /\
      set_true l1 (if Nat.even s then s + 1 else s - 1)%nat = Some (dup p1) /\
      length p1 = length p.
Proof.
  induction p as [|b p IH]; intros s Hs; simpl in Hs; [lia|].
  destruct s as [|[|s]].
  - exists (true :: b :: dup p), (true :: p). simpl. auto.
  - exists (b :: true :: dup p), (true :: p). simpl. auto.
  - destruct (IH s) as [l1 [p1 [H1 [H2 Hl]]]]; [lia|].
    exists (b :: b :: l1), (b :: p1). cbn [dup set_true]. rewrite H1.
    split; [reflexivity|]. split; [|simpl; lia].
    rewrite Nat.even_succ_succ.
    destruct (Nat.even s) eqn:E.
    + replace (S (S s) + 1)%nat with (S (S (s + 1))) by lia.
      cbn [set_true]. rewrite H2. reflexivity.
    + destruct s as [|s']; [discriminate|].
      replace (S (S (S s')) - 1)%nat with (S (S (S s' - 1))) by lia.
      cbn [set_true]. rewrite H2. reflexivity.
Qed.

Lemma partner_bound (s h : nat) :
  (s < 2 * h)%nat -> ((if Nat.even s then s + 1 else s - 1) < 2 * h)%nat.
Proof.
  intros H. destruct (Nat.even s) eqn:E; [|lia].
  apply Nat.even_spec in E. destruct E as [k ->]. lia.
Qed.

(** The loop over the support keeps whole pairs in [indices], marks in
    [mask] exactly the support, and every column of [mask] is one of
    [indices]. *)
Lemma mark_support_spec (half : nat) (support : list nat) :
  forall (p : list bool) (mask : list bool),
    length p = half -> length mask = (2 * half)%nat ->
    Forall (fun s => (s < 2 * half)%nat) support ->
    (forall j, nth j mask false = true -> nth j (dup p) false = true) ->
    exists p' mask',
      mark_support support (dup p) mask = Some (dup p', mask') /\
      length p' = half /\ length mask' = (2 * half)%nat /\
      (forall j, nth j mask' false = true -> nth j (dup p') false = true) /\
      (forall j, nth j mask' false = true <->
                 nth j mask false = true \/ In j support).
Proof.
  induction support as [|s support IH]; intros p mask Hp Hm Hall Himp.
  - exists p, mask. simpl. repeat split; auto. intros [H|[]]; assumption.
  - assert (Hs : (s < 2 * half)%nat) by (inversion Hall; assumption).
    assert (Hrest : Forall (fun s => (s < 2 * half)%nat) support)
      by (inversion Hall; assumption).
    destruct (set_true_pair p s ltac:(lia)) as [l1 [p1 [H1 [H2 Hl1]]]].
    destruct (set_true_some mask s ltac:(lia)) as [mask1 Hm1].
    assert (Himp1 : forall j, nth j mask1 false = true -> nth j (dup p1) false = true).
    { intros j Hj. rewrite (set_true_nth _ _ _ j Hm1) in Hj.
      rewrite (set_true_nth _ _ _ j H2), (set_true_nth _ _ _ j H1).
      destruct (Nat.eqb j s); [now destruct (Nat.eqb j _)|].
      rewrite (Himp j Hj). now destruct (Nat.eqb j _). }
    destruct (IH p1 mask1) as [p' [mask' [Hmk [Hp' [Hm' [Himp' Hiff]]]]]];
      [lia|rewrite (set_true_length _ _ _ Hm1); assumption|assumption|assumption|].
    exists p', mask'. cbn [mark_support]. rewrite H1, Hm1, H2.
    split; [exact Hmk|]. repeat split; auto.
    + intros Hj. apply Hiff in Hj. destruct Hj as [Hj|Hj]; [|right; now right].
      rewrite (set_true_nth _ _ _ j Hm1) in Hj.
      destruct (Nat.eqb j s) eqn:E; [|now left].
      apply Nat.eqb_eq in E. right. left. congruence.
    + intros Hj. apply Hiff. rewrite (set_true_nth _ _ _ j Hm1).
      destruct Hj as [Hj|[Hj|Hj]].
      * left. rewrite Hj. now destruct (Nat.eqb j s).
      * left. subst j. now rewrite Nat.eqb_refl.
      * now right.
Qed.

(** Selecting within a selection. *)
Lemma bool_select_twice (A : Type) (ind mask : list bool) (l : list A) :
  length mask = length ind ->
  (forall j, nth j mask false = true -> nth j ind false = true) ->
  bool_select A (bool_select bool ind mask) (bool_select A ind l)
  = bool_select A mask l.
Proof.
  revert mask l. induction ind as [|i ind IH]; intros [|m mask] [|a l] Hlen Himp;
    simpl in *; try reflexivity; try discriminate.
  - destruct i, m; simpl; try reflexivity;
      destruct (bool_select bool ind mask); reflexivity.
  - assert (Himp' : forall j, nth j mask false = true -> nth j ind false = true)
      by (intros j Hj; apply (Himp (S j) Hj)).
    destruct i, m; simpl; try (rewrite IH by (auto; lia); reflexivity).
    specialize (Himp 0%nat eq_refl). discriminate.
Qed.

(** A mask that marks a strictly increasing list of columns selects exactly
    those columns, in order. *)
Lemma bool_select_support (A : Type) (d : A) (l : list A) :
  forall (mask : list bool) (supp : list nat) (off : nat),
    length mask = length l ->
    StronglySorted lt supp ->
    Forall (fun s => (off <= s)%nat) supp ->
    (forall j, nth j mask false = true <-> In (off + j)%nat supp) ->
    bool_select A mask l = map (fun s => nth (s - off) l d) supp.
Proof.
  induction l as [|a l IH]; intros [|b mask] supp off Hlen Hsort Hge Hiff;
    simpl in Hlen; try discriminate.
  - destruct supp as [|s supp]; [reflexivity|].
    assert (H : nth (s - off) (@nil bool) false = true).
    { apply Hiff. replace (off + (s - off))%nat with s; [now left|].
      inversion Hge; lia. }
    destruct (s - off)%nat; discriminate.
  - assert (Htail : forall supp',
        StronglySorted lt supp' -> Forall (fun s => (S off <= s)%nat) supp' ->
        (forall j, nth j mask false = true <-> In (S off + j)%nat supp') ->
        bool_select A mask l = map (fun s => nth (s - off) (a :: l) d) supp').
    { intros supp' Hs' Hge' Hiff'.
      rewrite (IH mask supp' (S off)); auto.
      apply map_ext_in. intros s Hs. rewrite Forall_forall in Hge'.
      specialize (Hge' s Hs). replace (s - off)%nat with (S (s - S off)) by lia.
      reflexivity. }
    destruct b.
    + (* column [off] is marked: it heads the support *)
      assert (H0 : In off supp).
      { specialize (Hiff 0%nat). rewrite Nat.add_0_r in Hiff. now apply Hiff. }
      destruct supp as [|h rest]; [contradiction|].
      apply StronglySorted_inv in Hsort. destruct Hsort as [Hsr Hlt].
      assert (h = off).
      { destruct H0 as [->|H0]; [reflexivity|].
        rewrite Forall_forall in Hlt. specialize (Hlt off H0).
        inversion Hge; lia. }
      subst h. cbn [bool_select map]. rewrite Nat.sub_diag. cbn [nth].
      f_equal. apply Htail; [assumption| |].
      * eapply Forall_impl; [|exact Hlt]. simpl. intros; lia.
      * intros j. specialize (Hiff (S j)). cbn [nth] in Hiff.
        replace (off + S j)%nat with (S off + j)%nat in Hiff by lia.
        rewrite Hiff. split; [|now right].
        intros [E|E]; [lia|assumption].
    + cbn [bool_select]. apply Htail; [assumption| |].
      * rewrite Forall_forall in *. intros s Hs. specialize (Hge s Hs).
        destruct (Nat.eq_dec s off) as [->|]; [|lia].
        specialize (Hiff 0%nat). rewrite Nat.add_0_r in Hiff.
        apply Hiff in Hs. discriminate.
      * intros j. specialize (Hiff (S j)). cbn [nth] in Hiff.
        replace (off + S j)%nat with (S off + j)%nat in Hiff by lia.
        exact Hiff.
Qed.

(** ** The standard deviation of a window *)

Lemma sum_sq_dev (c : R) (l : list R) :
  sum (map (fun v => (v - c) * (v - c)) l)
  = sum (map (fun v => v * v) l) - 2 * c * sum l + INR (length l) * c * c.
Proof.
  induction l as [|a l IH]; [simpl; lra|].
  cbn [map sum fold_right length]. fold (sum (map (fun v => (v - c) * (v - c)) l)).
  fold (sum (map (fun v => v * v) l)). fold (sum l).
  rewrite IH, S_INR. ring.
Qed.

Lemma zip_with_self (l : list R) :
  zip_with R R R Rmult l l = map (fun v => v * v) l.
Proof. induction l as [|a l IH]; simpl; [reflexivity|]. now rewrite IH. Qed.

Lemma clamp_forms (s : R) :
  (if Rlt_dec s 1e-8 then 1e-8 else s) = (if Rgt_dec s 1e-8 then s else 1e-8).
Proof. destruct (Rlt_dec s 1e-8), (Rgt_dec s 1e-8); lra. Qed.

(** The incremental formula gives [np.std], floor included. *)
Lemma std_of_sums_np_std (l : list R) :
  (0 < length l)%nat ->
  std_of_sums (sum l) (sum (map (fun v => v * v) l)) (1 / INR (length l))
  = (if Rlt_dec (np_std l) 1e-8 then 1e-8 else np_std l).
Proof.
  intros Hl. unfold std_of_sums. cbv zeta. rewrite clamp_forms.
  assert (E : sum (map (fun v => v * v) l) * (1 / INR (length l))
              - sum l * (1 / INR (length l)) * (sum l * (1 / INR (length l)))
              = mean (map (fun v => (v - mean l) * (v - mean l)) l)).
  { unfold mean at 1. rewrite length_map, sum_sq_dev. unfold mean.
    field. apply not_0_INR. lia. }
  rewrite E. reflexivity.
Qed.

Lemma sum_window (x : list R) (W w : nat) :
  (w + W <= length x)%nat ->
  sum (window x W w) = rsum (fun m => nth (w + m) x 0) W.
Proof.
  intros H. rewrite sum_rsum, window_length by assumption.
  apply rsum_ext. intros m Hm. now apply window_nth.
Qed.

Lemma sum_sq_window (x : list R) (W w : nat) :
  (w + W <= length x)%nat ->
  sum (map (fun v => v * v) (window x W w))
  = rsum (fun m => nth (w + m) x 0 * nth (w + m) x 0) W.
Proof.
  intros H. rewrite sum_rsum, length_map, window_length by assumption.
  apply rsum_ext. intros m Hm.
  transitivity (nth m (map (fun v => v * v) (window x W w)) ((fun v => v * v) 0)).
  - apply nth_indep. rewrite length_map, window_length; assumption.
  - rewrite (map_nth (fun v => v * v)). now rewrite window_nth.
Qed.

Lemma sum_window_step (x : list R) (W w : nat) :
  (S w + W <= length x)%nat ->
  sum (window x W (S w))
  = sum (window x W w) + (nth (S w + W - 1) x 0 - nth (S w - 1) x 0).
Proof.
  intros H. rewrite !sum_window by lia.
  pose proof (rsum_shift (fun m => nth (w + m) x 0) W) as Hs. cbv beta in Hs.
  rewrite (rsum_ext (fun m => nth (S w + m) x 0) (fun m => nth (w + S m) x 0))
    by (intros; f_equal; lia).
  rewrite Hs. replace (S w + W - 1)%nat with (w + W)%nat by lia.
  replace (S w - 1)%nat with (w + 0)%nat by lia. ring.
Qed.

Lemma sum_sq_window_step (x : list R) (W w : nat) :
  (S w + W <= length x)%nat ->
  sum (map (fun v => v * v) (window x W (S w)))
  = sum (map (fun v => v * v) (window x W w))
    + (nth (S w + W - 1) x 0 * nth (S w + W - 1) x 0
       - nth (S w - 1) x 0 * nth (S w - 1) x 0).
Proof.
  intros H. rewrite !sum_sq_window by lia.
  pose proof (rsum_shift (fun m => nth (w + m) x 0 * nth (w + m) x 0) W) as Hs.
  cbv beta in Hs.
  rewrite (rsum_ext (fun m => nth (S w + m) x 0 * nth (S w + m) x 0)
             (fun m => nth (w + S m) x 0 * nth (w + S m) x 0))
    by (intros; do 2 f_equal; lia).
  rewrite Hs. replace (S w + W - 1)%nat with (w + W)%nat by lia.
  replace (S w - 1)%nat with (w + 0)%nat by lia. ring.
Qed.

Lemma std_loop_spec (x : list R) (W : nat) :
  forall (n i : nat),
    (i + n + W <= length x)%nat ->
    std_loop x W (seq (S i) n) (sum (window x W i))
      (sum (map (fun v => v * v) (window x W i)))
    = map (fun j => std_of_sums (sum (window x W j))
                      (sum (map (fun v => v * v) (window x W j))) (1 / INR W))
        (seq (S i) n).
Proof.
  induction n as [|n IH]; intros i Hi; [reflexivity|].
  cbn [seq std_loop map].
  rewrite <- sum_window_step, <- sum_sq_window_step by lia.
  f_equal. apply IH. lia.
Qed.

(** The incremental standard deviations are the windows' own. *)
Lemma calc_incremental_mean_std_spec (x : list R) (end_ W : nat) :
  (0 < W)%nat -> (0 < end_)%nat -> (end_ + W <= S (length x))%nat ->
  _calc_incremental_mean_std x end_ W
  = map (fun j => if Rlt_dec (np_std (window x W j)) 1e-8 then 1e-8
                  else np_std (window x W j)) (seq 0 end_).
Proof.
  intros HW He Hfit. unfold _calc_incremental_mean_std.
  rewrite <- window_0, zip_with_self.
  rewrite (std_loop_spec x W (end_ - 1) 0) by lia.
  replace (seq 0 end_) with (0%nat :: seq 1 (end_ - 1))
    by (destruct end_; [lia|]; simpl; now rewrite Nat.sub_0_r).
  cbn [map]. f_equal.
  - rewrite <- (window_length x W 0) at 3 by lia.
    apply std_of_sums_np_std. rewrite window_length; lia.
  - apply map_ext_in. intros j Hj. apply in_seq in Hj.
    rewrite <- (window_length x W j) at 3 by lia.
    apply std_of_sums_np_std. rewrite window_length; lia.
Qed.

(** ** The rows of [_fast_fourier_transform] and of [_mft] *)

Lemma firstn_seq (n a len : nat) :
  firstn n (seq a len) = seq a (Nat.min n len).
Proof.
  revert a len. induction n as [|n IH]; intros a [|len]; simpl; try reflexivity.
  now rewrite IH.
Qed.

Lemma first_bins (a : list R) (half : nat) :
  (half <= length a / 2 + 1)%nat ->
  firstn half (rfft_reals a) = map (rfft_re a) (seq 0 half) /\
  firstn half (rfft_imags a) = map (rfft_im a) (seq 0 half).
Proof.
  intros H. unfold rfft_reals, rfft_imags.
  rewrite !firstn_map, firstn_seq, Nat.min_l by assumption. auto.
Qed.

(** The unscaled row both transforms start from. *)
Lemma assign_spectrum (a : list R) (half : nat) :
  (half <= length a / 2 + 1)%nat ->
  assign_cols (Nat.div2 (S (2 * half))) (firstn (2 * half / 2) (rfft_reals a))
    = Some (map (rfft_re a) (seq 0 half)) /\
  assign_cols (2 * half / 2) (firstn (2 * half / 2) (rfft_imags a))
    = Some (map (rfft_im a) (seq 0 half)).
Proof.
  intros H. rewrite div2_succ_double, double_div2.
  destruct (first_bins a half H) as [-> ->].
  destruct (spectrum_parts_length a half) as [Lr Li].
  split.
  - rewrite <- Lr at 1. apply assign_cols_same.
  - rewrite <- Li at 1. apply assign_cols_same.
Qed.

(** [_fast_fourier_transform] on one window, for an even [dft_length]. *)
Lemma fft_row_spectrum (a : list R) (norm : bool) (h0 : nat) (inv : R) :
  let off := if norm then 2%nat else 0%nat in
  let half := (h0 + (if norm then 1 else 0))%nat in
  (half <= length a / 2 + 1)%nat ->
  fft_row a norm (2 * h0) inv =
  Some (skipn off
          (map (fun v => v / (if Rlt_dec (np_std a) 1e-8 then 1e-8 else np_std a)
                         * inv)
             (spectrum a half))).
Proof.
  intros off half H. unfold fft_row. fold off.
  replace (off + 2 * h0)%nat with (2 * half)%nat
    by (unfold off, half; destruct norm; lia).
  destruct (assign_spectrum a half H) as [-> ->]. reflexivity.
Qed.

Lemma mft_end_nat (L W : nat) :
  (W <= L)%nat ->
  Z.to_nat (mft_end (Z.of_nat L) (Z.of_nat W)) = (L - W + 1)%nat.
Proof. intros H. unfold mft_end. lia. Qed.

(** What [_mft] returns for one series at least one window long: row [w] is
    the spectrum of window [w], scaled and divided by the window's standard
    deviation, cut to the columns asked for. *)
Lemma mft_series_rows (x : list R) (W h0 : nat) (norm : bool)
    (support : list nat) (anova variance : bool) (inv : R) :
  let off := if norm then 2%nat else 0%nat in
  let half := (h0 + (if norm then 1 else 0))%nat in
  let std := fun w => if Rlt_dec (np_std (window x W w)) 1e-8 then 1e-8
                      else np_std (window x W w) in
  let scaled := fun w => map (fun v => v * inv / std w) (spectrum (window x W w) half) in
  (0 < W)%nat -> (W <= length x)%nat ->
  (half <= W / 2 + 1)%nat ->
  (anova || variance = true ->
   StronglySorted lt support /\ Forall (fun s => (s < 2 * h0)%nat) support) ->
  mft_series x W (2 * h0) norm support anova variance inv =
  Some (map (fun w =>
               if anova || variance
               then map (fun s => nth (s + off) (scaled w) 0) support
               else skipn off (scaled w))
          (seq 0 (length x - W + 1))).
Proof.
  intros off half std scaled HW HL Hhalf Hsel.
  unfold mft_series. fold off.
  assert (Hmod : ((2 * h0) mod 2 = 0)%nat)
    by (rewrite Nat.mul_comm; apply Nat.Div0.mod_mul).
  rewrite Hmod, Nat.add_0_r, mft_end_nat by assumption.
  replace (2 * h0 + off)%nat with (2 * half)%nat
    by (unfold off, half; destruct norm; lia).
  set (end_ := (length x - W + 1)%nat).
  assert (Hw0 : length (window x W 0) = W) by (apply window_length; lia).
  rewrite <- window_0.
  destruct (assign_spectrum (window x W 0) half) as [Hre Him];
    [rewrite Hw0; assumption|].
  (* the loop, for a selection of whole pairs *)
  assert (Hrows : forall p phis,
    _get_phis W (2 * half) = Some phis ->
    bool_select R (dup p) (spectrum (window x W 0) half)
      :: mft_loop x W (bool_select R (dup p) phis) (seq 1 (end_ - 1))
           (bool_select R (dup p) (spectrum (window x W 0) half))
    = map (fun j => bool_select R (dup p) (spectrum (window x W j) half))
        (seq 0 end_)).
  { intros p phis Hphis.
    rewrite (mft_loop_spectrum x W half p phis HW Hphis (end_ - 1) 0)
      by (unfold end_; lia).
    replace (seq 0 end_) with (0%nat :: seq 1 (end_ - 1)); [reflexivity|].
    unfold end_. replace (length x - W + 1)%nat with (S (length x - W)) by lia.
    simpl. now rewrite Nat.sub_0_r. }
  rewrite calc_incremental_mean_std_spec by (unfold end_; lia).
  destruct (anova || variance) eqn:Esel.
  - destruct (Hsel eq_refl) as [Hsort Hbound].
    destruct (mark_support_spec half (map (fun s => (s + off)%nat) support)
                (repeat false half) (repeat false (2 * half)))
      as [p [mask0 [Hmark [Hp [Hm0 [Himp Hiff]]]]]].
    + apply repeat_length.
    + apply repeat_length.
    + apply Forall_map. eapply Forall_impl; [|exact Hbound]. simpl.
      intros s Hs. unfold off, half. destruct norm; lia.
    + intros j Hj. rewrite nth_repeat in Hj. discriminate.
    + rewrite dup_repeat in Hmark. rewrite Hmark.
      rewrite get_phis_even, Hre, Him. fold (spectrum (window x W 0) half).
      rewrite (Hrows p _ (get_phis_even W half)).
      rewrite map_map, zip_with_map. f_equal.
      apply map_ext. intros w.
      rewrite bool_select_map, bool_select_twice; [| |exact Himp].
      2:{ rewrite dup_length. lia. }
      rewrite (bool_select_support R 0 (spectrum (window x W w) half) mask0
                 (map (fun s => (s + off)%nat) support) 0).
      * rewrite !map_map. apply map_ext. intros s. unfold scaled.
        rewrite Nat.sub_0_r.
        transitivity (nth (s + off)
                        (map (fun v => v * inv / std w) (spectrum (window x W w) half))
                        ((fun v => v * inv / std w) 0)).
        -- rewrite (map_nth (fun v => v * inv / std w)). unfold std. reflexivity.
        -- f_equal. unfold Rdiv. ring.
      * unfold spectrum. rewrite interleave_length;
          rewrite !length_map, !length_seq; [lia|reflexivity].
      * clear -Hsort. induction Hsort as [|s l Hs IH Hlt]; simpl; constructor.
        -- exact IH.
        -- apply Forall_map. eapply Forall_impl; [|exact Hlt]. simpl. intros; lia.
      * apply Forall_forall. intros; lia.
      * intros j. rewrite Hiff, nth_repeat. simpl. split; [|now right].
        intros [E|E]; [discriminate|assumption].
  - rewrite get_phis_even, Hre, Him. fold (spectrum (window x W 0) half).
    rewrite <- (dup_repeat true half).
    rewrite (Hrows (repeat true half) _ (get_phis_even W half)).
    rewrite map_map, zip_with_map. f_equal.
    apply map_ext. intros w.
    rewrite dup_repeat, bool_select_all.
    + rewrite map_map. reflexivity.
    + unfold spectrum. rewrite interleave_length;
        rewrite !length_map, !length_seq; [lia|reflexivity].
Qed.

(** Row [w] of [_mft] is the direct transform of window [w]. *)
Lemma mft_row_direct (x : list R) (W h0 : nat) (norm : bool)
    (support : list nat) (anova variance : bool) (inv : R) (w : nat) :
  let half := (h0 + (if norm then 1 else 0))%nat in
  (0 < W)%nat -> (w + W <= length x)%nat ->
  (half <= W / 2 + 1)%nat ->
  (anova || variance = true ->
   StronglySorted lt support /\ Forall (fun s => (s < 2 * h0)%nat) support) ->
  exists rows row,
    mft_series x W (2 * h0) norm support anova variance inv = Some rows /\
    length rows = (length x - W + 1)%nat /\
    nth_error rows w = Some row /\
    direct_transform (window x W w) norm (2 * h0) support (anova || variance) inv
      = Some row.
Proof.
  intros half HW Hw Hhalf Hsel.
  pose proof (mft_series_rows x W h0 norm support anova variance inv HW
                ltac:(lia) Hhalf Hsel) as Hrows.
  cbv zeta in Hrows. fold half in Hrows.
  eexists. eexists. split; [exact Hrows|]. split; [|split].
  - now rewrite length_map, length_seq.
  - rewrite nth_error_map, nth_error_seq.
    destruct (Nat.ltb w (length x - W + 1)) eqn:E;
      [|apply Nat.ltb_ge in E; lia].
    cbn [option_map Nat.add]. reflexivity.
  - unfold direct_transform.
    rewrite fft_row_spectrum by (fold half; rewrite window_length; assumption).
    fold half. f_equal.
    destruct (anova || variance).
    + apply map_ext. intros s. rewrite nth_skipn.
      replace (s + (if norm then 2 else 0))%nat
        with ((if norm then 2 else 0) + s)%nat by lia.
      f_equal. apply map_ext. intros v. unfold Rdiv. ring.
    + f_equal. apply map_ext. intros v. unfold Rdiv. ring.
Qed.

(** A window size of the series length or more: a single row, from the
    spectrum of the whole series. *)
Lemma mft_series_whole (x : list R) (W h0 : nat) (norm : bool)
    (support : list nat) (anova variance : bool) (inv : R) :
  let off := if norm then 2%nat else 0%nat in
  let half := (h0 + (if norm then 1 else 0))%nat in
  let std := std_of_sums (sum x) (sum (map (fun v => v * v) x)) (1 / INR W) in
  let scaled := map (fun v => v * inv / std) (spectrum x half) in
  (0 < W)%nat -> (length x <= W)%nat ->
  (half <= length x / 2 + 1)%nat ->
  (anova || variance = true ->
   StronglySorted lt support /\ Forall (fun s => (s < 2 * h0)%nat) support) ->
  pyslice R x 0 (Z.of_nat W) = x /\
  mft_series x W (2 * h0) norm support anova variance inv =
  Some [if anova || variance
        then map (fun s => nth (s + off) scaled 0) support
        else skipn off scaled].
Proof.
  intros off half std scaled HW HL Hhalf Hsel.
  assert (Hall : pyslice R x 0 (Z.of_nat W) = x) by (apply pyslice_all; lia).
  split; [exact Hall|].
  unfold mft_series, _calc_incremental_mean_std. fold off.
  assert (Hmod : ((2 * h0) mod 2 = 0)%nat)
    by (rewrite Nat.mul_comm; apply Nat.Div0.mod_mul).
  rewrite Hmod, Nat.add_0_r, Hall.
  replace (Z.to_nat (mft_end (Z.of_nat (length x)) (Z.of_nat W))) with 1%nat
    by (unfold mft_end; lia).
  replace (2 * h0 + off)%nat with (2 * half)%nat
    by (unfold off, half; destruct norm; lia).
  destruct (assign_spectrum x half Hhalf) as [Hre Him].
  rewrite get_phis_even, Hre, Him. fold (spectrum x half).
  rewrite zip_with_self. fold std. cbn [Nat.sub seq mft_loop std_loop map zip_with].
  destruct (anova || variance) eqn:Esel.
  - destruct (Hsel eq_refl) as [Hsort Hbound].
    destruct (mark_support_spec half (map (fun s => (s + off)%nat) support)
                (repeat false half) (repeat false (2 * half)))
      as [p [mask0 [Hmark [Hp [Hm0 [Himp Hiff]]]]]].
    + apply repeat_length.
    + apply repeat_length.
    + apply Forall_map. eapply Forall_impl; [|exact Hbound]. simpl.
      intros s Hs. unfold off, half. destruct norm; lia.
    + intros j Hj. rewrite nth_repeat in Hj. discriminate.
    + rewrite dup_repeat in Hmark. rewrite Hmark.
      do 2 f_equal.
      rewrite bool_select_map, bool_select_twice; [| |exact Himp].
      2:{ rewrite dup_length. lia. }
      rewrite (bool_select_support R 0 (spectrum x half) mask0
                 (map (fun s => (s + off)%nat) support) 0).
      * rewrite !map_map. apply map_ext. intros s. unfold scaled.
        rewrite Nat.sub_0_r.
        transitivity (nth (s + off)
                        (map (fun v => v * inv / std) (spectrum x half))
                        ((fun v => v * inv / std) 0)).
        -- rewrite (map_nth (fun v => v * inv / std)). reflexivity.
        -- f_equal. unfold Rdiv. ring.
      * unfold spectrum. rewrite interleave_length;
          rewrite !length_map, !length_seq; [lia|reflexivity].
      * clear -Hsort. induction Hsort as [|s l Hs IH Hlt]; simpl; constructor.
        -- exact IH.
        -- apply Forall_map. eapply Forall_impl; [|exact Hlt]. simpl. intros; lia.
      * apply Forall_forall. intros; lia.
      * intros j. rewrite Hiff, nth_repeat. simpl. split; [|now right].
        intros [E|E]; [discriminate|assumption].
  - do 2 f_equal. rewrite bool_select_all.
    + unfold scaled. now rewrite map_map.
    + unfold spectrum. rewrite interleave_length;
        rewrite !length_map, !length_seq; [lia|reflexivity].
Qed.

End SpectralFacts.

(* ================================================================== *)
(** * Properties of the selector and the discretizer *)
(* ================================================================== *)

Module DiscretizerFacts.
Import Segmenter SegmenterFacts Spectral SpectralSpec SpectralFacts Discretizer DiscretizerSpec.
Local Open Scope R_scope.

(** ** Sorting *)

Section Sorting.
Variable A : Type.
Variable leb : A -> A -> bool.
Hypothesis leb_total : forall a b, leb a b = true \/ leb b a = true.
Hypothesis leb_trans : forall a b c, leb a b = true -> leb b c = true -> leb a c = true.

Lemma insert_perm (a : A) (l : list A) : Permutation (a :: l) (insert A leb a l).
Proof.
  induction l as [|b l IH]; simpl; [apply Permutation_refl|].
  destruct (leb a b); [apply Permutation_refl|].
  apply perm_trans with (b :: a :: l); [apply perm_swap|].
  now apply perm_skip.
Qed.

Lemma sort_perm (l : list A) : Permutation l (sort A leb l).
Proof.
  induction l as [|a l IH]; simpl; [apply perm_nil|].
  apply perm_trans with (a :: sort A leb l); [now apply perm_skip|].
  apply insert_perm.
Qed.

Lemma sort_length (l : list A) : length (sort A leb l) = length l.
Proof. symmetry. apply Permutation_length, sort_perm. Qed.

Lemma insert_sorted (a : A) (l : list A) :
  StronglySorted (fun x y => leb x y = true) l ->
  StronglySorted (fun x y => leb x y = true) (insert A leb a l).
Proof.
  induction 1 as [|b l Hs IH Hb]; simpl.
  - constructor; constructor.
  - destruct (leb a b) eqn:E.
    + constructor; [constructor; assumption|].
      constructor; [assumption|].
      eapply Forall_impl; [|exact Hb]. simpl. intros c Hc. eapply leb_trans; eauto.
    + constructor; [assumption|].
      assert (Hba : leb b a = true) by (destruct (leb_total a b); congruence).
      eapply Permutation_Forall; [apply insert_perm|].
      constructor; assumption.
Qed.

Lemma sort_sorted (l : list A) :
  StronglySorted (fun x y => leb x y = true) (sort A leb l).
Proof.
  induction l as [|a l IH]; simpl; [constructor|]. now apply insert_sorted.
Qed.

End Sorting.

Lemma Rleb_le (a b : R) : Rleb a b = true <-> a <= b.
Proof. unfold Rleb. destruct (Rle_dec a b); split; intros; auto; discriminate. Qed.

Lemma Rleb_total (a b : R) : Rleb a b = true \/ Rleb b a = true.
Proof. rewrite !Rleb_le. lra. Qed.

Lemma Rleb_trans (a b c : R) :
  Rleb a b = true -> Rleb b c = true -> Rleb a c = true.
Proof. rewrite !Rleb_le. lra. Qed.

Lemma xleb_total (a b : xreal) : xleb a b = true \/ xleb b a = true.
Proof. destruct a, b; simpl; auto. apply Rleb_total. Qed.

Lemma xleb_trans (a b c : xreal) :
  xleb a b = true -> xleb b c = true -> xleb a c = true.
Proof.
  destruct a, b, c; simpl; auto; try discriminate. apply Rleb_trans.
Qed.

Lemma nat_leb_total (a b : nat) : Nat.leb a b = true \/ Nat.leb b a = true.
Proof. rewrite !Nat.leb_le. lia. Qed.

Lemma nat_leb_trans (a b c : nat) :
  Nat.leb a b = true -> Nat.leb b c = true -> Nat.leb a c = true.
Proof. rewrite !Nat.leb_le. lia. Qed.

(** ** Results of [all_some] *)

Lemma all_some_Forall2 (A B : Type) (f : A -> option B) (P : A -> B -> Prop)
    (l : list A) :
  Forall (fun a => exists b, f a = Some b /\ P a b) l ->
  exists out, all_some B (map f l) = Some out /\ Forall2 P l out.
Proof.
  induction 1 as [|a l [b [Hb HP]] _ [out [Ho HF]]].
  - exists []. split; [reflexivity|constructor].
  - exists (b :: out). cbn [map all_some]. rewrite Hb, Ho.
    split; [reflexivity|]. constructor; assumption.
Qed.

Lemma all_some_inv (A B : Type) (f : A -> option B) (l : list A) (out : list B) :
  all_some B (map f l) = Some out -> Forall2 (fun a b => f a = Some b) l out.
Proof.
  revert out. induction l as [|a l IH]; intros out H; cbn [map all_some] in H.
  - inversion H. constructor.
  - destruct (f a) eqn:E; [|discriminate].
    destruct (all_some B (map f l)) eqn:E2; [|discriminate].
    inversion H; subst. constructor; [assumption|]. now apply IH.
Qed.

(** ** Rows of the table *)



















(** ** Rows of the quantile discretizer *)

Lemma overwrite_spec (values : list R) :
  forall row out, overwrite row values = Some out ->
    out = values ++ skipn (length values) row /\ (length values <= length row)%nat.
Proof.
  induction values as [|v values IH]; intros row out H.
  - destruct row; simpl in H; inversion H; simpl; split; (reflexivity || lia).
  - destruct row as [|r row]; simpl in H; [discriminate|].
    destruct (overwrite row values) as [o|] eqn:E; [|discriminate].
    inversion H; subst out. destruct (IH row o E) as [-> Hl].
    simpl. split; [reflexivity|lia].
Qed.










(** ** The variance selection *)

Lemma argsort_perm (keys : list R) :
  Permutation (seq 0 (length keys)) (argsort keys).
Proof. apply sort_perm. Qed.

Lemma argsort_sorted (keys : list R) :
  StronglySorted (fun i j => nth i keys 0 <= nth j keys 0) (argsort keys).
Proof.
  unfold argsort.
  assert (H : StronglySorted
                (fun i j => Rleb (nth i keys 0) (nth j keys 0) = true)
                (sort nat (fun i j => Rleb (nth i keys 0) (nth j keys 0))
                   (seq 0 (length keys)))).
  { apply sort_sorted.
    - intros a b. apply Rleb_total.
    - intros a b c. apply Rleb_trans. }
  induction H as [|x l Hs IH Hx]; constructor; [assumption|].
  eapply Forall_impl; [|exact Hx]. simpl. intros b. apply Rleb_le.
Qed.

Lemma in_skipn (A : Type) (x : A) (k : nat) (l : list A) :
  In x (skipn k l) -> In x l.
Proof.
  intros H. rewrite <- (firstn_skipn k l). apply in_or_app. now right.
Qed.

Lemma in_firstn (A : Type) (x : A) (k : nat) (l : list A) :
  In x (firstn k l) -> In x l.
Proof.
  intros H. rewrite <- (firstn_skipn k l). apply in_or_app. now left.
Qed.

Lemma sorted_firstn_skipn (A : Type) (R0 : A -> A -> Prop) (l : list A) :
  StronglySorted R0 l ->
  forall k i j, In i (firstn k l) -> In j (skipn k l) -> R0 i j.
Proof.
  induction 1 as [|x l Hs IH Hx]; intros k i j Hi Hj.
  - destruct k; simpl in Hi; contradiction.
  - destruct k as [|k]; simpl in Hi, Hj; [contradiction|].
    destruct Hi as [->|Hi].
    + rewrite Forall_forall in Hx. apply Hx.
      eapply in_skipn. exact Hj.
    + eapply IH; eauto.
Qed.

Lemma sorted_le_nodup_lt (l : list nat) :
  StronglySorted (fun a b => Nat.leb a b = true) l -> NoDup l ->
  StronglySorted lt l.
Proof.
  induction 1 as [|x l Hs IH Hx]; intros Hnd; constructor.
  - apply IH. now inversion Hnd.
  - inversion Hnd as [|? ? Hnotin _]; subst.
    rewrite Forall_forall in *. intros y Hy.
    specialize (Hx y Hy). apply Nat.leb_le in Hx.
    destruct (Nat.eq_dec x y) as [->|]; [contradiction|lia].
Qed.

Lemma np_max_spec (l : list nat) (m : nat) :
  np_max l = Some m -> In m l /\ Forall (fun s => (s <= m)%nat) l.
Proof.
  destruct l as [|s rest]; [discriminate|]. simpl. intros H. inversion H. clear H H1.
  assert (G : forall rest acc,
             (fold_left Nat.max rest acc = acc \/ In (fold_left Nat.max rest acc) rest) /\
             (acc <= fold_left Nat.max rest acc)%nat /\
             Forall (fun s => (s <= fold_left Nat.max rest acc)%nat) rest).
  { clear. induction rest as [|r rest IH]; intros acc; simpl.
    - repeat split; auto.
    - destruct (IH (Nat.max acc r)) as [H1 [H2 H3]]. split; [|split].
      + destruct H1 as [H1|H1]; [|right; now right].
        rewrite H1. destruct (Nat.max_spec acc r) as [[_ E]|[_ E]]; rewrite E; auto.
      + lia.
      + constructor; [lia|assumption]. }
  destruct (G rest s) as [H1 [H2 H3]]. split.
  - destruct H1 as [->|H1]; [now left|now right].
  - constructor; assumption.
Qed.

Lemma variances_length (dft : list (list R)) (ncols : nat) (vars : list R) :
  variances dft ncols = Some vars -> length vars = ncols.
Proof.
  unfold variances. destruct (all_some _ _) as [cols|] eqn:E; [|discriminate].
  intros H. inversion H. apply all_some_inv, Forall2_length in E.
  rewrite length_seq in E. now rewrite length_map.
Qed.

(** The variance branch of [_binning] keeps the columns of largest variance,
    in ascending order, and sets [dft_length] from the largest of them. *)
Lemma select_by_variance_spec (dft : list (list R)) (ncols word_length : nat)
    (support : list nat) (dft' : list (list R)) (dft_length : nat) :
  select_by_variance dft ncols word_length = Some (support, dft', dft_length) ->
  exists vars m,
    variances dft ncols = Some vars /\
    StronglySorted lt support /\
    top_variance vars word_length support /\
    take_columns dft support = Some dft' /\
    np_max support = Some m /\ In m support /\
    Forall (fun s => (s <= m)%nat) support /\
    dft_length = (m + 1 + (m + 1) mod 2)%nat.
Proof.
  unfold select_by_variance.
  destruct (variances dft ncols) as [vars|] eqn:Ev; [|discriminate].
  set (order := argsort (map Ropp vars)).
  set (chosen := firstn word_length order).
  set (supp := sort nat Nat.leb chosen).
  destruct (take_columns dft supp) as [d|] eqn:Et; [|discriminate].
  destruct (np_max supp) as [m|] eqn:Em; [|discriminate].
  intros H. inversion H; subst support dft' dft_length. clear H.
  exists vars, m.
  assert (Hperm : Permutation (seq 0 (length vars)) order).
  { unfold order. rewrite <- (length_map Ropp vars). apply argsort_perm. }
  assert (Hsp : Permutation chosen supp) by apply sort_perm.
  assert (Hnd_order : NoDup order).
  { eapply Permutation_NoDup; [exact Hperm|apply seq_NoDup]. }
  assert (Hnd_chosen : NoDup chosen).
  { unfold chosen. rewrite <- (firstn_skipn word_length order) in Hnd_order.
    now apply NoDup_app_remove_r in Hnd_order. }
  assert (Hnd : NoDup supp) by (eapply Permutation_NoDup; eauto).
  destruct (np_max_spec supp m Em) as [Hm1 Hm2].
  split; [reflexivity|]. split; [|split; [|repeat split; auto]].
  - apply sorted_le_nodup_lt; [|assumption].
    apply sort_sorted; [apply nat_leb_total|apply nat_leb_trans].
  - unfold top_variance. split; [assumption|]. split; [|split].
    + rewrite <- (Permutation_length Hsp). unfold chosen.
      rewrite length_firstn, <- (Permutation_length Hperm), length_seq. reflexivity.
    + apply Forall_forall. intros s Hs.
      apply (Permutation_in _ (Permutation_sym Hsp)) in Hs.
      assert (Hs' : In s order) by (eapply in_firstn; exact Hs).
      apply (Permutation_in _ (Permutation_sym Hperm)) in Hs'.
      apply in_seq in Hs'. lia.
    + intros i j Hi Hj Hnj.
      apply (Permutation_in _ (Permutation_sym Hsp)) in Hi.
      assert (Hj' : In j order).
      { apply (Permutation_in _ Hperm). apply in_seq. lia. }
      rewrite <- (firstn_skipn word_length order) in Hj'.
      apply in_app_or in Hj'. destruct Hj' as [Hj'|Hj'].
      { exfalso. apply Hnj. apply (Permutation_in _ Hsp). exact Hj'. }
      pose proof (sorted_firstn_skipn nat _ order (argsort_sorted (map Ropp vars))
                    word_length i j Hi Hj') as Hle.
      cbv beta in Hle.
      assert (Hi' : (i < length vars)%nat).
      { assert (Hio : In i order) by (eapply in_firstn; exact Hi).
        apply (Permutation_in _ (Permutation_sym Hperm)) in Hio.
        apply in_seq in Hio. lia. }
      rewrite (nth_indep _ 0 (Ropp 0)) in Hle by (rewrite length_map; lia).
      rewrite (nth_indep (map Ropp vars) 0 (Ropp 0)) in Hle
        by (rewrite length_map; lia).
      rewrite !map_nth in Hle. lra.
Qed.

End DiscretizerFacts.

(* ================================================================== *)
(** * Properties of [fit] *)
(* ================================================================== *)

Module EstimatorFacts.
Import Segmenter SegmenterFacts Spectral SpectralSpec SpectralFacts.
Import Discretizer DiscretizerSpec DiscretizerFacts Estimator.
Local Open Scope R_scope.

Lemma take_columns_entries (P : R -> Prop) (dft dft' : list (list R))
    (support : list nat) :
  Forall (Forall P) dft -> take_columns dft support = Some dft' ->
  Forall (Forall P) dft'.
Proof.
  intros HP H. unfold take_columns in H. apply all_some_inv in H.
  induction H as [|row row' dft dft' Hrow _ IH]; [constructor|].
  inversion HP as [|? ? Hr Hrest]; subst.
  constructor; [|apply IH; assumption].
  apply all_some_inv in Hrow. clear -Hr Hrow.
  induction Hrow as [|s v support row' Hv _ IH]; constructor; [|assumption].
  rewrite Forall_forall in Hr. apply Hr. eapply nth_error_In; eauto.
Qed.

(** ** When the fit goes through *)

Lemma spectrum_length (a : list R) (half : nat) :
  length (spectrum a half) = (2 * half)%nat.
Proof.
  unfold spectrum. rewrite interleave_length; rewrite !length_map, !length_seq; lia.
Qed.

Lemma fft_row_some (a : list R) (norm : bool) (h0 : nat) (inv : R) :
  (h0 + (if norm then 1 else 0) <= length a / 2 + 1)%nat ->
  exists row, fft_row a norm (2 * h0) inv = Some row /\ length row = (2 * h0)%nat.
Proof.
  intros H. rewrite fft_row_spectrum by assumption.
  eexists. split; [reflexivity|].
  rewrite length_skipn, length_map, spectrum_length. destruct norm; lia.
Qed.

Lemma binning_dft_some (Xs : list (list R)) (W h0 : nat) (norm : bool) (inv : R) :
  (0 < W)%nat -> Xs <> [] ->
  Forall (fun x => (W <= length x)%nat) Xs ->
  (h0 + (if norm then 1 else 0) <= W / 2 + 1)%nat ->
  exists dft,
    _binning_dft Xs W (2 * h0) norm inv = Some dft /\ dft <> [] /\
    Forall (fun row => length row = (2 * h0)%nat) dft.
Proof.
  intros HW Hne Hlen Hhalf. unfold _binning_dft.
  destruct (all_some_Forall2 (list R) (list (list R))
              (fun x => match binning_windows R x (Z.of_nat W) with
                        | Some split => _fast_fourier_transform split norm (2 * h0) inv
                        | None => None
                        end)
              (fun _ rows => rows <> [] /\
                             Forall (fun row => length row = (2 * h0)%nat) rows) Xs)
    as [out [Hout HF]].
  { eapply Forall_impl; [|exact Hlen]. simpl. intros x Hx.
    destruct (binning_windows_long R x (Z.of_nat W) ltac:(lia))
      as [split [Hs [Hn [Hw _]]]].
    rewrite Hs. unfold _fast_fourier_transform.
    destruct (all_some_Forall2 (list R) (list R)
                (fun a => fft_row a norm (2 * h0) inv)
                (fun _ row => length row = (2 * h0)%nat) split)
      as [rows [Hrows HF]].
    { eapply Forall_impl; [|exact Hw]. simpl. intros a Ha.
      destruct (fft_row_some a norm h0 inv) as [row [Hr Hl]].
      - replace (length a) with W by lia. assumption.
      - exists row. auto. }
    exists rows. split; [exact Hrows|]. split.
    - pose proof (Forall2_length HF) as Hl.
      pose proof (ceil_div_bounds (Z.of_nat (length x)) (Z.of_nat W) ltac:(lia)).
      destruct rows; [|discriminate]. simpl in Hl. nia.
    - clear -HF. induction HF; constructor; auto. }
  rewrite Hout. exists (concat out). split; [reflexivity|]. split.
  - destruct Xs as [|x Xs]; [contradiction|].
    inversion HF as [|? rows ? out' [Hr _] _]; subst.
    destruct rows; [contradiction|]. discriminate.
  - apply Forall_concat. clear -HF. induction HF as [|x rows Xs out [_ H] _ IH];
      constructor; auto.
Qed.

Lemma column_some (dft : list (list R)) (j : nat) :
  Forall (fun row => (j < length row)%nat) dft ->
  exists col, column dft j = Some col /\ length col = length dft.
Proof.
  intros H. unfold column.
  destruct (all_some_Forall2 (list R) R (fun row => nth_error row j)
              (fun _ _ => True) dft) as [col [Hc HF]].
  { eapply Forall_impl; [|exact H]. simpl. intros row Hrow.
    destruct (nth_error row j) eqn:E; [eauto|].
    apply nth_error_None in E. lia. }
  exists col. split; [exact Hc|]. symmetry. eapply Forall2_length; eauto.
Qed.

Lemma take_columns_some (dft : list (list R)) (support : list nat) (n : nat) :
  Forall (fun row => length row = n) dft ->
  Forall (fun s => (s < n)%nat) support ->
  exists dft',
    take_columns dft support = Some dft' /\ length dft' = length dft /\
    Forall (fun row => length row = length support) dft'.
Proof.
  intros Hrows Hs. unfold take_columns.
  destruct (all_some_Forall2 (list R) (list R)
              (fun row => all_some R (map (fun s => nth_error row s) support))
              (fun _ row' => length row' = length support) dft) as [d [Hd HF]].
  { eapply Forall_impl; [|exact Hrows]. simpl. intros row Hrow.
    destruct (all_some_Forall2 nat R (fun s => nth_error row s) (fun _ _ => True)
                support) as [r [Hr HF]].
    - eapply Forall_impl; [|exact Hs]. simpl. intros s Hsn.
      destruct (nth_error row s) eqn:E; [eauto|].
      apply nth_error_None in E. lia.
    - exists r. split; [exact Hr|]. symmetry. eapply Forall2_length; eauto. }
  exists d. split; [exact Hd|]. split.
  - symmetry. eapply Forall2_length; eauto.
  - clear -HF. induction HF; constructor; auto.
Qed.

Lemma variances_some (dft : list (list R)) (ncols : nat) :
  Forall (fun row => length row = ncols) dft ->
  exists vars, variances dft ncols = Some vars.
Proof.
  intros H. unfold variances.
  destruct (all_some_Forall2 nat (list R) (column dft) (fun _ _ => True)
              (seq 0 ncols)) as [cols [Hc _]].
  { apply Forall_forall. intros j Hj. apply in_seq in Hj.
    destruct (column_some dft j) as [col [Hcol _]].
    - eapply Forall_impl; [|exact H]. simpl. intros; lia.
    - eauto. }
  rewrite Hc. eauto.
Qed.

Lemma select_by_variance_some (dft : list (list R)) (ncols word_length : nat) :
  Forall (fun row => length row = ncols) dft ->
  (1 <= word_length <= ncols)%nat ->
  exists support dft' dl,
    select_by_variance dft ncols word_length = Some (support, dft', dl) /\
    length dft' = length dft /\
    Forall (fun row => length row = word_length) dft'.
Proof.
  intros Hrows Hwl. unfold select_by_variance.
  destruct (variances_some dft ncols Hrows) as [vars Hv]. rewrite Hv.
  pose proof (variances_length _ _ _ Hv) as Hlv.
  set (order := argsort (map Ropp vars)).
  set (supp := sort nat Nat.leb (firstn word_length order)).
  assert (Hperm : Permutation (seq 0 ncols) order).
  { unfold order. rewrite <- Hlv, <- (length_map Ropp vars). apply argsort_perm. }
  assert (Hsp : Permutation (firstn word_length order) supp) by apply sort_perm.
  assert (Hlen : length supp = word_length).
  { rewrite <- (Permutation_length Hsp), length_firstn,
      <- (Permutation_length Hperm), length_seq. lia. }
  assert (Hb : Forall (fun s => (s < ncols)%nat) supp).
  { apply Forall_forall. intros s Hs.
    apply (Permutation_in _ (Permutation_sym Hsp)) in Hs.
    apply in_firstn in Hs.
    apply (Permutation_in _ (Permutation_sym Hperm)) in Hs.
    apply in_seq in Hs. lia. }
  destruct (take_columns_some dft supp ncols Hrows Hb) as [d [Hd [Hl Hr]]].
  rewrite Hd.
  destruct (np_max supp) as [m|] eqn:Em.
  - eexists _, _, _. split; [reflexivity|]. split; [assumption|].
    now rewrite Hlen in Hr.
  - destruct supp; [simpl in Hlen; lia|discriminate].
Qed.

Lemma equi_depth_some (col : list R) (alphabet_size : Z) :
  (2 <= alphabet_size)%Z -> col <> [] ->
  exists bps, equi_depth col (Z.of_nat (length col)) alphabet_size = Some bps.
Proof.
  intros Ha Hne. unfold equi_depth.
  destruct (all_some_Forall2 nat R
              (fun bp => nth_error col
                           (Z.to_nat ((Z.of_nat bp + 1) * Z.of_nat (length col)
                                      / alphabet_size)))
              (fun _ _ => True) (seq 0 (Z.to_nat (alphabet_size - 1))))
    as [bps [Hb _]]; [|eauto].
  apply Forall_forall. intros bp Hbp. apply in_seq in Hbp.
  match goal with |- exists b, ?e = Some b /\ True => destruct e eqn:E end;
    [eauto|].
  apply nth_error_None in E. exfalso.
  assert (Hl : (0 < Z.of_nat (length col))%Z) by (destruct col; [contradiction|simpl; lia]).
  assert (((Z.of_nat bp + 1) * Z.of_nat (length col) / alphabet_size
           < Z.of_nat (length col))%Z).
  { apply Z.div_lt_upper_bound; nia. }
  assert ((0 <= (Z.of_nat bp + 1) * Z.of_nat (length col) / alphabet_size)%Z)
    by (apply Z.div_pos; nia).
  lia.
Qed.

Lemma mcb_some (dft : list (list R)) (binning_method : String.string)
    (word_length : nat) (alphabet_size : Z) :
  (2 <= alphabet_size)%Z -> dft <> [] ->
  Forall (fun row => (word_length <= length row)%nat) dft ->
  exists table, _mcb dft binning_method word_length alphabet_size = Some table.
Proof.
  intros Ha Hne Hrows. unfold _mcb.
  set (dft' := map (map round2) dft).
  assert (Hne' : dft' <> []) by (unfold dft'; destruct dft; [contradiction|discriminate]).
  assert (Hrows' : Forall (fun row => (word_length <= length row)%nat) dft').
  { unfold dft'. apply Forall_map. eapply Forall_impl; [|exact Hrows]. simpl.
    intros row. now rewrite length_map. }
  destruct (all_some_Forall2 nat (list xreal) (mcb_row dft' binning_method alphabet_size)
              (fun _ _ => True) (seq 0 word_length)) as [t [Ht _]]; [|eauto].
  apply Forall_forall. intros letter Hl. apply in_seq in Hl.
  unfold mcb_row.
  destruct (column_some dft' letter) as [col [Hc Hlc]].
  { eapply Forall_impl; [|exact Hrows']. simpl. intros; lia. }
  rewrite Hc.
  assert (Hsl : length (sort R Rleb col) = length dft').
  { rewrite (sort_length R Rleb). exact Hlc. }
  assert (Hsne : sort R Rleb col <> []).
  { destruct (sort R Rleb col); [|discriminate].
    destruct dft'; [contradiction|discriminate]. }
  destruct (String.eqb binning_method "equi-depth").
  - destruct (equi_depth_some (sort R Rleb col) alphabet_size Ha Hsne) as [bps Hb].
    rewrite Hsl in Hb. rewrite Hb. eauto.
  - destruct (String.eqb binning_method "equi-width").
    + unfold equi_width. destruct (sort R Rleb col); [contradiction|]. eauto.
    + eauto.
Qed.

(** ** Series exactly one window long *)

(** The zero-frequency bin is the sum of the samples. *)
Lemma rfft_re_0 (a : list R) : rfft_re a 0 = sum a.
Proof.
  unfold rfft_re. rewrite sum_rsum. apply rsum_ext. intros m _.
  replace (2 * PI * INR m * INR 0 / INR (length a)) with 0
    by (simpl; unfold Rdiv; ring).
  rewrite cos_0. ring.
Qed.

Lemma rfft_im_0 (a : list R) : rfft_im a 0 = 0.
Proof.
  unfold rfft_im.
  rewrite (rsum_ext _ (fun m => 0 * 0)).
  - rewrite rsum_scal. ring.
  - intros m _.
    replace (2 * PI * INR m * INR 0 / INR (length a)) with 0
      by (simpl; unfold Rdiv; ring).
    rewrite sin_0. ring.
Qed.

Lemma binning_dft_whole (Xs : list (list R)) (W h0 : nat) (norm : bool) (inv : R) :
  (0 < W)%nat ->
  Forall (fun x => length x = W) Xs ->
  (h0 + (if norm then 1 else 0) <= W / 2 + 1)%nat ->
  _binning_dft Xs W (2 * h0) norm inv =
  Some (map (fun x =>
               skipn (if norm then 2 else 0)
                 (map (fun v => v / (if Rlt_dec (np_std x) 1e-8 then 1e-8
                                     else np_std x) * inv)
                    (spectrum x (h0 + (if norm then 1 else 0))))) Xs).
Proof.
  intros HW Hlen Hhalf. unfold _binning_dft.
  assert (E : all_some (list (list R))
                (map (fun x =>
                        match binning_windows R x (Z.of_nat W) with
                        | Some split => _fast_fourier_transform split norm (2 * h0) inv
                        | None => None
                        end) Xs)
              = Some (map (fun x =>
                             [skipn (if norm then 2 else 0)
                                (map (fun v => v / (if Rlt_dec (np_std x) 1e-8
                                                    then 1e-8 else np_std x) * inv)
                                   (spectrum x (h0 + (if norm then 1 else 0))))])
                        Xs)).
  { induction Hlen as [|x Xs Hx _ IH]; [reflexivity|].
    cbn [map all_some].
    rewrite (binning_windows_whole R x (Z.of_nat W)) by lia.
    unfold _fast_fourier_transform. cbn [map all_some].
    rewrite fft_row_spectrum by (rewrite Hx; assumption).
    unfold _fast_fourier_transform in IH. rewrite IH. reflexivity. }
  rewrite E. f_equal. clear. induction Xs as [|x Xs IH]; [reflexivity|].
  cbn [map concat app]. now rewrite IH.
Qed.

Section Collaborators.
Variable Panel : Type.
Variable check_X : Panel -> exn + list (list R).
Variable f_classif : list (list R) -> list Z -> list R.
Variable tree_thresholds : Z -> list R -> list Z -> list R.
Variable kbins_fit : Z -> String.string -> list (list R) -> bin_edges.

Lemma select_by_anova_entries (P : R -> Prop) (self : SFA_NEW)
    (dft : list (list R)) (ncols : nat) (y : list Z)
    (support : list nat) (dft' : list (list R)) (dft_length : nat) :
  Forall (Forall P) dft ->
  select_by_anova f_classif self dft ncols y = Some (support, dft', dft_length) ->
  Forall (Forall P) dft'.
Proof.
  intros HP H. unfold select_by_anova in H.
  destruct (variances dft ncols); [|discriminate].
  match type of H with
  | match ?c with _ => _ end = _ => destruct c as [chosen|]; [|discriminate]
  end.
  destruct (take_columns dft (sort nat Nat.leb chosen)) as [d|] eqn:Et;
    [|discriminate].
  destruct (np_max _); [|discriminate].
  inversion H; subst. eapply take_columns_entries; eauto.
Qed.

(** What a successful [_binning] did. *)
Lemma binning_inv (self : SFA_NEW) (Xs : list (list R)) (y : option (list Z))
    (self2 : SFA_NEW) (table : list (list xreal)) :
  _binning f_classif tree_thresholds kbins_fit self Xs y = Some (self2, table) ->
  exists dft dft2,
    _binning_dft Xs (window_size self) (dft_length self) (norm self)
      (inverse_sqrt_win_size self) = Some dft /\
    (forall P, Forall (Forall P) dft -> Forall (Forall P) dft2) /\
    word_length self2 = word_length self /\
    alphabet_size self2 = alphabet_size self /\
    binning_method self2 = binning_method self /\
    (if String.eqb (binning_method self) "information-gain"%string then
       exists labels,
         _igb tree_thresholds dft2 labels (word_length self) (alphabet_size self)
           = Some table
     else if String.eqb (binning_method self) "kmeans"%string then
       _k_bins_discretizer kbins_fit dft2 (binning_method self)
         (word_length self) (alphabet_size self) = Some table
     else
       _mcb dft2 (binning_method self) (word_length self) (alphabet_size self)
         = Some table) /\
    (variance self = true -> anova self = false -> y <> None ->
     exists dft',
       select_by_variance dft (dft_length self) (word_length self)
         = Some (support self2, dft', dft_length self2)) /\
    (variance self = false \/ y = None -> anova self = false \/ y = None ->
     support self2 = support self /\ dft_length self2 = dft_length self).
Proof.
  unfold _binning. intros H.
  destruct (_binning_dft _ _ _ _ _) as [dft|] eqn:Ed; [|discriminate].
  match type of H with
  | match ?c with _ => _ end = _ => destruct c as [y0|] eqn:Ey; [|discriminate]
  end.
  assert (Hy0 : y = None <-> y0 = None).
  { destruct y as [labels|]; simpl in Ey.
    - destruct (repeat_labels labels (length dft)); simpl in Ey; [|discriminate].
      inversion Ey. split; discriminate.
    - inversion Ey. tauto. }
  (* the variance branch *)
  match type of H with
  | match (match ?c with _ => _ end) with _ => _ end = _ =>
      destruct c as [[self1 dft1]|] eqn:Ev; [|discriminate]
  end.
  assert (Hv : (forall P, Forall (Forall P) dft -> Forall (Forall P) dft1) /\
               word_length self1 = word_length self /\
               alphabet_size self1 = alphabet_size self /\
               binning_method self1 = binning_method self /\
               anova self1 = anova self /\
               (variance self = true -> y <> None ->
                exists dft',
                  select_by_variance dft (dft_length self) (word_length self)
                    = Some (support self1, dft', dft_length self1)) /\
               (variance self = false \/ y = None ->
                support self1 = support self /\ dft_length self1 = dft_length self)).
  { destruct (variance self) eqn:Evar; destruct y0 as [labels|].
    - destruct (select_by_variance _ _ _) as [[[s d] dl]|] eqn:Es; [|discriminate].
      inversion Ev; subst self1 dft1. clear Ev. simpl.
      split; [|split; [|split; [|split; [|split; [|split]]]]]; try reflexivity.
      + intros P HP. unfold select_by_variance in Es.
        destruct (variances dft (dft_length self)); [|discriminate].
        destruct (take_columns dft _) eqn:Et; [|discriminate].
        destruct (np_max _); [|discriminate].
        inversion Es; subst. eapply take_columns_entries; eauto.
      + intros _ _. exists d. reflexivity.
      + intros [Hc|Hc]; [discriminate|]. apply Hy0 in Hc. discriminate.
    - inversion Ev; subst self1 dft1.
      split; [|split; [|split; [|split; [|split; [|split]]]]]; try reflexivity.
      + auto.
      + intros _ Hc. exfalso. apply Hc. now apply Hy0.
      + auto.
    - inversion Ev; subst self1 dft1.
      split; [|split; [|split; [|split; [|split; [|split]]]]]; try reflexivity.
      + auto.
      + intros Hc. discriminate.
      + auto.
    - inversion Ev; subst self1 dft1.
      split; [|split; [|split; [|split; [|split; [|split]]]]]; try reflexivity.
      + auto.
      + intros Hc. discriminate.
      + auto. }
  destruct Hv as [Hv1 [Hv2 [Hv3 [Hv4 [Hv5 [Hv6 Hv7]]]]]].
  (* the ANOVA branch *)
  match type of H with
  | match ?c with _ => _ end = _ =>
      destruct c as [[self2' dft2]|] eqn:Ea; [|discriminate]
  end.
  assert (Ha : (forall P, Forall (Forall P) dft1 -> Forall (Forall P) dft2) /\
               word_length self2' = word_length self1 /\
               alphabet_size self2' = alphabet_size self1 /\
               binning_method self2' = binning_method self1 /\
               (anova self = false \/ y = None ->
                support self2' = support self1 /\
                dft_length self2' = dft_length self1)).
  { destruct (anova self1) eqn:Ean; destruct y0 as [labels|].
    - destruct (select_by_anova _ _ _ _ _) as [[[s d] dl]|] eqn:Es; [|discriminate].
      inversion Ea; subst self2' dft2. clear Ea. simpl.
      split; [|split; [|split; [|split]]]; try reflexivity.
      + intros P HP. eapply select_by_anova_entries; eauto.
      + intros [Hc|Hc]; [congruence|]. apply Hy0 in Hc. discriminate.
    - inversion Ea; subst self2' dft2.
      split; [|split; [|split; [|split]]]; try reflexivity; auto.
    - inversion Ea; subst self2' dft2.
      split; [|split; [|split; [|split]]]; try reflexivity; auto.
    - inversion Ea; subst self2' dft2.
      split; [|split; [|split; [|split]]]; try reflexivity; auto. }
  destruct Ha as [Ha1 [Ha2 [Ha3 [Ha4 Ha5]]]].
  match type of H with
  | match ?c with _ => _ end = _ =>
      destruct c as [t|] eqn:Et; [|discriminate]
  end.
  inversion H; subst self2' t. clear H.
  exists dft, dft2. split; [reflexivity|]. split; [auto|].
  split; [congruence|]. split; [congruence|]. split; [congruence|].
  split; [|split].
  - rewrite Ha4, Hv4, Ha2, Hv2, Ha3, Hv3 in Et.
    destruct (String.eqb (binning_method self) "information-gain").
    + destruct y0 as [labels|]; [|discriminate]. exists labels. exact Et.
    + destruct (String.eqb (binning_method self) "kmeans"); exact Et.
  - intros Hvar Han Hy. destruct (Hv6 Hvar Hy) as [dft' Hs].
    destruct (Ha5 (or_introl Han)) as [E1 E2]. rewrite E1, E2. eauto.
  - intros Hvar Han. destruct (Hv7 Hvar) as [E1 E2].
    destruct (Ha5 Han) as [E3 E4]. split; congruence.
Qed.

(** What a successful [fit] did. *)
Lemma fit_inv (self : SFA_NEW) (X : Panel) (y : option (list Z)) (self' : SFA_NEW) :
  fit Panel check_X f_classif tree_thresholds kbins_fit self X y = inr self' ->
  fit_guards self y = None /\
  exists Xs self1 self2 table,
    check_X X = inr Xs /\
    window_size self1 = window_size self /\ dft_length self1 = dft_length self /\
    norm self1 = norm self /\
    inverse_sqrt_win_size self1 = inverse_sqrt_win_size self /\
    word_length self1 = word_length self /\
    alphabet_size self1 = alphabet_size self /\
    binning_method self1 = binning_method self /\
    variance self1 = variance self /\ anova self1 = anova self /\
    support self1 = support self /\
    _binning f_classif tree_thresholds kbins_fit self1 Xs y = Some (self2, table) /\
    breakpoints self' = table /\
    support self' = support self2 /\ dft_length self' = dft_length self2 /\
    _is_fitted self' = true.
Proof.
  unfold fit. destruct (fit_guards self y); [discriminate|].
  unfold fit_body. intros H. split; [reflexivity|].
  destruct (check_X X) as [e|Xs]; [discriminate|].
  match type of H with
  | match ?c with _ => _ end = _ => destruct c as [[self2 table]|] eqn:Eb;
                                      [|discriminate]
  end.
  inversion H; subst self'. clear H.
  match type of Eb with
  | _binning _ _ _ ?s _ _ = _ => exists Xs, s, self2, table
  end.
  split; [reflexivity|].
  repeat (split; [reflexivity|]).
  split; [exact Eb|]. repeat split; reflexivity.
Qed.

Lemma fit_guards_alphabet (self : SFA_NEW) (y : option (list Z)) :
  fit_guards self y = None -> (2 <= alphabet_size self)%Z.
Proof.
  unfold fit_guards. destruct (alphabet_size self <? 2)%Z eqn:E; [discriminate|].
  intros _. apply Z.ltb_ge in E. exact E.
Qed.

(** With equi-depth or equi-width binning and no ANOVA selection, [fit]
    goes through on every batch of series at least one window long. *)
Lemma fit_mcb_succeeds (self : SFA_NEW) (X : Panel) (y : option (list Z))
    (Xs : list (list R)) (h0 : nat) :
  fit_guards self y = None ->
  check_X X = inr Xs -> Xs <> [] ->
  (0 < window_size self)%nat ->
  Forall (fun x => (window_size self <= length x)%nat) Xs ->
  dft_length self = (2 * h0)%nat ->
  (h0 + (if norm self then 1 else 0) <= window_size self / 2 + 1)%nat ->
  anova self = false ->
  (1 <= word_length self <= dft_length self)%nat ->
  y <> Some [] ->
  String.eqb (binning_method self) "information-gain"%string = false ->
  String.eqb (binning_method self) "kmeans"%string = false ->
  exists self',
    fit Panel check_X f_classif tree_thresholds kbins_fit self X y = inr self'.
Proof.
  intros Hg Hx Hne HW Hlen Hdl Hhalf Han Hwl Hy Hig Hkm.
  pose proof (fit_guards_alphabet self y Hg) as Ha.
  unfold fit. rewrite Hg. unfold fit_body. rewrite Hx.
  destruct (binning_dft_some Xs (window_size self) h0 (norm self)
              (inverse_sqrt_win_size self) HW Hne Hlen Hhalf)
    as [dft [Hd [Hdne Hrows]]].
  rewrite <- Hdl in Hd, Hrows.
  assert (Hb : exists self2 table,
            _binning f_classif tree_thresholds kbins_fit
              (set_shape
                 (set_bits self (Z.log2_up (alphabet_size self))
                    (Z.of_nat (word_length self) * Z.log2_up (alphabet_size self))
                    (if bigrams self
                     then (Z.of_nat (word_length self)
                           * Z.log2_up (alphabet_size self) * 2)%Z
                     else (Z.of_nat (word_length self)
                           * Z.log2_up (alphabet_size self))%Z)) Xs) Xs y
            = Some (self2, table)).
  { unfold _binning. cbn [window_size dft_length norm inverse_sqrt_win_size
                            variance anova word_length alphabet_size binning_method
                            set_shape set_bits].
    rewrite Hd.
    assert (Hmcb : forall dft2, dft2 <> [] ->
              Forall (fun row => (word_length self <= length row)%nat) dft2 ->
              exists table,
                _mcb dft2 (binning_method self) (word_length self)
                  (alphabet_size self) = Some table)
      by (intros; now apply mcb_some).
    destruct y as [labels|].
    - destruct labels as [|l labels]; [congruence|].
      cbn [repeat_labels option_map].
      destruct (variance self) eqn:Evar.
      + destruct (select_by_variance_some dft (dft_length self) (word_length self)
                    Hrows Hwl) as [supp [dft' [dl [Hs [Hl Hr]]]]].
        rewrite Hs.
        cbn [anova binning_method word_length alphabet_size
               set_selection set_shape set_bits].
        rewrite Han.
        cbn [anova binning_method word_length alphabet_size
               set_selection set_shape set_bits].
        rewrite Hig, Hkm.
        destruct (Hmcb dft') as [table Ht].
        * destruct dft'; [|discriminate]. destruct dft; [contradiction|discriminate].
        * eapply Forall_impl; [|exact Hr]. simpl. intros; lia.
        * rewrite Ht. eauto.
      + cbn [anova binning_method word_length alphabet_size set_shape set_bits].
        rewrite Han.
        cbn [anova binning_method word_length alphabet_size set_shape set_bits].
        rewrite Hig, Hkm.
        destruct (Hmcb dft Hdne) as [table Ht].
        * eapply Forall_impl; [|exact Hrows]. simpl. intros; lia.
        * rewrite Ht. eauto.
    - destruct (variance self);
        cbn [anova binning_method word_length alphabet_size set_shape set_bits];
        rewrite Han;
        cbn [anova binning_method word_length alphabet_size set_shape set_bits];
        rewrite Hig, Hkm;
        (destruct (Hmcb dft Hdne) as [table Ht];
         [eapply Forall_impl; [|exact Hrows]; simpl; intros; lia
         |rewrite Ht; eauto]). }
  destruct Hb as [self2 [table Hb]]. rewrite Hb. eauto.
Qed.


Lemma fit_guards_exclusive (self : SFA_NEW) (y : option (list Z)) :
  fit_guards self y = None -> variance self = true -> anova self = false.
Proof.
  unfold fit_guards. intros H Hv.
  destruct (alphabet_size self <? 2)%Z; [discriminate|].
  destruct (String.eqb _ _ && _); [discriminate|].
  rewrite Hv in H. destruct (anova self); [discriminate|reflexivity].
Qed.

(** The selection a successful [fit] stores when variance selection is on
    and labels are given. *)
Lemma fit_variance_support (self : SFA_NEW) (X : Panel) (y : option (list Z))
    (self' : SFA_NEW) :
  fit Panel check_X f_classif tree_thresholds kbins_fit self X y = inr self' ->
  variance self = true -> y <> None ->
  exists Xs dft vars m,
    check_X X = inr Xs /\
    _binning_dft Xs (window_size self) (dft_length self) (norm self)
      (inverse_sqrt_win_size self) = Some dft /\
    variances dft (dft_length self) = Some vars /\
    top_variance vars (word_length self) (support self') /\
    StronglySorted lt (support self') /\
    np_max (support self') = Some m /\
    In m (support self') /\
    Forall (fun s => (s <= m)%nat) (support self') /\
    dft_length self' = (m + 1 + (m + 1) mod 2)%nat.
Proof.
  intros Hfit Hv Hy.
  destruct (fit_inv self X y self' Hfit)
    as (Hg & Xs & self1 & self2 & table & Hx & E1 & E2 & E3 & E4 & E5 & E6 & E7
        & E8 & E9 & E10 & Hb & Ht & Hs' & Hd' & Hf).
  pose proof (fit_guards_exclusive self y Hg Hv) as Han.
  destruct (binning_inv self1 Xs y self2 table Hb)
    as (dft & dft2 & Hd & _ & _ & _ & _ & _ & Hsel & _).
  rewrite E1, E2, E3, E4 in Hd.
  destruct Hsel as [dft' Hsel]; [congruence|congruence|assumption|].
  rewrite E2, E5 in Hsel. rewrite <- Hs', <- Hd' in Hsel.
  destruct (select_by_variance_spec _ _ _ _ _ _ Hsel)
    as (vars & m & H1 & H2 & H3 & _ & H5 & H6 & H7 & H8).
  exists Xs, dft, vars, m. repeat split; try assumption; apply H3.
Qed.

(** Without labels the selection is left as [__init__] set it. *)
Lemma fit_unlabelled_support (self : SFA_NEW) (X : Panel) (self' : SFA_NEW) :
  fit Panel check_X f_classif tree_thresholds kbins_fit self X None = inr self' ->
  support self' = support self /\ dft_length self' = dft_length self.
Proof.
  intros Hfit.
  destruct (fit_inv self X None self' Hfit)
    as (Hg & Xs & self1 & self2 & table & Hx & E1 & E2 & E3 & E4 & E5 & E6 & E7
        & E8 & E9 & E10 & Hb & Ht & Hs' & Hd' & Hf).
  destruct (binning_inv self1 Xs None self2 table Hb)
    as (dft & dft2 & Hd & _ & _ & _ & _ & _ & _ & Hkeep).
  destruct Hkeep as [K1 K2]; [now right|now right|].
  split; congruence.
Qed.

End Collaborators.
End EstimatorFacts.

(* ================================================================== *)
(** * The encoder: words, bigrams and the table [transform] uses *)
(* ================================================================== *)

Module EncoderClaims.
Import MachineInt MachineIntFacts Encoder EncoderSpec EncoderFacts.
Local Open Scope Z_scope.

Lemma second_column_table_map (A : Type) (inf : A) (breakpoints : list (list A)) :
  Forall (fun row => (2 <= length row)%nat) breakpoints ->
  second_column_table A inf breakpoints =
    Some (map (fun row => [nth 1 row inf; inf]) breakpoints).
Proof.
  induction 1 as [|row rest Hrow _ IH]; simpl; [reflexivity|].
  rewrite IH. destruct row as [|b0 [|b1 row]]; simpl in *; try lia. reflexivity.
Qed.

Lemma lor_shift_bound (hi lo k : Z) :
  0 <= k -> 0 <= hi < 2 ^ k -> 0 <= lo < 2 ^ k ->
  0 <= Z.lor (Z.shiftl hi k) lo < 2 ^ (2 * k).
Proof.
  intros Hk Hhi Hlo.
  assert (Hs : 0 <= Z.shiftl hi k < 2 ^ (2 * k)).
  { rewrite Z.shiftl_mul_pow2 by lia.
    replace (2 * k) with (k + k) by lia. rewrite Z.pow_add_r by lia. nia. }
  assert (Hl : 0 <= lo < 2 ^ (2 * k)).
  { split; [lia|]. apply Z.lt_le_trans with (2 ^ k); [lia|].
    apply Z.pow_le_mono_r; lia. }
  split; [apply Z.lor_nonneg; lia|].
  destruct (Z.eq_dec k 0) as [->|Hk0].
  { assert (hi = 0) by (simpl in *; lia). assert (lo = 0) by (simpl in *; lia).
    subst. reflexivity. }
  set (x := Z.lor (Z.shiftl hi k) lo).
  assert (0 <= x) by (apply Z.lor_nonneg; lia).
  destruct (Z.eq_dec x 0) as [->|Hx]; [apply Z.pow_pos_nonneg; lia|].
  apply Z.log2_lt_pow2; [lia|]. unfold x.
  rewrite Z.log2_lor by lia.
  apply Z.max_lub_lt.
  - destruct (Z.eq_dec (Z.shiftl hi k) 0) as [->|Hne];
      [change (Z.log2 0) with 0; lia|].
    apply Z.log2_lt_pow2; lia.
  - destruct (Z.eq_dec lo 0) as [->|Hne]; [change (Z.log2 0) with 0; lia|].
    apply Z.log2_lt_pow2; lia.
Qed.



Example bigram_scenario_run :
  generate_words float PrimFloat.leb
    [[[1%float; 0%float]; [0%float; 1%float]; [1%float; 1%float];
      [0%float; 0%float]; [1%float; 0%float]; [0%float; 1%float]]]
    [[0.5%float; infinity]; [0.5%float; infinity]] 1 2 4 true
  = Some [[2; 1; 3; 0; 2; 1; 10; 5]].
Proof. vm_compute. reflexivity. Qed.

(** The table handed to [generate_words], spelled out. *)
Lemma used_table_cases (A : Type) (inf : A) (breakpoints : list (list A)) :
  (2 <= shape1 A breakpoints)%nat ->
  Forall (fun row => length row = shape1 A breakpoints) breakpoints ->
  used_table A inf breakpoints =
    Some (if Nat.eqb (shape1 A breakpoints) 2 then breakpoints
          else map (fun row => [nth 1 row inf; inf]) breakpoints).
Proof.
  intros H2 Hrect. unfold used_table.
  destruct (Nat.eqb (shape1 A breakpoints) 2); [reflexivity|].
  apply second_column_table_map.
  eapply Forall_impl; [|exact Hrect]. simpl. intros row Hr. lia.
Qed.

Lemma transform_case_used_table (A : Type) (leb : A -> A -> bool) (inf : A)
    (dfts : list (list (list A))) (breakpoints table : list (list A))
    (letter_bits word_bits window_size : Z) (bigrams : bool) :
  used_table A inf breakpoints = Some table ->
  _transform_case A leb inf dfts breakpoints letter_bits word_bits window_size bigrams
  = generate_words A leb dfts table letter_bits word_bits window_size bigrams.
Proof.
  unfold used_table, _transform_case.
  destruct (Nat.eqb (shape1 A breakpoints) 2).
  - intros H. inversion H. reflexivity.
  - intros ->. reflexivity.
Qed.

(** Every window's stored word is the 32-bit cut of the packed letters of
    the table, the letters being the smallest matching bins. *)
Lemma generate_words_picks (A : Type) (leb : A -> A -> bool)
    (dfts : list (list (list A))) (table : list (list A))
    (letter_bits word_bits window_size : Z) (bigrams : bool) :
  0 <= letter_bits -> 0 <= window_size ->
  Forall (fun dfts_a =>
            (bigrams = true -> window_size <= Z.of_nat (length dfts_a)) /\
            Forall (fun v => (length v <= length table)%nat) dfts_a) dfts ->
  exists words,
    generate_words A leb dfts table letter_bits word_bits window_size bigrams
      = Some words /\
    Forall2 (fun dfts_a row =>
      forall w v, nth_error dfts_a w = Some v ->
        picks A leb v table (hits A leb v table) /\
        nth_error row w = Some (int32 (pack letter_bits (hits A leb v table))))
      dfts words.
Proof.
  intros Hlb HW Hall.
  apply generate_words_rows.
  eapply Forall_impl; [|exact Hall].
  intros dfts_a [Hn Hv].
  destruct (words_row_spec A leb dfts_a table letter_bits word_bits window_size
              bigrams Hlb HW Hn Hv) as [row [Hrow [_ Hw]]].
  exists row. split; [exact Hrow|].
  intros w v Hwv. destruct (Hw w v Hwv) as [word [He [Hs _]]].
  assert (Hlen : (length v <= length table)%nat).
  { rewrite Forall_forall in Hv. apply Hv. eapply nth_error_In; eauto. }
  split; [apply picks_hits; assumption|].
  destruct (encode_pack A leb letter_bits v table Hlb Hlen) as [word' [He' Hp]].
  rewrite He in He'. inversion He'; subst word'. rewrite Hs. f_equal. assumption.
Qed.




(** C10. When the fitted table has more than two columns, [transform]
    generates the words from the two-column table of the fitted second
    column and +infinity: every letter shifted into a word is 0 or 1, and
    each takes [ceil(log2(alphabet_size))] bits of the word. *)
Theorem wide_table_reduced_to_two_bins (A : Type) (leb : A -> A -> bool) (inf : A)
    (dfts : list (list (list A))) (breakpoints : list (list A))
    (word_bits window_size : Z) (bigrams : bool) :
  0 <= window_size ->
  (2 < shape1 A breakpoints)%nat ->
  Forall (fun row => length row = shape1 A breakpoints) breakpoints ->
  Forall (fun dfts_a =>
            (bigrams = true -> window_size <= Z.of_nat (length dfts_a)) /\
            Forall (fun v => (length v <= length breakpoints)%nat) dfts_a) dfts ->
  let alphabet_size := Z.of_nat (shape1 A breakpoints) in
  let letter_bits := letter_bits_of alphabet_size in
  let table := map (fun row => [nth 1 row inf; inf]) breakpoints in
  exists words,
    _transform_case A leb inf dfts breakpoints letter_bits word_bits
      window_size bigrams = Some words /\
    generate_words A leb dfts table letter_bits word_bits window_size bigrams
      = Some words /\
    Forall2 (fun dfts_a row =>
      forall w v, nth_error dfts_a w = Some v ->
        exists letters,
          picks A leb v table letters /\
          Forall (fun l => l = 0%nat \/ l = 1%nat) letters /\
          nth_error row w = Some (int32 (pack letter_bits letters)))
      dfts words.
Proof.
  intros HW H2 Hrect Hall alphabet_size letter_bits table.
  assert (Hlb : 0 <= letter_bits) by apply Z.log2_up_nonneg.
  assert (Hu : used_table A inf breakpoints = Some table).
  { rewrite used_table_cases by (assumption || lia).
    destruct (Nat.eqb (shape1 A breakpoints) 2) eqn:E; [|reflexivity].
    apply Nat.eqb_eq in E. lia. }
  rewrite (transform_case_used_table A leb inf dfts breakpoints table _ _ _ _ Hu).
  destruct (generate_words_picks A leb dfts table letter_bits word_bits
              window_size bigrams Hlb HW) as [words [Hw HF]].
  { unfold table. rewrite length_map. exact Hall. }
  exists words. split; [exact Hw|]. split; [exact Hw|].
  eapply Forall2_impl; [|exact HF]. simpl.
  intros dfts_a row H w v Hwv. destruct (H w v Hwv) as [Hp Hn].
  exists (hits A leb v table). split; [assumption|]. split; [|assumption].
  assert (Hb : Forall (fun l => (l < 2)%nat) (hits A leb v table)).
  { apply hits_bound. unfold table. apply Forall_map.
    apply Forall_forall. intros; simpl; lia. }
  eapply Forall_impl; [|exact Hb]. simpl. intros; lia.
Qed.

Lemma wide_table_reduced_to_two_bins_witness :
  exists words,
    _transform_case float PrimFloat.leb infinity
      [[[3%float; 0.5%float]; [1.5%float; 2.5%float]]]
      [[1%float; 2%float; infinity]; [1%float; 2%float; infinity]]
      (letter_bits_of 3) 4 1 false = Some words /\
    generate_words float PrimFloat.leb
      [[[3%float; 0.5%float]; [1.5%float; 2.5%float]]]
      [[2%float; infinity]; [2%float; infinity]]
      (letter_bits_of 3) 4 1 false = Some words /\
    Forall2 (fun dfts_a row =>
      forall w v, nth_error dfts_a w = Some v ->
        exists letters,
          picks float PrimFloat.leb v
            [[2%float; infinity]; [2%float; infinity]] letters /\
          Forall (fun l => l = 0%nat \/ l = 1%nat) letters /\
          nth_error row w = Some (int32 (pack (letter_bits_of 3) letters)))
      [[[3%float; 0.5%float]; [1.5%float; 2.5%float]]] words.
Proof.
  apply (wide_table_reduced_to_two_bins float PrimFloat.leb infinity
           [[[3%float; 0.5%float]; [1.5%float; 2.5%float]]]
           [[1%float; 2%float; infinity]; [1%float; 2%float; infinity]]
           4 1 false); try lia.
  - simpl. lia.
  - repeat constructor.
  - repeat constructor; simpl; lia.
Defined.

(** C9, as the code has it.  When the letters of a word fit the 32 bits of
    the output array ([word_length * letter_bits <= 32]) and every
    coefficient of the window falls in some bin of its row, shifting the
    stored word right by [letter_bits] and masking [letter_bits] bits,
    [word_length] times, gives back the bin indices chosen at encode time,
    for every alphabet size from 2 on. *)
Theorem packed_word_round_trip (A : Type) (leb : A -> A -> bool)
    (dfts : list (list (list A))) (table : list (list A))
    (alphabet_size word_bits window_size : Z) (bigrams : bool) :
  2 <= alphabet_size -> 0 <= window_size ->
  Forall (fun row => Z.of_nat (length row) <= alphabet_size) table ->
  Z.of_nat (length table) * letter_bits_of alphabet_size <= 32 ->
  Forall (fun dfts_a =>
            (bigrams = true -> window_size <= Z.of_nat (length dfts_a)) /\
            Forall (fun v =>
                      Forall2 (fun x row => exists b, In b row /\ leb x b = true)
                        v table) dfts_a) dfts ->
  let letter_bits := letter_bits_of alphabet_size in
  exists words,
    generate_words A leb dfts table letter_bits word_bits window_size bigrams
      = Some words /\
    Forall2 (fun dfts_a row =>
      forall w v, nth_error dfts_a w = Some v ->
        exists letters word,
          picks A leb v table letters /\
          length letters = length table /\
          nth_error row w = Some word /\
          unpack letter_bits (length table) word = letters)
      dfts words.
Proof.
  intros Ha HW Hcols Hfit Hall letter_bits.
  assert (Hlb : 0 <= letter_bits) by apply Z.log2_up_nonneg.
  assert (Hpow : alphabet_size <= 2 ^ letter_bits).
  { unfold letter_bits, letter_bits_of. apply Z.log2_up_spec. lia. }
  destruct (generate_words_picks A leb dfts table letter_bits word_bits
              window_size bigrams Hlb HW) as [words [Hw HF]].
  { eapply Forall_impl; [|exact Hall]. simpl. intros dfts_a [Hn Hv].
    split; [assumption|]. eapply Forall_impl; [|exact Hv]. simpl.
    intros v Hv2. apply Forall2_length in Hv2. lia. }
  exists words. split; [exact Hw|].
  assert (HF' : Forall2 (fun dfts_a row =>
            Forall (fun v =>
                      Forall2 (fun x row => exists b, In b row /\ leb x b = true)
                        v table) dfts_a /\
            (forall w v, nth_error dfts_a w = Some v ->
               picks A leb v table (hits A leb v table) /\
               nth_error row w
                 = Some (int32 (pack letter_bits (hits A leb v table)))))
          dfts words).
  { clear Hw. induction HF as [|dfts_a row dfts words H _ IH]; [constructor|].
    inversion Hall as [|? ? [_ Hv] Hrest]; subst.
    constructor; [split; assumption|]. apply IH. assumption. }
  eapply Forall2_impl; [|exact HF']. simpl.
  intros dfts_a row [Hv H] w v Hwv. destruct (H w v Hwv) as [Hp Hn].
  assert (Hv2 : Forall2 (fun x row => exists b, In b row /\ leb x b = true) v table).
  { rewrite Forall_forall in Hv. apply Hv. eapply nth_error_In; eauto. }
  assert (Hlen : length (hits A leb v table) = length table).
  { rewrite (hits_length A leb v table Hv2). eapply Forall2_length; eauto. }
  exists (hits A leb v table), (int32 (pack letter_bits (hits A leb v table))).
  split; [assumption|]. split; [assumption|]. split; [assumption|].
  rewrite <- Hlen. apply unpack_int32_pack; [assumption| |lia].
  assert (Hb : Forall (fun l => (l < Z.to_nat alphabet_size)%nat) (hits A leb v table)).
  { apply hits_bound. eapply Forall_impl; [|exact Hcols]. simpl. intros; lia. }
  eapply Forall_impl; [|exact Hb]. simpl. intros; lia.
Qed.

(** Alphabet size 3 (two letter bits), word length 2. *)
Lemma packed_word_round_trip_witness :
  exists words,
    generate_words float PrimFloat.leb
      [[[3%float; 0.5%float]; [1.5%float; 2.5%float]]]
      [[1%float; 2%float; infinity]; [1%float; 2%float; infinity]]
      (letter_bits_of 3) 4 1 false = Some words /\
    Forall2 (fun dfts_a row =>
      forall w v, nth_error dfts_a w = Some v ->
        exists letters word,
          picks float PrimFloat.leb v
            [[1%float; 2%float; infinity]; [1%float; 2%float; infinity]] letters /\
          length letters = 2%nat /\
          nth_error row w = Some word /\
          unpack (letter_bits_of 3) 2 word = letters)
      [[[3%float; 0.5%float]; [1.5%float; 2.5%float]]] words.
Proof.
  apply (packed_word_round_trip float PrimFloat.leb
           [[[3%float; 0.5%float]; [1.5%float; 2.5%float]]]
           [[1%float; 2%float; infinity]; [1%float; 2%float; infinity]]
           3 4 1 false); try lia.
  - repeat constructor; simpl; lia.
  - vm_compute. discriminate.
  - repeat constructor; try discriminate;
      (exists infinity; split; [simpl; tauto|reflexivity]).
Defined.

(** C9 as stated fails: alphabet size 2 and word length 34 are a valid
    configuration, the first coefficient falls in bin 1 and the others in
    bin 0; the 34-bit word [2^33] is stored as 0, which unpacks to 34 zeros. *)
Lemma round_trip_fails_beyond_32_bits :
  picks float PrimFloat.leb (1%float :: repeat 0%float 33)
    (repeat [0.5%float; infinity] 34) (1%nat :: repeat 0%nat 33) /\
  generate_words float PrimFloat.leb [[1%float :: repeat 0%float 33]]
    (repeat [0.5%float; infinity] 34) (letter_bits_of 2) 34 4 false
    = Some [[0]] /\
  unpack (letter_bits_of 2) 34 0 <> 1%nat :: repeat 0%nat 33.
Proof.
  split; [|split].
  - assert (E : hits float PrimFloat.leb (1%float :: repeat 0%float 33)
                  (repeat [0.5%float; infinity] 34) = 1%nat :: repeat 0%nat 33)
      by (vm_compute; reflexivity).
    rewrite <- E. apply picks_hits. simpl. lia.
  - vm_compute. reflexivity.
  - vm_compute. discriminate.
Qed.

End EncoderClaims.

(* ================================================================== *)
(** * The reducer: incremental update and sliding windows *)
(* ================================================================== *)

Module SpectralClaims.
Import Segmenter SegmenterFacts Spectral SpectralSpec SpectralFacts.
Local Open Scope R_scope.

Lemma all_some_map (A B : Type) (f : A -> option B) (X : list A) :
  Forall (fun x => exists r, f x = Some r) X ->
  exists out,
    all_some B (map f X) = Some out /\
    forall a x, nth_error X a = Some x ->
      exists r, nth_error out a = Some r /\ f x = Some r.
Proof.
  induction 1 as [|x X [r Hr] _ [out [Hout Hnth]]].
  - exists []. split; [reflexivity|]. intros [|a] x H; discriminate.
  - exists (r :: out). cbn [map all_some]. rewrite Hr, Hout.
    split; [reflexivity|]. intros [|a] y Hy; simpl in Hy.
    + inversion Hy; subst. exists r. auto.
    + apply Hnth. assumption.
Qed.



(** C5. For every series of length [L] of the batch [_mft] returns
    [L - window_size + 1] rows when [window_size <= L], row [w] being the
    transform of the samples [x[w : w + window_size]] (stride one), and one
    row when [window_size >= L], computed from the spectrum of the whole
    series. *)
Theorem sliding_window_count (X : list (list R)) (W h0 : nat)
    (norm : bool) (support : list nat) (anova variance : bool) (inv : R) :
  (0 < W)%nat ->
  (anova || variance = true ->
   StronglySorted lt support /\ Forall (fun s => (s < 2 * h0)%nat) support) ->
  Forall (fun x => (h0 + (if norm then 1 else 0)
                    <= Nat.min W (length x) / 2 + 1)%nat) X ->
  exists dfts,
    _mft X W (2 * h0) norm support anova variance inv = Some dfts /\
    forall a x, nth_error X a = Some x ->
      exists rows,
        nth_error dfts a = Some rows /\
        ((W <= length x)%nat ->
         length rows = (length x - W + 1)%nat /\
         forall w, (w + W <= length x)%nat ->
           Z.of_nat (length (window x W w)) = Z.of_nat W /\
           exists row,
             nth_error rows w = Some row /\
             direct_transform (window x W w) norm (2 * h0) support
               (anova || variance) inv = Some row) /\
        ((length x <= W)%nat ->
         pyslice R x 0 (Z.of_nat W) = x /\
         let std := std_of_sums (sum x) (sum (map (fun v => v * v) x)) (1 / INR W) in
         let scaled :=
           map (fun v => v * inv / std)
             (spectrum x (h0 + (if norm then 1 else 0))) in
         rows = [if anova || variance
                 then map (fun s => nth (s + (if norm then 2 else 0)) scaled 0) support
                 else skipn (if norm then 2 else 0) scaled]).
Proof.
  intros HW Hsel Hbins.
  assert (Hlong : forall x w, In x X -> (w + W <= length x)%nat ->
            exists rows row,
              mft_series x W (2 * h0) norm support anova variance inv = Some rows /\
              length rows = (length x - W + 1)%nat /\
              nth_error rows w = Some row /\
              direct_transform (window x W w) norm (2 * h0) support
                (anova || variance) inv = Some row).
  { intros x w Hx Hw. apply mft_row_direct; auto.
    rewrite Forall_forall in Hbins. specialize (Hbins x Hx).
    rewrite Nat.min_l in Hbins by lia. exact Hbins. }
  assert (Hshort : forall x, In x X -> (length x <= W)%nat ->
            pyslice R x 0 (Z.of_nat W) = x /\
            mft_series x W (2 * h0) norm support anova variance inv =
            Some [if anova || variance
                  then map (fun s => nth (s + (if norm then 2 else 0))
                                       (map (fun v => v * inv /
                                               std_of_sums (sum x)
                                                 (sum (map (fun v => v * v) x))
                                                 (1 / INR W))
                                          (spectrum x (h0 + (if norm then 1 else 0))))
                                       0) support
                  else skipn (if norm then 2 else 0)
                         (map (fun v => v * inv /
                                 std_of_sums (sum x)
                                   (sum (map (fun v => v * v) x)) (1 / INR W))
                            (spectrum x (h0 + (if norm then 1 else 0))))]).
  { intros x Hx Hw. apply mft_series_whole; auto.
    rewrite Forall_forall in Hbins. specialize (Hbins x Hx).
    rewrite Nat.min_r in Hbins by lia. exact Hbins. }
  unfold _mft.
  destruct (all_some_map (list R) (list (list R))
              (fun x => mft_series x W (2 * h0) norm support anova variance inv) X)
    as [dfts [Hd Hnth]].
  { apply Forall_forall. intros x Hx.
    destruct (Nat.le_gt_cases W (length x)) as [Hle|Hgt].
    - destruct (Hlong x 0%nat Hx ltac:(lia)) as [rows [_ [H _]]]. eauto.
    - destruct (Hshort x Hx ltac:(lia)) as [_ H]. eauto. }
  exists dfts. split; [exact Hd|].
  intros a x Hx. destruct (Hnth a x Hx) as [rows [Ha Hrows]].
  assert (Hin : In x X) by (eapply nth_error_In; eauto).
  exists rows. split; [exact Ha|]. split.
  - intros Hle. split.
    + destruct (Hlong x 0%nat Hin ltac:(lia)) as [rows' [_ [H1 [H2 _]]]].
      rewrite Hrows in H1. inversion H1; subst rows'. exact H2.
    + intros w Hw. split; [now rewrite window_length|].
      destruct (Hlong x w Hin Hw) as [rows' [row [H1 [_ [H3 H4]]]]].
      rewrite Hrows in H1. inversion H1; subst rows'. exists row. auto.
  - intros Hge. destruct (Hshort x Hin Hge) as [Hall H].
    split; [exact Hall|]. cbv zeta. rewrite Hrows in H. now inversion H.
Qed.

(** Five sliding windows for the series [1 .. 8] and [window_size = 4]. *)
Lemma sliding_window_count_witness :
  exists dfts rows,
    _mft [[1; 2; 3; 4; 5; 6; 7; 8]] 4 2 false [0%nat; 1%nat] false false
      (1 / sqrt 4) = Some dfts /\
    nth_error dfts 0 = Some rows /\
    length rows = 5%nat.
Proof.
  destruct (sliding_window_count [[1; 2; 3; 4; 5; 6; 7; 8]] 4 1
              false [0%nat; 1%nat] false false (1 / sqrt 4))
    as [dfts [Hd Hrows]].
  - lia.
  - intros H. discriminate H.
  - apply Forall_cons; [simpl; lia|apply Forall_nil].
  - destruct (Hrows 0%nat [1; 2; 3; 4; 5; 6; 7; 8] eq_refl)
      as [rows [H1 [H2 _]]].
    exists dfts, rows. split; [exact Hd|]. split; [exact H1|].
    apply H2. simpl. lia.
Defined.

End SpectralClaims.

(* ================================================================== *)
(** * The fit: windows, guards, selection and breakpoints *)
(* ================================================================== *)

Module FitClaims.
Import Segmenter SegmenterFacts Spectral SpectralSpec SpectralFacts.
Import Discretizer DiscretizerSpec DiscretizerFacts Estimator EstimatorFacts.
Import Scenario.
Local Open Scope R_scope.

(** ** The scenario: two series of four samples, one window each *)

Lemma sum_waves : sum [1; 0; -1; 0] = 0 /\ sum [-1; 0; 1; 0] = 0.
Proof. unfold sum. simpl. split; ring. Qed.

Lemma rfft_re_waves :
  rfft_re [1; 0; -1; 0] 1 = 2 /\ rfft_re [-1; 0; 1; 0] 1 = -2.
Proof.
  unfold rfft_re. cbn [length rsum nth].
  replace (2 * PI * INR 0 * INR 1 / INR 4) with 0 by (simpl; field).
  replace (2 * PI * INR 2 * INR 1 / INR 4) with PI by (simpl; field).
  rewrite cos_0, cos_PI. split; ring.
Qed.

Lemma window_std_pos (x : list R) : 0 < window_std x.
Proof. unfold window_std. destruct (Rlt_dec (np_std x) 1e-8); lra. Qed.

Lemma inverse_sqrt_4_pos : 0 < 1 / sqrt (INR 4).
Proof.
  apply Rdiv_lt_0_compat; [lra|]. apply sqrt_lt_R0. simpl. lra.
Qed.

Lemma two_waves_fit_matrix (h0 : nat) (inv : R) :
  (h0 <= 3)%nat ->
  _binning_dft two_waves 4 (2 * h0) false inv =
  Some (map (fun x => map (fun v => v / window_std x * inv) (spectrum x h0))
          two_waves).
Proof.
  intros H.
  rewrite (binning_dft_whole two_waves 4 h0 false inv).
  - cbn [skipn]. rewrite Nat.add_0_r. reflexivity.
  - lia.
  - unfold two_waves. repeat (apply Forall_cons; [reflexivity|]). apply Forall_nil.
  - simpl. lia.
Qed.


Lemma depth_sfa_fit_succeeds :
  exists self',
    fit (list (list R)) check_X_id no_f_classif no_tree no_kbins depth_sfa
      two_waves None = inr self'.
Proof.
  apply (fit_mcb_succeeds (list (list R)) check_X_id no_f_classif no_tree no_kbins
           depth_sfa two_waves None two_waves 1).
  - reflexivity.
  - reflexivity.
  - discriminate.
  - simpl. lia.
  - unfold two_waves. repeat (apply Forall_cons; [simpl; lia|]). apply Forall_nil.
  - reflexivity.
  - simpl. lia.
  - reflexivity.
  - simpl. lia.
  - discriminate.
  - reflexivity.
  - reflexivity.
Qed.

Lemma variance_sfa_fit_succeeds (word_length : nat) (y : option (list Z)) :
  (1 <= word_length <= 4)%nat -> y <> Some [] ->
  exists self',
    fit (list (list R)) check_X_id no_f_classif no_tree no_kbins
      (variance_sfa word_length) two_waves y = inr self'.
Proof.
  intros Hw Hy.
  apply (fit_mcb_succeeds (list (list R)) check_X_id no_f_classif no_tree no_kbins
           (variance_sfa word_length) two_waves y two_waves 2).
  - reflexivity.
  - reflexivity.
  - discriminate.
  - simpl. lia.
  - unfold two_waves. repeat (apply Forall_cons; [simpl; lia|]). apply Forall_nil.
  - reflexivity.
  - simpl. lia.
  - reflexivity.
  - simpl. lia.
  - assumption.
  - reflexivity.
  - reflexivity.
Qed.

Lemma np_var_pair (a b : R) : np_var [a; b] = (a - b) * (a - b) / 4.
Proof. unfold np_var, mean, sum. simpl. field. Qed.

(** The variances of the fit matrix of the scenario: the zero-frequency
    column is constant, the first-harmonic column is not. *)
Lemma two_waves_variances (inv : R) :
  0 < inv ->
  exists dft vars,
    _binning_dft two_waves 4 4 false inv = Some dft /\
    variances dft 4 = Some vars /\
    length vars = 4%nat /\
    nth 0 vars 0 < nth 2 vars 0.
Proof.
  intros Hinv.
  change 4%nat with (2 * 2)%nat at 2.
  rewrite two_waves_fit_matrix by lia.
  unfold two_waves, spectrum. cbn [map seq interleave].
  rewrite !rfft_re_0. destruct sum_waves as [-> ->].
  destruct rfft_re_waves as [-> ->].
  set (c1 := window_std [1; 0; -1; 0]). set (c2 := window_std [-1; 0; 1; 0]).
  assert (H1 : 0 < c1) by apply window_std_pos.
  assert (H2 : 0 < c2) by apply window_std_pos.
  eexists. eexists. split; [reflexivity|]. split; [reflexivity|].
  split; [reflexivity|].
  cbn [map nth]. rewrite !np_var_pair.
  assert (Ha : 0 < 2 / c1 * inv).
  { apply Rmult_lt_0_compat; [apply Rdiv_lt_0_compat; lra|assumption]. }
  assert (Hb : 0 < 2 / c2 * inv).
  { apply Rmult_lt_0_compat; [apply Rdiv_lt_0_compat; lra|assumption]. }
  replace (-2 / c2 * inv) with (- (2 / c2 * inv)) by (field; lra).
  replace ((0 / c1 * inv - 0 / c2 * inv) * (0 / c1 * inv - 0 / c2 * inv) / 4)
    with 0 by (field; lra).
  nra.
Qed.

(** C6, at the input where the code departs from it: a series of five
    samples and [window_size = 7].  The fit-time segmentation gives one
    window, but it holds the last two samples, [x[-2:5]], and not the whole
    series; the slice [x[:7]] that [_mft] takes at transform time holds all
    five. *)
Theorem fit_window_wraps_past_series_start :
  binning_windows float
    [1%float; 2%float; 3%float; 4%float; 5%float] 7
  = Some [[4%float; 5%float]] /\
  pyslice float [1%float; 2%float; 3%float; 4%float; 5%float] 0 7
  = [1%float; 2%float; 3%float; 4%float; 5%float].
Proof. split; vm_compute; reflexivity. Qed.

(** C8. [fit] raises before looking at the panel exactly when the alphabet
    size is below 2, or information-gain binning is asked for without
    labels, or both variance and ANOVA selection are asked for, or the
    binning method is none of the four names; the last error carries the
    four names; the error does not depend on the panel, and with none of
    the four conditions [fit] goes on to its body.  [transform] on an object
    that has not been fitted raises the not-fitted error. *)
Theorem fit_rejects_bad_configuration (Panel : Type)
    (check_X : Panel -> exn + list (list R))
    (f_classif : list (list R) -> list Z -> list R)
    (tree_thresholds : Z -> list R -> list Z -> list R)
    (kbins_fit : Z -> String.string -> list (list R) -> bin_edges)
    (self : SFA_NEW) (y : option (list Z)) :
  let small := (alphabet_size self < 2)%Z in
  let unlabelled := binning_method self = "information-gain"%string /\ y = None in
  let both := variance self = true /\ anova self = true in
  let unknown := ~ In (binning_method self) binning_methods in
  ((small \/ unlabelled \/ both \/ unknown) <->
   exists e, fit_guards self y = Some e) /\
  (forall e, fit_guards self y = Some e ->
     (exists msg, e = ValueError msg) \/
     (unknown /\
      e = TypeError "binning_method must be one of: "%string
            ["equi-depth"%string; "equi-width"%string;
             "information-gain"%string; "kmeans"%string])) /\
  (~ small -> ~ unlabelled -> ~ both -> unknown ->
   fit_guards self y =
     Some (TypeError "binning_method must be one of: "%string
             ["equi-depth"%string; "equi-width"%string;
              "information-gain"%string; "kmeans"%string])) /\
  (forall e X, fit_guards self y = Some e ->
     fit Panel check_X f_classif tree_thresholds kbins_fit self X y = inl e) /\
  (forall X, fit_guards self y = None ->
     fit Panel check_X f_classif tree_thresholds kbins_fit self X y
     = fit_body Panel check_X f_classif tree_thresholds kbins_fit self X y) /\
  (forall X, _is_fitted self = false ->
     transform Panel check_X self X = inl NotFittedError) /\
  (forall word_length alphabet_size window_size norm binning_method anova
          variance bigrams X,
     transform Panel check_X
       (__init__ word_length alphabet_size window_size norm binning_method
          anova variance bigrams) X = inl NotFittedError).
Proof.
  intros small unlabelled both unknown.
  assert (Hmem : existsb (String.eqb (binning_method self)) binning_methods = true
                 <-> In (binning_method self) binning_methods).
  { rewrite existsb_exists. split.
    - intros [s [Hin Hs]]. apply String.eqb_eq in Hs. now subst.
    - intros Hin. exists (binning_method self). split; [assumption|].
      apply String.eqb_refl. }
  assert (Hcases :
    match fit_guards self y with
    | Some e =>
        (small \/ unlabelled \/ both \/ unknown) /\
        (((exists msg, e = ValueError msg) /\ (small \/ unlabelled \/ both)) \/
         (~ small /\ ~ unlabelled /\ ~ both /\ unknown /\
          e = TypeError "binning_method must be one of: "%string binning_methods))
    | None => ~ small /\ ~ unlabelled /\ ~ both /\ ~ unknown
    end).
  { unfold fit_guards, small, unlabelled, both, unknown.
    destruct (alphabet_size self <? 2)%Z eqn:E1.
    { apply Z.ltb_lt in E1. split; [now left|left; split; [eauto|now left]]. }
    apply Z.ltb_ge in E1.
    destruct (String.eqb (binning_method self) "information-gain"
              && match y with None => true | Some _ => false end) eqn:E2.
    { apply andb_prop in E2. destruct E2 as [E2 E2'].
      apply String.eqb_eq in E2. destruct y; [discriminate|].
      split; [right; left; auto|left; split; [eauto|right; left; auto]]. }
    destruct (variance self && anova self) eqn:E3.
    { apply andb_prop in E3.
      split; [right; right; left; exact E3|left; split; [eauto|right; right; exact E3]]. }
    assert (N2 : ~ (binning_method self = "information-gain"%string /\ y = None)).
    { intros [Hb Hy]. rewrite Hb, Hy in E2. discriminate. }
    assert (N3 : ~ (variance self = true /\ anova self = true)).
    { intros [Hv Ha]. rewrite Hv, Ha in E3. discriminate. }
    destruct (existsb (String.eqb (binning_method self)) binning_methods) eqn:E4;
      cbn [negb].
    - assert (Y4 : In (binning_method self) binning_methods)
        by (apply Hmem; reflexivity).
      repeat split; auto; lia.
    - assert (N4 : ~ In (binning_method self) binning_methods).
      { intros Hin. apply Hmem in Hin. discriminate. }
      split; [right; right; right; exact N4|].
      right. repeat split; auto; lia. }
  split; [|split; [|split; [|split; [|split; [|split]]]]].
  - destruct (fit_guards self y) as [e|].
    + split; [eauto|]. intros _. apply Hcases.
    + split; [|intros [e He]; discriminate]. tauto.
  - intros e He. rewrite He in Hcases. destruct Hcases as [_ [[H _]|H]]; [now left|].
    right. tauto.
  - intros H1 H2 H3 H4. destruct (fit_guards self y) as [e|].
    + destruct Hcases as [_ [[_ H]|H]].
      * exfalso. tauto.
      * destruct H as (_ & _ & _ & _ & ->). reflexivity.
    + tauto.
  - intros e X He. unfold fit. now rewrite He.
  - intros X He. unfold fit. now rewrite He.
  - intros X Hf. unfold transform, check_is_fitted. now rewrite Hf.
  - intros. reflexivity.
Qed.




(** C7, as the code has it.  After a successful [fit] with [variance=True]
    and labels given, the stored support holds [word_length] distinct
    coefficient indices, none of the indices left out has a larger variance
    over the fit matrix of all training windows than a chosen one, the
    support ascends, and the stored [dft_length] is [max(support) + 1]
    rounded up to even. *)
Theorem variance_support_with_labels (Panel : Type)
    (check_X : Panel -> exn + list (list R))
    (f_classif : list (list R) -> list Z -> list R)
    (tree_thresholds : Z -> list R -> list Z -> list R)
    (kbins_fit : Z -> String.string -> list (list R) -> bin_edges)
    (self : SFA_NEW) (X : Panel) (y : option (list Z)) (self' : SFA_NEW) :
  fit Panel check_X f_classif tree_thresholds kbins_fit self X y = inr self' ->
  variance self = true -> y <> None ->
  exists Xs dft vars m,
    check_X X = inr Xs /\
    _binning_dft Xs (window_size self) (dft_length self) (norm self)
      (inverse_sqrt_win_size self) = Some dft /\
    variances dft (dft_length self) = Some vars /\
    top_variance vars (word_length self) (support self') /\
    StronglySorted lt (support self') /\
    np_max (support self') = Some m /\
    In m (support self') /\
    Forall (fun s => (s <= m)%nat) (support self') /\
    dft_length self' = (m + 1 + (m + 1) mod 2)%nat.
Proof.
  intros Hfit Hv Hy.
  exact (fit_variance_support Panel check_X f_classif tree_thresholds kbins_fit
           self X y self' Hfit Hv Hy).
Qed.

Lemma variance_support_with_labels_witness :
  exists self' Xs dft vars m,
    fit (list (list R)) check_X_id no_f_classif no_tree no_kbins (variance_sfa 2)
      two_waves (Some [0%Z; 1%Z]) = inr self' /\
    check_X_id two_waves = inr Xs /\
    _binning_dft Xs 4 4 false (1 / sqrt (INR 4)) = Some dft /\
    variances dft 4 = Some vars /\
    top_variance vars 2 (support self') /\
    StronglySorted lt (support self') /\
    np_max (support self') = Some m /\
    In m (support self') /\
    Forall (fun s => (s <= m)%nat) (support self') /\
    dft_length self' = (m + 1 + (m + 1) mod 2)%nat.
Proof.
  destruct (variance_sfa_fit_succeeds 2 (Some [0%Z; 1%Z])) as [self' Hfit];
    [lia|discriminate|].
  destruct (variance_support_with_labels (list (list R)) check_X_id no_f_classif
              no_tree no_kbins (variance_sfa 2) two_waves (Some [0%Z; 1%Z]) self'
              Hfit) as (Xs & dft & vars & m & H);
    [reflexivity|discriminate|].
  exists self', Xs, dft, vars, m. split; [exact Hfit|exact H].
Defined.

(** C7 as stated fails without labels: with [variance=True],
    [word_length = 1] and [y = None] the fit succeeds, the support stays
    [[0]] and [dft_length] stays 4 as [__init__] set them, although column 2
    of the fit matrix has a larger variance than column 0. *)
Lemma variance_ignored_without_labels :
  exists self' dft vars,
    fit (list (list R)) check_X_id no_f_classif no_tree no_kbins (variance_sfa 1)
      two_waves None = inr self' /\
    variance (variance_sfa 1) = true /\
    _binning_dft two_waves 4 4 false (1 / sqrt (INR 4)) = Some dft /\
    variances dft 4 = Some vars /\
    support self' = [0%nat] /\
    dft_length self' = 4%nat /\
    nth 0 vars 0 < nth 2 vars 0 /\
    ~ top_variance vars 1 (support self').
Proof.
  destruct (variance_sfa_fit_succeeds 1 None) as [self' Hfit];
    [lia|discriminate|].
  destruct (two_waves_variances (1 / sqrt (INR 4)) inverse_sqrt_4_pos)
    as (dft & vars & Hd & Hv & Hlen & Hlt).
  destruct (fit_unlabelled_support (list (list R)) check_X_id no_f_classif
              no_tree no_kbins (variance_sfa 1) two_waves self' Hfit)
    as [Hs Hl].
  exists self', dft, vars.
  split; [exact Hfit|]. split; [reflexivity|]. split; [exact Hd|].
  split; [exact Hv|]. split; [exact Hs|]. split; [exact Hl|].
  split; [exact Hlt|].
  rewrite Hs. intros (_ & _ & _ & Htop).
  specialize (Htop 0%nat 2%nat).
  assert (nth 2 vars 0 <= nth 0 vars 0).
  { apply Htop.
    - now left.
    - rewrite Hlen. lia.
    - intros [H|[]]. discriminate. }
  lra.
Qed.

End FitClaims.
(* ================================================================== *)
(** * More on the encoder: order, bounds and bigrams *)
(* ================================================================== *)

Module EncoderProperties.
Import MachineInt MachineIntFacts Encoder EncoderSpec EncoderFacts.
Import Discretizer DiscretizerFacts.
Local Open Scope Z_scope.

Section Order.
Variable A : Type.
Variable leb : A -> A -> bool.
Hypothesis leb_trans :
  forall a b c, leb a b = true -> leb b c = true -> leb a c = true.

Lemma scan_sorted_from (v : A) (row : list A) :
  StronglySorted (fun a b => leb a b = true) row ->
  forall k,
    scan A leb v row k =
      let below := length (filter (fun b => negb (leb v b)) row) in
      if (below <? length row)%nat then Some (k + below)%nat else None.
Proof.
  induction 1 as [|b row Hs IH Hb]; intros k; [reflexivity|].
  cbn [scan filter]. destruct (leb v b) eqn:E; cbn [negb].
  - assert (Hnone : filter (fun b0 => negb (leb v b0)) row = []).
    { clear IH Hs. induction row as [|c row IHr]; [reflexivity|].
      inversion Hb as [|? ? Hc Hrest]; subst. cbn [filter].
      rewrite (leb_trans v b c E Hc). cbn [negb]. apply IHr; assumption. }
    rewrite Hnone. cbn [length]. cbv zeta.
    replace (0 <? S (length row))%nat with true by (symmetry; apply Nat.ltb_lt; lia).
    f_equal. lia.
  - rewrite IH. cbv zeta. cbn [length].
    set (below := length (filter (fun b0 => negb (leb v b0)) row)).
    replace (S below <? S (length row))%nat with (below <? length row)%nat
      by reflexivity.
    destruct (below <? length row)%nat; [f_equal; lia|reflexivity].
Qed.

Lemma scan_monotone_from (v v' : A) (row : list A) :
  leb v v' = true ->
  forall k bp', scan A leb v' row k = Some bp' ->
    exists bp, scan A leb v row k = Some bp /\ (bp <= bp')%nat.
Proof.
  intros Hv. induction row as [|b row IH]; intros k bp' H; [discriminate|].
  cbn [scan] in *. destruct (leb v' b) eqn:E'.
  - inversion H; subst. rewrite (leb_trans v v' b Hv E'). eauto.
  - destruct (leb v b).
    + exists k. split; [reflexivity|].
      pose proof (scan_some A leb v' row (S k) bp' H). lia.
    + apply IH. assumption.
Qed.

End Order.

Section Bounds.
Variable A : Type.
Variable leb : A -> A -> bool.




End Bounds.

Lemma lor_lt_pow2 (a b m : Z) :
  0 <= m -> 0 <= a < 2 ^ m -> 0 <= b < 2 ^ m -> 0 <= Z.lor a b < 2 ^ m.
Proof.
  intros Hm Ha Hb. split; [apply Z.lor_nonneg; lia|].
  destruct (Z.eq_dec m 0) as [->|Hm0].
  { change (2 ^ 0) with 1 in *. assert (a = 0) by lia. assert (b = 0) by lia.
    subst. reflexivity. }
  assert (Hz : 0 <= Z.lor a b) by (apply Z.lor_nonneg; lia).
  destruct (Z.eq_dec (Z.lor a b) 0) as [E|Hne]; [rewrite E; lia|].
  apply Z.log2_lt_pow2; [lia|]. rewrite Z.log2_lor by lia.
  apply Z.max_lub_lt.
  - destruct (Z.eq_dec a 0) as [Ea|Hna]; [rewrite Ea; change (Z.log2 0) with 0; lia|].
    apply Z.log2_lt_pow2; lia.
  - destruct (Z.eq_dec b 0) as [Eb|Hnb]; [rewrite Eb; change (Z.log2 0) with 0; lia|].
    apply Z.log2_lt_pow2; lia.
Qed.

Lemma pack_bound (letter_bits : Z) (letters : list nat) :
  0 <= letter_bits ->
  Forall (fun l => Z.of_nat l < 2 ^ letter_bits) letters ->
  0 <= pack letter_bits letters < 2 ^ (Z.of_nat (length letters) * letter_bits).
Proof.
  intros Hlb. induction letters as [|x letters IH] using rev_ind; intros HF.
  - cbn. lia.
  - apply Forall_app in HF. destruct HF as [HF Hx].
    inversion Hx as [|? ? Hx' _]; subst.
    specialize (IH HF). rewrite pack_snoc, length_app. cbn [length].
    set (p := pack letter_bits letters) in *.
    set (n := Z.of_nat (length letters)) in *.
    replace (Z.of_nat (length letters + 1) * letter_bits)
      with (n * letter_bits + letter_bits) by (unfold n; lia).
    assert (Hn : 0 <= n * letter_bits) by (unfold n; nia).
    apply lor_lt_pow2; [lia| |].
    + rewrite Z.shiftl_mul_pow2 by lia. rewrite Z.pow_add_r by lia. nia.
    + split; [lia|]. apply Z.lt_le_trans with (2 ^ letter_bits); [assumption|].
      apply Z.pow_le_mono_r; lia.
Qed.

Lemma hits_le_length (A : Type) (leb : A -> A -> bool) (vector : list A) :
  forall table, (length (hits A leb vector table) <= length vector)%nat.
Proof.
  induction vector as [|v vector IH]; intros table; [cbn; lia|].
  destruct table as [|row table]; cbn [hits length]; [lia|].
  specialize (IH table). destruct (scan A leb v row 0); cbn [length]; lia.
Qed.

(** X1. On a row that is non-decreasing for a transitive [<=], the letter
    the inner loop of [generate_words] finds is the number of breakpoints
    the coefficient exceeds, which is what the commented-out
    [np.searchsorted(breakpoints[i], dfts[a, window, i])] would return; a
    coefficient that exceeds every breakpoint gets no letter. *)
Theorem scan_counts_exceeded_breakpoints (A : Type) (leb : A -> A -> bool)
    (v : A) (row : list A) :
  (forall a b c, leb a b = true -> leb b c = true -> leb a c = true) ->
  StronglySorted (fun a b => leb a b = true) row ->
  scan A leb v row 0 =
    let below := length (filter (fun b => negb (leb v b)) row) in
    if (below <? length row)%nat then Some below else None.
Proof.
  intros Ht Hs. rewrite (scan_sorted_from A leb Ht v row Hs 0). reflexivity.
Qed.

Lemma scan_counts_exceeded_breakpoints_witness :
  scan xreal xleb (Fin 2) [Fin 1; Fin 2; Fin 3; PInf] 0 =
    let below :=
      length (filter (fun b => negb (xleb (Fin 2) b)) [Fin 1; Fin 2; Fin 3; PInf]) in
    if (below <? 4)%nat then Some below else None.
Proof.
  apply (scan_counts_exceeded_breakpoints xreal xleb (Fin 2)
           [Fin 1; Fin 2; Fin 3; PInf] xleb_trans).
  repeat (apply SSorted_cons || apply SSorted_nil || apply Forall_cons
          || apply Forall_nil);
    try reflexivity; apply Rleb_le; lra.
Defined.

(** X2. The letter never decreases with the coefficient: for a transitive
    [<=], if [v <= v'] and [v'] gets letter [bp'] on a row, then [v] gets a
    letter on that row too, and it is at most [bp'].  The row need not be
    sorted. *)
Theorem letter_is_monotone (A : Type) (leb : A -> A -> bool)
    (v v' : A) (row : list A) (bp' : nat) :
  (forall a b c, leb a b = true -> leb b c = true -> leb a c = true) ->
  leb v v' = true ->
  scan A leb v' row 0 = Some bp' ->
  exists bp, scan A leb v row 0 = Some bp /\ (bp <= bp')%nat.
Proof.
  intros Ht Hv H. exact (scan_monotone_from A leb Ht v v' row Hv 0 bp' H).
Qed.

Lemma letter_is_monotone_witness :
  exists bp,
    scan xreal xleb (Fin 1) [Fin 1; Fin 2; Fin 3; PInf] 0 = Some bp /\ (bp <= 2)%nat.
Proof.
  apply (letter_is_monotone xreal xleb (Fin 1) (Fin 3)
           [Fin 1; Fin 2; Fin 3; PInf] 2 xleb_trans).
  - apply Rleb_le. lra.
  - cbn [scan xleb]. unfold Rleb.
    destruct (Rle_dec 3 1); [lra|]. destruct (Rle_dec 3 2); [lra|].
    destruct (Rle_dec 3 3); [reflexivity|lra].
Defined.



(** X4. When every row of the table has at most [2^letter_bits] columns and
    the letters of a vector fit 31 bits, the word [generate_words] stores for
    the vector is not negative and is below [2^(len(vector) * letter_bits)]:
    the 32-bit store keeps it as computed. *)
Theorem stored_word_fits_its_bits (A : Type) (leb : A -> A -> bool)
    (letter_bits : Z) (vector : list A) (table : list (list A)) :
  0 <= letter_bits ->
  (length vector <= length table)%nat ->
  Forall (fun row => Z.of_nat (length row) <= 2 ^ letter_bits) table ->
  Z.of_nat (length vector) * letter_bits < 32 ->
  exists word,
    encode A leb letter_bits vector table 0 = Some word /\
    int32 word = pack letter_bits (hits A leb vector table) /\
    0 <= int32 word < 2 ^ (Z.of_nat (length vector) * letter_bits).
Proof.
  intros Hlb Hlen Hrows Hbits.
  destruct (encode_pack A leb letter_bits vector table Hlb Hlen) as [word [He Hw]].
  exists word. split; [exact He|].
  assert (Hl : Forall (fun l => Z.of_nat l < 2 ^ letter_bits)
                 (hits A leb vector table)).
  { assert (Hp : 0 < 2 ^ letter_bits) by (apply Z.pow_pos_nonneg; lia).
    pose proof (hits_bound A leb (Z.to_nat (2 ^ letter_bits)) vector table) as Hb.
    eapply Forall_impl; [|apply Hb].
    - cbn beta. intros l Hl. lia.
    - eapply Forall_impl; [|exact Hrows]. cbn beta. intros row Hr. lia. }
  pose proof (pack_bound letter_bits _ Hlb Hl) as Hp.
  pose proof (hits_le_length A leb vector table) as Hh.
  assert (Hmono : 2 ^ (Z.of_nat (length (hits A leb vector table)) * letter_bits)
                  <= 2 ^ (Z.of_nat (length vector) * letter_bits)).
  { apply Z.pow_le_mono_r; [lia|nia]. }
  assert (Htop : 2 ^ (Z.of_nat (length vector) * letter_bits) <= 2 ^ 31).
  { apply Z.pow_le_mono_r; lia. }
  assert (Hsmall : int32 (pack letter_bits (hits A leb vector table))
                   = pack letter_bits (hits A leb vector table)).
  { unfold int32. apply wrap_small; [lia|]. change (32 - 1) with 31. lia. }
  rewrite Hw, Hsmall. split; [reflexivity|lia].
Qed.

Lemma stored_word_fits_its_bits_witness :
  exists word,
    encode float PrimFloat.leb 2 [3%float; 0.5%float; 1.5%float]
      [[1%float; 2%float; 4%float; infinity]; [1%float; 2%float; 4%float; infinity];
       [1%float; 2%float; 4%float; infinity]] 0 = Some word /\
    int32 word =
      pack 2 (hits float PrimFloat.leb [3%float; 0.5%float; 1.5%float]
                [[1%float; 2%float; 4%float; infinity];
                 [1%float; 2%float; 4%float; infinity];
                 [1%float; 2%float; 4%float; infinity]]) /\
    0 <= int32 word < 2 ^ (Z.of_nat 3 * 2).
Proof.
  apply (stored_word_fits_its_bits float PrimFloat.leb 2
           [3%float; 0.5%float; 1.5%float]
           [[1%float; 2%float; 4%float; infinity];
            [1%float; 2%float; 4%float; infinity];
            [1%float; 2%float; 4%float; infinity]]).
  - lia.
  - simpl. lia.
  - repeat (apply Forall_cons; [simpl; lia|]). apply Forall_nil.
  - simpl. lia.
Defined.

(** X5. A bigram splits back into its two words: when both words are below
    [2^word_bits] and two words fit 31 bits, the entry stored for
    [_create_bigram_word(word, other_word, word_bits)] gives [word] when
    shifted right by [word_bits] and [other_word] when masked to its low
    [word_bits] bits. *)
Theorem bigram_splits_into_its_words (word other_word word_bits : Z) :
  0 <= word_bits -> 2 * word_bits < 32 ->
  0 <= word < 2 ^ word_bits -> 0 <= other_word < 2 ^ word_bits ->
  let bigram := int32 (_create_bigram_word word other_word word_bits) in
  Z.shiftr bigram word_bits = word /\
  Z.land bigram (Z.ones word_bits) = other_word.
Proof.
  intros Hwb Hfit Hw Ho bigram.
  pose proof (EncoderClaims.lor_shift_bound word other_word word_bits Hwb Hw Ho)
    as Hb.
  assert (Htop : 2 ^ (2 * word_bits) <= 2 ^ 31) by (apply Z.pow_le_mono_r; lia).
  assert (E : bigram = Z.lor (Z.shiftl word word_bits) other_word).
  { unfold bigram, _create_bigram_word. rewrite int32_int64.
    unfold int32. apply wrap_small; [lia|]. change (32 - 1) with 31. lia. }
  rewrite E. split.
  - rewrite Z.shiftr_lor, Z.shiftr_shiftl_l by lia.
    replace (word_bits - word_bits) with 0 by lia. rewrite Z.shiftl_0_r.
    rewrite Z.shiftr_div_pow2 by lia. rewrite Z.div_small by lia.
    apply Z.lor_0_r.
  - rewrite Z.land_lor_distr_l, !Z.land_ones by lia.
    rewrite Z.shiftl_mul_pow2 by lia. rewrite Z.mod_mul by lia.
    rewrite Z.mod_small by lia. reflexivity.
Qed.

Lemma bigram_splits_into_its_words_witness :
  let bigram := int32 (_create_bigram_word 2 1 2) in
  Z.shiftr bigram 2 = 2 /\ Z.land bigram (Z.ones 2) = 1.
Proof.
  apply (bigram_splits_into_its_words 2 1 2); simpl; lia.
Defined.

End EncoderProperties.
(* ================================================================== *)
(** * More on the windows and the transform *)
(* ================================================================== *)

Module SpectralProperties.
Import Segmenter SegmenterFacts Spectral SpectralSpec SpectralFacts.
Import Discretizer DiscretizerFacts Estimator EstimatorFacts.
Local Open Scope R_scope.

(** ** Sums over the roots of unity *)



(** ** A constant added to the samples, and a factor applied to them *)






Lemma spectrum_succ (a : list R) (h : nat) :
  spectrum a (S h) =
  rfft_re a 0 :: rfft_im a 0
    :: interleave R (map (rfft_re a) (seq 1 h)) (map (rfft_im a) (seq 1 h)).
Proof. reflexivity. Qed.













(** ** The windows of the fit *)

(** X6. At fit time a series of length [L >= window_size >= 1] is cut into
    [ceil(L / window_size)] windows of [window_size] samples each: window
    [j], for every [j] but the last, holds the samples
    [x[j * window_size : (j + 1) * window_size]], and the last window holds
    the final [window_size] samples [x[L - window_size : L]]. *)
Theorem fit_windows_of_a_long_series (A : Type) (x : list A) (window_size : Z) :
  let L := Z.of_nat (length x) in
  let n := ceil_div L window_size in
  (1 <= window_size <= L)%Z ->
  exists windows,
    binning_windows A x window_size = Some windows /\
    Z.of_nat (length windows) = n /\
    Forall (fun w => Z.of_nat (length w) = window_size) windows /\
    (forall j, (Z.of_nat j < n - 1)%Z ->
       nth_error windows j =
         Some (pyslice A x (Z.of_nat j * window_size)
                 ((Z.of_nat j + 1) * window_size))) /\
    nth_error windows (Z.to_nat (n - 1)) = Some (pyslice A x (L - window_size) L).
Proof.
  intros L n H. exact (binning_windows_long A x window_size H).
Qed.

Lemma fit_windows_of_a_long_series_witness :
  exists windows,
    binning_windows float [1%float; 2%float; 3%float; 4%float; 5%float] 2
      = Some windows /\
    Z.of_nat (length windows) = ceil_div 5 2 /\
    Forall (fun w => Z.of_nat (length w) = 2%Z) windows /\
    (forall j, (Z.of_nat j < ceil_div 5 2 - 1)%Z ->
       nth_error windows j =
         Some (pyslice float [1%float; 2%float; 3%float; 4%float; 5%float]
                 (Z.of_nat j * 2) ((Z.of_nat j + 1) * 2))) /\
    nth_error windows (Z.to_nat (ceil_div 5 2 - 1))
      = Some (pyslice float [1%float; 2%float; 3%float; 4%float; 5%float] (5 - 2) 5).
Proof.
  apply (fit_windows_of_a_long_series float
           [1%float; 2%float; 3%float; 4%float; 5%float] 2).
  simpl. lia.
Defined.

(** X7. At fit time a non-empty series whose length is [window_size], or at
    most half of [window_size], gives one window, the whole series. *)
Theorem fit_window_is_the_whole_series (A : Type) (x : list A) (window_size : Z) :
  let L := Z.of_nat (length x) in
  (1 <= L)%Z -> (window_size = L \/ 2 * L <= window_size)%Z ->
  binning_windows A x window_size = Some [x].
Proof.
  intros L H1 H2. exact (binning_windows_whole A x window_size H1 H2).
Qed.

Lemma fit_window_is_the_whole_series_witness :
  binning_windows float [1%float; 2%float; 3%float] 6
  = Some [[1%float; 2%float; 3%float]].
Proof.
  apply (fit_window_is_the_whole_series float [1%float; 2%float; 3%float] 6).
  - simpl. lia.
  - right. simpl. lia.
Defined.

(** ** The deviations and the transform *)









Lemma fft_row_none_iff (a : list R) (norm : bool) (h0 : nat) (inv : R) :
  (2 <= length a)%nat ->
  fft_row a norm (2 * h0) inv = None <->
  (length a / 2 + 1 < h0 + (if norm then 1 else 0))%nat.
Proof.
  intros Hn. set (half := (h0 + (if norm then 1 else 0))%nat).
  split.
  - intros H. destruct (Nat.le_gt_cases half (length a / 2 + 1)) as [Hle|Hgt];
      [|exact Hgt].
    destruct (fft_row_some a norm h0 inv Hle) as [row [Hrow _]]. congruence.
  - intros Hgt. unfold fft_row.
    replace ((if norm then 2 else 0) + 2 * h0)%nat with (2 * half)%nat
      by (unfold half; destruct norm; lia).
    rewrite div2_succ_double, double_div2.
    assert (Hlen : length (firstn half (rfft_reals a)) = (length a / 2 + 1)%nat).
    { rewrite length_firstn. unfold rfft_reals. rewrite length_map, length_seq. lia. }
    assert (Hdiv : (1 <= length a / 2)%nat).
    { apply Nat.div_le_lower_bound; lia. }
    unfold assign_cols at 1. rewrite Hlen.
    replace (length a / 2 + 1 =? half)%nat with false
      by (symmetry; apply Nat.eqb_neq; lia).
    replace (length a / 2 + 1 =? 1)%nat with false
      by (symmetry; apply Nat.eqb_neq; lia).
    reflexivity.
Qed.

Lemma all_some_none_iff (A B : Type) (f : A -> option B) (l : list A) :
  all_some B (map f l) = None <-> Exists (fun a => f a = None) l.
Proof.
  induction l as [|a l IH]; cbn [map all_some].
  - split; [discriminate|]. intros H. inversion H.
  - destruct (f a) as [b|] eqn:E.
    + destruct (all_some B (map f l)).
      * split; [discriminate|]. intros H. inversion H; subst; [congruence|].
        apply IH in H1. discriminate.
      * split; [|reflexivity]. intros _. apply Exists_cons_tl. now apply IH.
    + split; [|reflexivity]. intros _. now apply Exists_cons_hd.
Qed.

(** X12. [_fast_fourier_transform] on windows of at least two samples fails
    exactly when some window has fewer frequency bins than are asked for:
    [np.fft.rfft] gives [n // 2 + 1] bins for [n] samples, and the
    assignment of fewer bins to [(start + dft_length) // 2] columns is a
    shape error. *)
Theorem fast_fourier_transform_needs_the_bins (X : list (list R)) (norm : bool)
    (h0 : nat) (inv : R) :
  Forall (fun a => (2 <= length a)%nat) X ->
  _fast_fourier_transform X norm (2 * h0) inv = None <->
  Exists (fun a => (length a / 2 + 1 < h0 + (if norm then 1 else 0))%nat) X.
Proof.
  intros H. unfold _fast_fourier_transform. rewrite all_some_none_iff.
  rewrite Forall_forall in H. rewrite !Exists_exists.
  split; intros [a [Ha Hx]]; exists a; (split; [exact Ha|]).
  - apply (fft_row_none_iff a norm h0 inv (H a Ha)). exact Hx.
  - apply (fft_row_none_iff a norm h0 inv (H a Ha)). exact Hx.
Qed.

Lemma fast_fourier_transform_needs_the_bins_witness :
  _fast_fourier_transform [[1; 2; 3; 4]] false (2 * 4) 1 = None <->
  Exists (fun a => (length a / 2 + 1 < 4 + 0)%nat) [[1; 2; 3; 4]].
Proof.
  apply (fast_fourier_transform_needs_the_bins [[1; 2; 3; 4]] false 4 1).
  apply Forall_cons; [simpl; lia|apply Forall_nil].
Defined.

(** X13. Without [norm], the first coefficient of a window's row is the sum
    of its samples divided by the (floored) standard deviation and scaled by
    [inverse_sqrt_win_size], and the second, the imaginary part of the
    zero-frequency bin, is always 0. *)
Theorem zero_frequency_pair (a : list R) (h0 : nat) (inv : R) :
  (1 <= h0 <= length a / 2 + 1)%nat ->
  exists row,
    fft_row a false (2 * h0) inv = Some row /\
    length row = (2 * h0)%nat /\
    nth_error row 0 =
      Some (sum a / (if Rlt_dec (np_std a) 1e-8 then 1e-8 else np_std a) * inv) /\
    nth_error row 1 = Some 0.
Proof.
  intros [H1 H2]. destruct h0 as [|h]; [lia|].
  pose proof (fft_row_spectrum a false (S h) inv) as Hrow. cbv zeta in Hrow.
  rewrite Nat.add_0_r in Hrow. specialize (Hrow H2).
  eexists. split; [exact Hrow|].
  cbn [skipn]. rewrite spectrum_succ. cbn [map nth_error].
  rewrite rfft_re_0, rfft_im_0. split; [|split].
  - cbn [length]. rewrite length_map, interleave_length by (now rewrite !length_map).
    rewrite length_map, length_seq. lia.
  - reflexivity.
  - f_equal. unfold Rdiv. ring.
Qed.

Lemma zero_frequency_pair_witness :
  exists row,
    fft_row [1; 2; 3; 4] false (2 * 2) 1 = Some row /\
    length row = (2 * 2)%nat /\
    nth_error row 0 =
      Some (sum [1; 2; 3; 4]
            / (if Rlt_dec (np_std [1; 2; 3; 4]) 1e-8 then 1e-8
               else np_std [1; 2; 3; 4]) * 1) /\
    nth_error row 1 = Some 0.
Proof.
  apply (zero_frequency_pair [1; 2; 3; 4] 2 1). simpl. lia.
Defined.

End SpectralProperties.
(* ================================================================== *)
(** * More on the fit: the table, the selection and the stored widths *)
(* ================================================================== *)

Module FitProperties.
Import MachineInt Encoder EncoderSpec EncoderFacts.
Import Segmenter SegmenterFacts Spectral SpectralSpec SpectralFacts.
Import Discretizer DiscretizerSpec DiscretizerFacts Estimator EstimatorFacts.
Import Scenario.
Local Open Scope R_scope.

Lemma all_some_length (A B : Type) (f : A -> option B) (l : list A) (out : list B) :
  all_some B (map f l) = Some out -> length out = length l.
Proof.
  intros H. apply all_some_inv in H. symmetry. eapply Forall2_length. exact H.
Qed.

Lemma all_some_rows (A B : Type) (f : A -> option B) (P : B -> Prop)
    (l : list A) (out : list B) :
  (forall a b, f a = Some b -> P b) ->
  all_some B (map f l) = Some out -> Forall P out.
Proof.
  intros HP H. apply all_some_inv in H.
  induction H as [|a b l out Hab _ IH]; constructor; eauto.
Qed.

(** ** The width of a row *)

Lemma mcb_row_width (dft : list (list R)) (binning_method : String.string)
    (alphabet_size : Z) (letter : nat) (row : list xreal) :
  (1 <= alphabet_size)%Z ->
  mcb_row dft binning_method alphabet_size letter = Some row ->
  Z.of_nat (length row) = alphabet_size.
Proof.
  intros Ha. unfold mcb_row.
  destruct (column dft letter) as [col|]; [|discriminate].
  match goal with
  | |- match ?c with _ => _ end = _ -> _ => destruct c as [bps|] eqn:E; [|discriminate]
  end.
  intros H. inversion H; subst row. clear H.
  rewrite length_app, length_map. cbn [length].
  assert (Hb : length bps = Z.to_nat (alphabet_size - 1)).
  { destruct (String.eqb binning_method "equi-depth").
    - unfold equi_depth in E. apply all_some_length in E.
      now rewrite length_seq in E.
    - destruct (String.eqb binning_method "equi-width").
      + unfold equi_width in E. destruct (sort R Rleb col); [discriminate|].
        inversion E. now rewrite length_map, length_seq.
      + inversion E. apply repeat_length. }
  rewrite Hb. lia.
Qed.

Lemma igb_row_width (threshold : list R) (alphabet_size : Z) (row : list xreal) :
  igb_row threshold alphabet_size = Some row ->
  Z.of_nat (length row) = alphabet_size.
Proof.
  unfold igb_row.
  destruct (Z.of_nat (length threshold) <=? alphabet_size)%Z eqn:E; [|discriminate].
  apply Z.leb_le in E. intros H. inversion H.
  rewrite length_app, length_map, repeat_length. lia.
Qed.

Lemma kbins_row_width (b : bin_edges) (alphabet_size : Z) (letter : nat)
    (row : list xreal) :
  (1 <= alphabet_size)%Z ->
  kbins_row b alphabet_size letter = Some row ->
  Z.of_nat (length row) = alphabet_size.
Proof.
  intros Ha. unfold kbins_row.
  destruct (breaks_inner b letter) as [inner|]; [|discriminate].
  destruct (overwrite (repeat 0 (Z.to_nat alphabet_size)) inner) as [r|] eqn:E;
    [|discriminate].
  intros H. inversion H; subst row. clear H.
  destruct (overwrite_spec inner _ _ E) as [Hr Hl]. rewrite repeat_length in Hl.
  assert (Hlen : length r = Z.to_nat alphabet_size).
  { rewrite Hr, length_app, length_skipn, repeat_length. lia. }
  rewrite length_app, length_map. cbn [length].
  assert (Hrl : length (removelast r) = (length r - 1)%nat).
  { destruct r as [|x r] using rev_ind; [reflexivity|].
    rewrite removelast_last, length_app. cbn [length]. lia. }
  rewrite Hrl, Hlen. lia.
Qed.

(** ** What [_binning] and [fit] change in the object *)

Lemma set_selection_same (self : SFA_NEW) :
  self = set_selection self (support self) (dft_length self).
Proof. destruct self; reflexivity. Qed.

Lemma select_by_variance_max (dft : list (list R)) (ncols word_length : nat)
    (support : list nat) (dft' : list (list R)) (dft_length : nat) :
  select_by_variance dft ncols word_length = Some (support, dft', dft_length) ->
  exists m, np_max support = Some m /\ dft_length = (m + 1 + (m + 1) mod 2)%nat.
Proof.
  unfold select_by_variance.
  destruct (variances dft ncols); [|discriminate].
  destruct (take_columns dft _); [|discriminate].
  destruct (np_max _) as [m|] eqn:Em; [|discriminate].
  intros H. inversion H; subst. exists m. split; [exact Em|reflexivity].
Qed.

Section Collaborators.
Variable Panel : Type.
Variable check_X : Panel -> exn + list (list R).
Variable f_classif : list (list R) -> list Z -> list R.
Variable tree_thresholds : Z -> list R -> list Z -> list R.
Variable kbins_fit : Z -> String.string -> list (list R) -> bin_edges.

Lemma select_by_anova_max (self : SFA_NEW) (dft : list (list R)) (ncols : nat)
    (y : list Z) (support : list nat) (dft' : list (list R)) (dft_length : nat) :
  select_by_anova f_classif self dft ncols y = Some (support, dft', dft_length) ->
  exists m, np_max support = Some m /\ dft_length = (m + 1 + (m + 1) mod 2)%nat.
Proof.
  unfold select_by_anova.
  destruct (variances dft ncols); [|discriminate].
  match goal with
  | |- match ?c with _ => _ end = _ -> _ => destruct c as [chosen|]; [|discriminate]
  end.
  destruct (take_columns dft _); [|discriminate].
  destruct (np_max _) as [m|] eqn:Em; [|discriminate].
  intros H. inversion H; subst. exists m. split; [exact Em|reflexivity].
Qed.

Lemma binning_frame (self : SFA_NEW) (Xs : list (list R)) (y : option (list Z))
    (self2 : SFA_NEW) (table : list (list xreal)) :
  _binning f_classif tree_thresholds kbins_fit self Xs y = Some (self2, table) ->
  self2 = set_selection self (support self2) (dft_length self2) /\
  ((support self2 = support self /\ dft_length self2 = dft_length self) \/
   (exists m, np_max (support self2) = Some m /\
              dft_length self2 = (m + 1 + (m + 1) mod 2)%nat)).
Proof.
  unfold _binning.
  destruct (_binning_dft Xs _ _ _ _) as [dft|]; [|discriminate].
  match goal with
  | |- match ?c with _ => _ end = _ -> _ => destruct c as [y0|]; [|discriminate]
  end.
  match goal with
  | |- match (match ?c with _ => _ end) with _ => _ end = _ -> _ =>
      destruct c as [[self1 dft1]|] eqn:Ev; [|discriminate]
  end.
  assert (Hv : self1 = set_selection self (support self1) (dft_length self1) /\
               ((support self1 = support self /\ dft_length self1 = dft_length self) \/
                (exists m, np_max (support self1) = Some m /\
                           dft_length self1 = (m + 1 + (m + 1) mod 2)%nat))).
  { destruct (variance self); destruct y0 as [labels|];
      try (inversion Ev; subst self1; split; [apply set_selection_same|left; tauto]).
    destruct (select_by_variance _ _ _) as [[[s d] dl]|] eqn:Es; [|discriminate].
    inversion Ev; subst self1. split; [reflexivity|]. right.
    exact (select_by_variance_max _ _ _ _ _ _ Es). }
  destruct Hv as [Hv1 Hv2].
  match goal with
  | |- match ?c with _ => _ end = _ -> _ =>
      destruct c as [[self2' dft2]|] eqn:Ea; [|discriminate]
  end.
  assert (Ha : self2' = set_selection self (support self2') (dft_length self2') /\
               ((support self2' = support self /\ dft_length self2' = dft_length self) \/
                (exists m, np_max (support self2') = Some m /\
                           dft_length self2' = (m + 1 + (m + 1) mod 2)%nat))).
  { destruct (anova self1); destruct y0 as [labels|];
      try (inversion Ea; subst self2'; split; assumption).
    destruct (select_by_anova _ _ _ _ _) as [[[s d] dl]|] eqn:Es; [|discriminate].
    inversion Ea; subst self2'. split.
    - rewrite Hv1. reflexivity.
    - right. exact (select_by_anova_max _ _ _ _ _ _ _ Es). }
  match goal with
  | |- match ?c with _ => _ end = _ -> _ => destruct c as [t|]; [|discriminate]
  end.
  intros H. inversion H; subst self2' t. exact Ha.
Qed.

Lemma binning_table_shape (self : SFA_NEW) (Xs : list (list R))
    (y : option (list Z)) (self2 : SFA_NEW) (table : list (list xreal)) :
  (1 <= alphabet_size self)%Z ->
  _binning f_classif tree_thresholds kbins_fit self Xs y = Some (self2, table) ->
  length table = word_length self /\
  Forall (fun row => Z.of_nat (length row) = alphabet_size self) table.
Proof.
  intros Ha Hb.
  destruct (binning_inv f_classif tree_thresholds kbins_fit self Xs y self2 table Hb)
    as (dft & dft2 & _ & _ & _ & _ & _ & Ht & _).
  destruct (String.eqb (binning_method self) "information-gain").
  - destruct Ht as [labels Ht]. unfold _igb in Ht. split.
    + apply all_some_length in Ht. now rewrite length_seq in Ht.
    + eapply all_some_rows; [|exact Ht]. cbn beta. intros i row Hrow.
      destruct (column dft2 i); [|discriminate].
      destruct (igb_row _ _) as [r|] eqn:Er; [|discriminate].
      inversion Hrow. rewrite sort_length. now apply igb_row_width in Er.
  - destruct (String.eqb (binning_method self) "kmeans").
    + unfold _k_bins_discretizer in Ht. split.
      * apply all_some_length in Ht. now rewrite length_seq in Ht.
      * eapply all_some_rows; [|exact Ht]. cbn beta. intros i row Hrow.
        now apply kbins_row_width in Hrow.
    + unfold _mcb in Ht. split.
      * apply all_some_length in Ht. now rewrite length_seq in Ht.
      * eapply all_some_rows; [|exact Ht]. cbn beta. intros i row Hrow.
        now apply mcb_row_width in Hrow.
Qed.

(** The object [fit] returns, field by field. *)
Lemma fit_frame (self : SFA_NEW) (X : Panel) (y : option (list Z))
    (self' : SFA_NEW) :
  fit Panel check_X f_classif tree_thresholds kbins_fit self X y = inr self' ->
  exists Xs,
    check_X X = inr Xs /\
    let letter_bits := Z.log2_up (alphabet_size self) in
    let word_bits := (Z.of_nat (word_length self) * letter_bits)%Z in
    let max_bits := if bigrams self then (word_bits * 2)%Z else word_bits in
    self' =
      set_fitted
        (set_selection
           (set_shape (set_bits self letter_bits word_bits max_bits) Xs)
           (support self') (dft_length self'))
        (breakpoints self') /\
    ((support self' = support self /\ dft_length self' = dft_length self) \/
     (exists m, np_max (support self') = Some m /\
                dft_length self' = (m + 1 + (m + 1) mod 2)%nat)) /\
    length (breakpoints self') = word_length self /\
    Forall (fun row => Z.of_nat (length row) = alphabet_size self) (breakpoints self').
Proof.
  intros Hfit.
  pose proof (fit_guards_alphabet self y) as Hal.
  unfold fit in Hfit. destruct (fit_guards self y); [discriminate|].
  specialize (Hal eq_refl).
  unfold fit_body in Hfit.
  destruct (check_X X) as [e|Xs]; [discriminate|].
  match type of Hfit with
  | match ?c with _ => _ end = _ => destruct c as [[self2 table]|] eqn:Eb;
                                      [|discriminate]
  end.
  inversion Hfit; subst self'. clear Hfit.
  exists Xs. split; [reflexivity|]. cbv zeta.
  destruct (binning_frame _ _ _ _ _ Eb) as [Hf Hsel].
  match type of Eb with
  | _binning _ _ _ ?s _ _ = _ =>
      assert (Hal1 : (1 <= alphabet_size s)%Z) by (cbn; lia)
  end.
  destruct (binning_table_shape _ _ _ _ _ Hal1 Eb) as [Hlen Hrows].
  cbn [set_fitted support dft_length breakpoints].
  split; [|split; [|split]].
  - rewrite Hf at 1. reflexivity.
  - exact Hsel.
  - exact Hlen.
  - exact Hrows.
Qed.

Lemma fit_fields (self : SFA_NEW) (X : Panel) (y : option (list Z))
    (self' : SFA_NEW) :
  fit Panel check_X f_classif tree_thresholds kbins_fit self X y = inr self' ->
  word_length self' = word_length self /\
  alphabet_size self' = alphabet_size self /\
  window_size self' = window_size self /\
  norm self' = norm self /\
  binning_method self' = binning_method self /\
  anova self' = anova self /\
  variance self' = variance self /\
  bigrams self' = bigrams self /\
  inverse_sqrt_win_size self' = inverse_sqrt_win_size self /\
  letter_bits self' = Z.log2_up (alphabet_size self) /\
  word_bits self' = (Z.of_nat (word_length self) * letter_bits self')%Z /\
  max_bits self' = (if bigrams self then word_bits self' * 2 else word_bits self')%Z /\
  _is_fitted self' = true /\
  exists Xs, check_X X = inr Xs /\ n_instances self' = length Xs.
Proof.
  intros Hfit.
  destruct (fit_frame self X y self' Hfit) as (Xs & Hx & Hself & _).
  cbv zeta in Hself. rewrite Hself. cbn.
  repeat (split; [reflexivity|]). exists Xs. split; [exact Hx|reflexivity].
Qed.

(** Without a selection asked for, [fit] leaves [support] and [dft_length]
    alone. *)
Lemma fit_plain_selection (self : SFA_NEW) (X : Panel) (y : option (list Z))
    (self' : SFA_NEW) :
  fit Panel check_X f_classif tree_thresholds kbins_fit self X y = inr self' ->
  anova self = false -> variance self = false ->
  support self' = support self /\ dft_length self' = dft_length self.
Proof.
  intros Hfit Han Hvar.
  destruct (fit_inv Panel check_X f_classif tree_thresholds kbins_fit
              self X y self' Hfit)
    as (Hg & Xs & self1 & self2 & table & Hx & E1 & E2 & E3 & E4 & E5 & E6 & E7
        & E8 & E9 & E10 & Hb & Ht & Hs' & Hd' & Hf).
  destruct (binning_inv f_classif tree_thresholds kbins_fit self1 Xs y self2 table Hb)
    as (dft & dft2 & _ & _ & _ & _ & _ & _ & _ & Hkeep).
  destruct Hkeep as [K1 K2]; [left; congruence|left; congruence|].
  split; congruence.
Qed.


End Collaborators.

Lemma even_round_up (n : nat) : Nat.even (n + n mod 2) = true.
Proof.
  rewrite Nat.even_add.
  pose proof (Nat.mod_upper_bound n 2 ltac:(lia)) as Hb.
  destruct (Nat.even n) eqn:E.
  - apply Nat.even_spec in E. destruct E as [k ->].
    rewrite Nat.mul_comm, Nat.Div0.mod_mul. reflexivity.
  - assert (Ho : Nat.odd n = true) by (rewrite <- Nat.negb_even, E; reflexivity).
    apply Nat.odd_spec in Ho. destruct Ho as [k ->].
    replace ((2 * k + 1) mod 2)%nat with 1%nat; [reflexivity|].
    rewrite Nat.add_comm, Nat.mul_comm, Nat.Div0.mod_add. reflexivity.
Qed.

(** X14. A successful [fit] changes none of the hyperparameters: word
    length, alphabet size, window size, [norm], binning method, [anova],
    [variance], [bigrams] and the scaling factor are as [__init__] set them.
    It stores [letter_bits = ceil(log2(alphabet_size))],
    [word_bits = word_length * letter_bits], [max_bits] (twice [word_bits]
    with bigrams), the number of instances, and sets the fitted flag. *)
Theorem fit_keeps_the_configuration (Panel : Type)
    (check_X : Panel -> exn + list (list R))
    (f_classif : list (list R) -> list Z -> list R)
    (tree_thresholds : Z -> list R -> list Z -> list R)
    (kbins_fit : Z -> String.string -> list (list R) -> bin_edges)
    (self : SFA_NEW) (X : Panel) (y : option (list Z)) (self' : SFA_NEW) :
  fit Panel check_X f_classif tree_thresholds kbins_fit self X y = inr self' ->
  word_length self' = word_length self /\
  alphabet_size self' = alphabet_size self /\
  window_size self' = window_size self /\
  norm self' = norm self /\
  binning_method self' = binning_method self /\
  anova self' = anova self /\
  variance self' = variance self /\
  bigrams self' = bigrams self /\
  inverse_sqrt_win_size self' = inverse_sqrt_win_size self /\
  letter_bits self' = Z.log2_up (alphabet_size self) /\
  word_bits self' = (Z.of_nat (word_length self) * letter_bits self')%Z /\
  max_bits self' = (if bigrams self then word_bits self' * 2 else word_bits self')%Z /\
  _is_fitted self' = true /\
  exists Xs, check_X X = inr Xs /\ n_instances self' = length Xs.
Proof.
  intros Hfit.
  exact (fit_fields Panel check_X f_classif tree_thresholds kbins_fit
           self X y self' Hfit).
Qed.

Lemma fit_keeps_the_configuration_witness :
  exists self',
    fit (list (list R)) check_X_id no_f_classif no_tree no_kbins depth_sfa
      two_waves None = inr self' /\
    word_length self' = word_length depth_sfa /\
    alphabet_size self' = alphabet_size depth_sfa /\
    window_size self' = window_size depth_sfa /\
    norm self' = norm depth_sfa /\
    binning_method self' = binning_method depth_sfa /\
    anova self' = anova depth_sfa /\
    variance self' = variance depth_sfa /\
    bigrams self' = bigrams depth_sfa /\
    inverse_sqrt_win_size self' = inverse_sqrt_win_size depth_sfa /\
    letter_bits self' = Z.log2_up (alphabet_size depth_sfa) /\
    word_bits self' = (Z.of_nat (word_length depth_sfa) * letter_bits self')%Z /\
    max_bits self' =
      (if bigrams depth_sfa then word_bits self' * 2 else word_bits self')%Z /\
    _is_fitted self' = true /\
    exists Xs, check_X_id two_waves = inr Xs /\ n_instances self' = length Xs.
Proof.
  destruct FitClaims.depth_sfa_fit_succeeds as [self' Hfit].
  exists self'. split; [exact Hfit|].
  exact (fit_keeps_the_configuration (list (list R)) check_X_id no_f_classif
           no_tree no_kbins depth_sfa two_waves None self' Hfit).
Defined.

(** X15. After a successful [fit] the breakpoint table has [word_length]
    rows of [alphabet_size] entries each, under every binning method, and
    [alphabet_size <= 2^letter_bits]: every column index of the table fits
    the [letter_bits] bits a letter gets in a word. *)
Theorem fitted_table_shape (Panel : Type)
    (check_X : Panel -> exn + list (list R))
    (f_classif : list (list R) -> list Z -> list R)
    (tree_thresholds : Z -> list R -> list Z -> list R)
    (kbins_fit : Z -> String.string -> list (list R) -> bin_edges)
    (self : SFA_NEW) (X : Panel) (y : option (list Z)) (self' : SFA_NEW) :
  fit Panel check_X f_classif tree_thresholds kbins_fit self X y = inr self' ->
  length (breakpoints self') = word_length self /\
  Forall (fun row => Z.of_nat (length row) = alphabet_size self)
    (breakpoints self') /\
  (alphabet_size self <= 2 ^ letter_bits self')%Z.
Proof.
  intros Hfit.
  destruct (fit_frame Panel check_X f_classif tree_thresholds kbins_fit
              self X y self' Hfit) as (Xs & Hx & Hself & _ & Hlen & Hrows).
  split; [exact Hlen|]. split; [exact Hrows|].
  destruct (fit_inv Panel check_X f_classif tree_thresholds kbins_fit
              self X y self' Hfit) as [Hg _].
  pose proof (fit_guards_alphabet self y Hg) as Ha.
  cbv zeta in Hself. rewrite Hself. cbn.
  apply Z.log2_up_spec. lia.
Qed.

Lemma fitted_table_shape_witness :
  exists self',
    fit (list (list R)) check_X_id no_f_classif no_tree no_kbins depth_sfa
      two_waves None = inr self' /\
    length (breakpoints self') = word_length depth_sfa /\
    Forall (fun row => Z.of_nat (length row) = alphabet_size depth_sfa)
      (breakpoints self') /\
    (alphabet_size depth_sfa <= 2 ^ letter_bits self')%Z.
Proof.
  destruct FitClaims.depth_sfa_fit_succeeds as [self' Hfit].
  exists self'. split; [exact Hfit|].
  exact (fitted_table_shape (list (list R)) check_X_id no_f_classif
           no_tree no_kbins depth_sfa two_waves None self' Hfit).
Defined.

(** X16. The number of coefficients [dft_length] is even from [__init__]
    on, and stays even through every successful [fit], whether the fit
    keeps it or sets it from a variance or ANOVA selection: there are as
    many real parts as imaginary parts. *)
Theorem dft_length_stays_even (Panel : Type)
    (check_X : Panel -> exn + list (list R))
    (f_classif : list (list R) -> list Z -> list R)
    (tree_thresholds : Z -> list R -> list Z -> list R)
    (kbins_fit : Z -> String.string -> list (list R) -> bin_edges)
    (word_length : nat) (alphabet_size : Z) (window_size : nat) (norm : bool)
    (binning_method : String.string) (anova variance bigrams : bool) :
  let self :=
    __init__ word_length alphabet_size window_size norm binning_method anova
      variance bigrams in
  Nat.even (dft_length self) = true /\
  forall X y self',
    fit Panel check_X f_classif tree_thresholds kbins_fit self X y = inr self' ->
    Nat.even (dft_length self') = true.
Proof.
  intros self.
  assert (H0 : Nat.even (dft_length self) = true).
  { unfold self, __init__. cbn [dft_length]. apply even_round_up. }
  split; [exact H0|]. intros X y self' Hfit.
  destruct (fit_frame Panel check_X f_classif tree_thresholds kbins_fit
              self X y self' Hfit) as (Xs & _ & _ & Hsel & _).
  destruct Hsel as [[_ ->]|[m [_ ->]]]; [exact H0|].
  apply (even_round_up (m + 1)).
Qed.

Lemma dft_length_stays_even_witness :
  exists self',
    fit (list (list R)) check_X_id no_f_classif no_tree no_kbins
      (__init__ 2 4 4 false "equi-depth"%string false true false)
      two_waves (Some [0%Z; 1%Z]) = inr self' /\
    Nat.even (dft_length self') = true.
Proof.
  destruct (FitClaims.variance_sfa_fit_succeeds 2 (Some [0%Z; 1%Z])) as [self' Hfit];
    [lia|discriminate|].
  exists self'. split; [exact Hfit|].
  exact (proj2 (dft_length_stays_even (list (list R)) check_X_id no_f_classif
                  no_tree no_kbins 2 4 4 false "equi-depth"%string false true false)
           two_waves (Some [0%Z; 1%Z]) self' Hfit).
Defined.

(** ** The rows of the three discretizers *)

Lemma Forall2_nth_error_r (A B : Type) (P : A -> B -> Prop) (l : list A)
    (l' : list B) :
  Forall2 P l l' ->
  forall i b, nth_error l' i = Some b -> exists a, nth_error l i = Some a /\ P a b.
Proof.
  induction 1 as [|a b l l' Hab _ IH]; intros i x Hi.
  - destruct i; discriminate.
  - destruct i as [|i]; cbn [nth_error] in *.
    + inversion Hi; subst. eauto.
    + eauto.
Qed.

Lemma all_some_nth (B : Type) (f : nat -> option B) (n : nat) (out : list B)
    (i : nat) (b : B) :
  all_some B (map f (seq 0 n)) = Some out ->
  nth_error out i = Some b -> (i < n)%nat /\ f i = Some b.
Proof.
  intros H Hi. apply all_some_inv in H.
  destruct (Forall2_nth_error_r _ _ _ _ _ H i b Hi) as [a [Ha Hf]].
  assert (Hlt : (i < n)%nat).
  { assert (Hs : (i < length (seq 0 n))%nat)
      by (apply nth_error_Some; rewrite Ha; discriminate).
    now rewrite length_seq in Hs. }
  rewrite nth_error_seq in Ha.
  destruct (Nat.ltb_spec i n); [|lia]. inversion Ha; subst. auto.
Qed.

Lemma all_some_const (B : Type) (f : nat -> option B) (c : B) (m : nat) :
  forall n k,
    (forall i, (k <= i < k + n)%nat -> f i = if (i <? m)%nat then Some c else None) ->
    all_some B (map f (seq k n)) =
      if (k + n <=? Nat.max m k)%nat then Some (repeat c n) else None.
Proof.
  induction n as [|n IH]; intros k Hf.
  - cbn. replace (k + 0 <=? Nat.max m k)%nat with true; [reflexivity|].
    symmetry. apply Nat.leb_le. lia.
  - cbn [seq map all_some repeat]. rewrite (Hf k) by lia.
    destruct (Nat.ltb_spec k m).
    + rewrite (IH (S k)) by (intros; apply Hf; lia).
      destruct (Nat.leb_spec (S k + n) (Nat.max m (S k)));
        destruct (Nat.leb_spec (k + S n) (Nat.max m k)); try lia; reflexivity.
    + destruct (Nat.leb_spec (k + S n) (Nat.max m k)); [lia|reflexivity].
Qed.

Lemma removelast_repeat (A : Type) (a : A) (n : nat) :
  removelast (repeat a n) = repeat a (n - 1).
Proof.
  destruct n as [|n]; [reflexivity|].
  replace (S n) with (n + 1)%nat at 1 by lia.
  rewrite repeat_app. cbn [repeat]. rewrite removelast_last.
  f_equal. lia.
Qed.

(** X17. When the fitted [KBinsDiscretizer] gives its edges as scikit-learn
    stores them, a one-dimensional array of one edge array per feature,
    [_k_bins_discretizer] copies none of them: after [reshape((-1, 1))] every
    [breaks[letter]] has length 1, the inner loop is empty, and every row of
    the table is [alphabet_size - 1] zeros followed by [sys.float_info.max].
    Asking for more letters than there are features is an index error. *)
Theorem kmeans_rows_ignore_per_feature_edges
    (kbins_fit : Z -> String.string -> list (list R) -> bin_edges)
    (dft : list (list R)) (binning_method : String.string)
    (word_length : nat) (alphabet_size : Z) (edges : list (list R)) :
  (1 <= alphabet_size)%Z ->
  kbins_fit alphabet_size binning_method dft = EdgesPerFeature edges ->
  _k_bins_discretizer kbins_fit dft binning_method word_length alphabet_size =
    if (word_length <=? length edges)%nat then
      Some (repeat (repeat (Fin 0) (Z.to_nat (alphabet_size - 1)) ++ [Fin DBL_MAX])
              word_length)
    else None.
Proof.
  intros Ha Hk. unfold _k_bins_discretizer. rewrite Hk.
  rewrite (all_some_const _ _
             (repeat (Fin 0) (Z.to_nat (alphabet_size - 1)) ++ [Fin DBL_MAX])
             (length edges)).
  - cbn [Nat.add]. rewrite Nat.max_0_r. reflexivity.
  - intros i _. unfold kbins_row, breaks_inner.
    destruct (Nat.ltb_spec i (length edges)) as [Hlt|Hge].
    + destruct (nth_error edges i) eqn:E;
        [|apply nth_error_None in E; lia].
      destruct (repeat 0 (Z.to_nat alphabet_size)) eqn:Er; cbn [overwrite];
        rewrite <- Er, removelast_repeat, map_repeat;
        do 3 f_equal; lia.
    + destruct (nth_error edges i) eqn:E; [|reflexivity].
      assert (i < length edges)%nat by (apply nth_error_Some; rewrite E; discriminate).
      lia.
Qed.

Lemma kmeans_rows_ignore_per_feature_edges_witness :
  _k_bins_discretizer per_feature_kbins two_waves "kmeans"%string 2 4 =
    if (2 <=? length ([[-1; 0; 1]; [-2; 0; 2]]%R))%nat then
      Some (repeat (repeat (Fin 0) (Z.to_nat (4 - 1)) ++ [Fin DBL_MAX]) 2)
    else None.
Proof.
  apply (kmeans_rows_ignore_per_feature_edges per_feature_kbins two_waves
           "kmeans"%string 2 4 [[-1; 0; 1]; [-2; 0; 2]]).
  - lia.
  - reflexivity.
Defined.

(** X18. Under information-gain binning row [i] of the table holds exactly
    the thresholds the tree found for coefficient [i], in ascending order,
    followed by [+inf] up to [alphabet_size] entries; a tree with more
    thresholds than [alphabet_size] makes [_igb] fail. *)
Theorem igb_rows_are_the_sorted_thresholds
    (tree_thresholds : Z -> list R -> list Z -> list R)
    (dft : list (list R)) (y : list Z) (word_length : nat) (alphabet_size : Z)
    (table : list (list xreal)) :
  _igb tree_thresholds dft y word_length alphabet_size = Some table ->
  length table = word_length /\
  forall i row, nth_error table i = Some row ->
    exists col,
      column dft i = Some col /\
      let threshold := tree_thresholds alphabet_size col y in
      (Z.of_nat (length threshold) <= alphabet_size)%Z /\
      Permutation row
        (map Fin threshold
           ++ repeat PInf (Z.to_nat (alphabet_size - Z.of_nat (length threshold)))) /\
      nondecreasing row.
Proof.
  intros H. unfold _igb in H. split.
  - apply all_some_length in H. now rewrite length_seq in H.
  - intros i row Hi.
    destruct (all_some_nth _ _ _ _ _ _ H Hi) as [_ Hf]. cbn beta in Hf.
    destruct (column dft i) as [col|]; [|discriminate].
    exists col. split; [reflexivity|]. cbv zeta.
    unfold igb_row in Hf.
    destruct (Z.of_nat (length (tree_thresholds alphabet_size col y)) <=? alphabet_size)%Z
      eqn:E; [|discriminate].
    apply Z.leb_le in E. inversion Hf; subst row. clear Hf.
    split; [exact E|]. split.
    + apply Permutation_sym. apply sort_perm.
    + apply sort_sorted; [apply xleb_total|apply xleb_trans].
Qed.

Lemma igb_rows_are_the_sorted_thresholds_witness :
  length [[Fin 0; PInf]; [Fin 0; PInf]] = 2%nat /\
  forall i row, nth_error [[Fin 0; PInf]; [Fin 0; PInf]] i = Some row ->
    exists col,
      column two_waves i = Some col /\
      let threshold := one_split 2 col [0%Z; 1%Z] in
      (Z.of_nat (length threshold) <= 2)%Z /\
      Permutation row
        (map Fin threshold ++ repeat PInf (Z.to_nat (2 - Z.of_nat (length threshold)))) /\
      nondecreasing row.
Proof.
  apply (igb_rows_are_the_sorted_thresholds one_split two_waves [0%Z; 1%Z] 2 2
           [[Fin 0; PInf]; [Fin 0; PInf]]).
  reflexivity.
Defined.









(** ** Panels and word lengths the fit or the transform cannot take *)









(** ** The ANOVA selection *)

Lemma map_nth_seq_all (l : list nat) :
  map (fun i => nth i l 0%nat) (seq 0 (length l)) = l.
Proof.
  induction l as [|a l IH]; [reflexivity|].
  cbn [length seq map nth]. f_equal.
  rewrite <- seq_shift, map_map. exact IH.
Qed.

Lemma sorted_leb_le (l : list nat) :
  StronglySorted (fun a b => Nat.leb a b = true) l ->
  StronglySorted (fun a b => (a <= b)%nat) l.
Proof.
  induction 1 as [|a l _ IH Ha]; constructor; [exact IH|].
  eapply Forall_impl; [|exact Ha]. cbn beta. intros b Hb. now apply Nat.leb_le.
Qed.

(** X23. The ANOVA branch of [_binning] returns a support in ascending
    order, the columns of the matrix at that support, and
    [dft_length = max(support) + 1] rounded up to even.  When at least
    [word_length] coefficients have a variance above [1e-8] (and [f_classif]
    gives one score per column it is handed), the support holds
    [word_length] distinct coefficients, every one of them with a variance
    above [1e-8]; when there are fewer, the support is the previous one,
    sorted. *)
Theorem anova_support_is_non_constant
    (f_classif : list (list R) -> list Z -> list R)
    (self : SFA_NEW) (dft : list (list R)) (ncols : nat) (y : list Z)
    (support' : list nat) (dft' : list (list R)) (dft_length' : nat) :
  select_by_anova f_classif self dft ncols y = Some (support', dft', dft_length') ->
  exists vars,
    variances dft ncols = Some vars /\
    let non_constant :=
      filter (fun j => if Rle_dec (Rabs (nth j vars 0)) 1e-8 then false else true)
        (seq 0 ncols) in
    StronglySorted (fun a b => (a <= b)%nat) support' /\
    take_columns dft support' = Some dft' /\
    (exists m, np_max support' = Some m /\
               dft_length' = (m + 1 + (m + 1) mod 2)%nat) /\
    ((length non_constant < word_length self)%nat ->
     Permutation (support self) support') /\
    ((word_length self <= length non_constant)%nat ->
     (forall sub, take_columns dft non_constant = Some sub ->
                  length (f_classif sub y) = length non_constant) ->
     length support' = word_length self /\ NoDup support' /\
     Forall (fun s => (s < ncols)%nat /\ 1e-8 < Rabs (nth s vars 0)) support').
Proof.
  unfold select_by_anova.
  destruct (variances dft ncols) as [vars|]; [|discriminate].
  set (non_constant :=
         filter (fun j => if Rle_dec (Rabs (nth j vars 0)) 1e-8 then false else true)
           (seq 0 ncols)).
  match goal with
  | |- match ?c with _ => _ end = _ -> _ => destruct c as [chosen|] eqn:Ec; [|discriminate]
  end.
  destruct (take_columns dft (sort nat Nat.leb chosen)) as [d|] eqn:Et; [|discriminate].
  destruct (np_max (sort nat Nat.leb chosen)) as [m|] eqn:Em; [|discriminate].
  intros H. inversion H; subst support' dft' dft_length'. clear H.
  exists vars. split; [reflexivity|]. cbv zeta. fold non_constant.
  split; [apply sorted_leb_le, sort_sorted;
          [apply nat_leb_total|apply nat_leb_trans]|].
  split; [exact Et|]. split; [exists m; split; [exact Em|reflexivity]|].
  split.
  - intros Hfew.
    destruct (Nat.leb_spec (word_length self) (length non_constant)); [lia|].
    inversion Ec; subst chosen. apply sort_perm.
  - intros Hmany Hf.
    destruct (Nat.leb_spec (word_length self) (length non_constant)); [|lia].
    destruct (take_columns dft non_constant) as [sub|] eqn:Es; [|discriminate].
    inversion Ec; subst chosen. clear Ec.
    specialize (Hf sub eq_refl).
    set (order := argsort (map Ropp (f_classif sub y))) in *.
    assert (Hperm : Permutation non_constant
                      (map (fun i => nth i non_constant 0%nat) order)).
    { rewrite <- (map_nth_seq_all non_constant) at 1.
      apply Permutation_map. unfold order.
      rewrite <- Hf, <- (length_map Ropp). apply argsort_perm. }
    assert (Hnd : NoDup non_constant).
    { unfold non_constant. apply NoDup_filter, seq_NoDup. }
    assert (Hnd' : NoDup (map (fun i => nth i non_constant 0%nat) order)).
    { eapply Permutation_NoDup; [exact Hperm|exact Hnd]. }
    set (picked := firstn (word_length self)
                     (map (fun i => nth i non_constant 0%nat) order)) in *.
    assert (Hlen : length picked = word_length self).
    { unfold picked. rewrite length_firstn.
      rewrite <- (Permutation_length Hperm). lia. }
    assert (Hin : forall s0, In s0 picked -> In s0 non_constant).
    { intros s0 Hs0. apply Permutation_in with
        (map (fun i => nth i non_constant 0%nat) order);
        [apply Permutation_sym; exact Hperm|].
      eapply in_firstn. exact Hs0. }
    assert (Hndp : NoDup picked).
    { unfold picked.
      rewrite <- (firstn_skipn (word_length self)
                    (map (fun i => nth i non_constant 0%nat) order)) in Hnd'.
      now apply NoDup_app_remove_r in Hnd'. }
    pose proof (sort_perm nat Nat.leb picked) as Hsp.
    split; [rewrite <- (Permutation_length Hsp); exact Hlen|].
    split; [eapply Permutation_NoDup; [exact Hsp|exact Hndp]|].
    apply Forall_forall. intros s0 Hs0.
    assert (Hnc : In s0 non_constant).
    { apply Hin. apply Permutation_in with (sort nat Nat.leb picked);
        [apply Permutation_sym; exact Hsp|exact Hs0]. }
    unfold non_constant in Hnc. apply filter_In in Hnc. destruct Hnc as [Hseq Hvar].
    apply in_seq in Hseq. split; [lia|].
    destruct (Rle_dec (Rabs (nth s0 vars 0)) 1e-8); [discriminate|lra].
Qed.

Lemma np_var_plus_minus : np_var [1; -1] = 1.
Proof. unfold np_var, mean, sum. cbn [map fold_right length INR]. field. Qed.

Lemma anova_support_is_non_constant_witness :
  exists vars,
    variances [[1]; [-1]] 1 = Some vars /\
    let non_constant :=
      filter (fun j => if Rle_dec (Rabs (nth j vars 0)) 1e-8 then false else true)
        (seq 0 1) in
    StronglySorted (fun a b => (a <= b)%nat) [0%nat] /\
    take_columns [[1]; [-1]] [0%nat] = Some [[1]; [-1]] /\
    (exists m, np_max [0%nat] = Some m /\ 2%nat = (m + 1 + (m + 1) mod 2)%nat) /\
    ((length non_constant
      < word_length (__init__ 1 4 4 false "equi-depth"%string true false false))%nat ->
     Permutation
       (support (__init__ 1 4 4 false "equi-depth"%string true false false))
       [0%nat]) /\
    ((word_length (__init__ 1 4 4 false "equi-depth"%string true false false)
      <= length non_constant)%nat ->
     (forall sub, take_columns [[1]; [-1]] non_constant = Some sub ->
                  length (unit_scores sub [0%Z; 1%Z]) = length non_constant) ->
     length [0%nat]
       = word_length (__init__ 1 4 4 false "equi-depth"%string true false false) /\
     NoDup [0%nat] /\
     Forall (fun s => (s < 1)%nat /\ 1e-8 < Rabs (nth s vars 0)) [0%nat]).
Proof.
  apply (anova_support_is_non_constant unit_scores
           (__init__ 1 4 4 false "equi-depth"%string true false false)
           [[1]; [-1]] 1 [0%Z; 1%Z] [0%nat] [[1]; [-1]] 2).
  unfold select_by_anova.
  change (variances [[1]; [-1]] 1) with (Some [np_var [1; -1]]).
  rewrite np_var_plus_minus. cbn [seq filter nth].
  destruct (Rle_dec (Rabs 1) 1e-8) as [Hle|_].
  - exfalso. rewrite Rabs_R1 in Hle. lra.
  - reflexivity.
Defined.

End FitProperties.
(* ================================================================== *)
(** * From a fitted model to words *)
(* ================================================================== *)

Module PipelineProperties.
Import MachineInt Encoder EncoderSpec EncoderFacts.
Import Segmenter SegmenterFacts Spectral SpectralSpec SpectralFacts.
Import Discretizer DiscretizerSpec DiscretizerFacts Estimator EstimatorFacts.
Import FitProperties Scenario.
Local Open Scope R_scope.

(** The coefficient vectors of a panel whose series are all at least one
    window long, without a selection: one row per sliding window, each of
    [dft_length] entries. *)
Lemma mft_plain_shape (Xs : list (list R)) (W h0 : nat) (norm : bool)
    (support : list nat) (inv : R) :
  (0 < W)%nat ->
  Forall (fun x => (W <= length x)%nat) Xs ->
  (h0 + (if norm then 1 else 0) <= W / 2 + 1)%nat ->
  exists dfts,
    _mft Xs W (2 * h0) norm support false false inv = Some dfts /\
    Forall2 (fun x rows =>
               length rows = (length x - W + 1)%nat /\
               Forall (fun row => length row = (2 * h0)%nat) rows) Xs dfts.
Proof.
  intros HW HL Hh. unfold _mft. apply all_some_Forall2.
  eapply Forall_impl; [|exact HL]. cbn beta. intros x Hx.
  rewrite mft_series_rows; [|assumption|assumption|assumption|discriminate].
  cbn [orb]. eexists. split; [reflexivity|]. split.
  - now rewrite length_map, length_seq.
  - apply Forall_map, Forall_forall. intros w _.
    rewrite length_skipn, length_map, spectrum_length. destruct norm; lia.
Qed.

Lemma Forall2_of_map (A B C : Type) (f : A -> B) (P : B -> C -> Prop)
    (l : list A) :
  forall l', Forall2 P (map f l) l' -> Forall2 (fun a c => P (f a) c) l l'.
Proof.
  induction l as [|a l IH]; intros l' H; inversion H; subst; constructor; auto.
Qed.

Lemma Forall2_compose (A B C : Type) (P : A -> B -> Prop) (Q : B -> C -> Prop)
    (S : A -> C -> Prop) (l : list A) (m : list B) (n : list C) :
  (forall a b c, P a b -> Q b c -> S a c) ->
  Forall2 P l m -> Forall2 Q m n -> Forall2 S l n.
Proof.
  intros H HP. revert n. induction HP; intros n HQ; inversion HQ; subst;
    constructor; eauto.
Qed.

(** X24. A model fitted with an even, positive [word_length] and no
    coefficient selection transforms every panel whose series are at least
    one window long (and, with bigrams, hold at least [window_size] windows):
    [transform] returns one row per instance, with one word per sliding
    window, [L - window_size + 1] of them, followed with bigrams by
    [L - 2 * window_size + 1] bigrams. *)
Theorem fitted_model_transforms (Panel : Type)
    (check_X : Panel -> exn + list (list R))
    (f_classif : list (list R) -> list Z -> list R)
    (tree_thresholds : Z -> list R -> list Z -> list R)
    (kbins_fit : Z -> String.string -> list (list R) -> bin_edges)
    (h0 : nat) (alphabet_size : Z) (window_size : nat) (norm : bool)
    (binning_method : String.string) (bigrams : bool)
    (X : Panel) (y : option (list Z)) (self' : SFA_NEW)
    (X' : Panel) (Xs' : list (list R)) :
  (1 <= h0)%nat -> (0 < window_size)%nat ->
  fit Panel check_X f_classif tree_thresholds kbins_fit
    (__init__ (2 * h0) alphabet_size window_size norm binning_method
       false false bigrams) X y = inr self' ->
  check_X X' = inr Xs' ->
  Forall (fun x => (window_size <= length x)%nat) Xs' ->
  (h0 + (if norm then 1 else 0) <= window_size / 2 + 1)%nat ->
  (bigrams = true -> Forall (fun x => (2 * window_size <= length x + 1)%nat) Xs') ->
  exists words,
    transform Panel check_X self' X' = inr words /\
    Forall2 (fun x row =>
               length row =
                 if bigrams
                 then (2 * (length x - window_size + 1) - window_size)%nat
                 else (length x - window_size + 1)%nat) Xs' words.
Proof.
  intros Hh0 HW Hfit Hx' HL Hbins Hbig.
  set (self := __init__ (2 * h0) alphabet_size window_size norm binning_method
                 false false bigrams) in *.
  destruct (fit_fields Panel check_X f_classif tree_thresholds kbins_fit
              self X y self' Hfit)
    as (F1 & F2 & F3 & F4 & F5 & F6 & F7 & F8 & F9 & F10 & F11 & F12 & F13 & _).
  destruct (fit_plain_selection Panel check_X f_classif tree_thresholds kbins_fit
              self X y self' Hfit eq_refl eq_refl) as [Hs Hd].
  destruct (fit_frame Panel check_X f_classif tree_thresholds kbins_fit
              self X y self' Hfit) as (_ & _ & _ & _ & Hrows & Hwidth).
  destruct (fit_inv Panel check_X f_classif tree_thresholds kbins_fit
              self X y self' Hfit) as [Hg _].
  pose proof (fit_guards_alphabet self y Hg) as Ha.
  change (Estimator.alphabet_size self) with alphabet_size in *.
  change (Estimator.word_length self) with (2 * h0)%nat in *.
  assert (Hdl : dft_length self' = (2 * h0)%nat).
  { rewrite Hd. unfold self, __init__. cbn [dft_length orb].
    rewrite (Nat.mul_comm 2 h0), Nat.Div0.mod_mul. lia. }
  unfold transform, check_is_fitted. rewrite F13, Hx'.
  rewrite F3, F4, F6, F7, F8, Hdl.
  change (Estimator.window_size self) with window_size.
  change (Estimator.norm self) with norm.
  change (Estimator.bigrams self) with bigrams.
  change (anova self) with false. change (variance self) with false.
  destruct (mft_plain_shape Xs' window_size h0 norm (support self')
              (inverse_sqrt_win_size self') HW HL Hbins) as [dfts [Hm Hshape]].
  rewrite Hm.
  (* the table the words are generated from *)
  set (table := breakpoints self') in *.
  assert (Hne : table <> []).
  { intros E. rewrite E in Hrows. cbn in Hrows. lia. }
  assert (Hsh : shape1 xreal table = Z.to_nat alphabet_size).
  { destruct table as [|row0 rest]; [contradiction|].
    inversion Hwidth; subst. cbn [shape1]. lia. }
  assert (Hrect : Forall (fun row => length row = shape1 xreal table) table).
  { eapply Forall_impl; [|exact Hwidth]. cbn beta. intros row Hr. lia. }
  pose proof (EncoderClaims.used_table_cases xreal PInf table ltac:(lia) Hrect)
    as Hused.
  rewrite (EncoderClaims.transform_case_used_table xreal xleb PInf _ table _ _ _ _ _
             Hused).
  set (used := if Nat.eqb (shape1 xreal table) 2 then table
               else map (fun row => [nth 1 row PInf; PInf]) table) in *.
  assert (Hused_len : length used = (2 * h0)%nat).
  { unfold used. destruct (Nat.eqb (shape1 xreal table) 2);
      [exact Hrows|now rewrite length_map]. }
  assert (Hlb : (0 <= letter_bits self')%Z) by (rewrite F10; apply Z.log2_up_nonneg).
  destruct (generate_words_rows xreal xleb used (letter_bits self') (word_bits self')
              (Z.of_nat window_size) bigrams
              (fun dfts_a row =>
                 Z.of_nat (length row) =
                   (if bigrams then 2 * Z.of_nat (length dfts_a) - Z.of_nat window_size
                    else Z.of_nat (length dfts_a))%Z)
              (map (map (map Fin)) dfts)) as [words [Hw HF]].
  { apply Forall_map.
    assert (Hpair : Forall2 (fun x rows =>
                       length rows = (length x - window_size + 1)%nat /\
                       Forall (fun row => length row = (2 * h0)%nat) rows /\
                       (bigrams = true -> (2 * window_size <= length x + 1)%nat))
                      Xs' dfts).
    { clear - Hshape Hbig. induction Hshape as [|x rows Xs' dfts [H1 H2] _ IH].
      - constructor.
      - constructor.
        + split; [exact H1|]. split; [exact H2|].
          intros Hb. specialize (Hbig Hb). now inversion Hbig.
        + apply IH. intros Hb. specialize (Hbig Hb). now inversion Hbig. }
    clear - Hpair Hlb Hused_len HL.
    assert (HL2 : Forall (fun x => (window_size <= length x)%nat) Xs') by exact HL.
    clear HL. revert HL2.
    induction Hpair as [|x rows Xs' dfts (H1 & H2 & H3) _ IH]; intros HL2;
      constructor.
    - inversion HL2; subst.
      destruct (words_row_spec xreal xleb (map (map Fin) rows) used
                  (letter_bits self') (word_bits self') (Z.of_nat window_size)
                  bigrams Hlb ltac:(lia)) as [row [Hr [Hlen _]]].
      + intros Hb. specialize (H3 Hb). rewrite length_map, H1. lia.
      + apply Forall_map. eapply Forall_impl; [|exact H2]. cbn beta.
        intros r Hr. rewrite length_map, Hr, Hused_len. lia.
      + exists row. split; [exact Hr|exact Hlen].
    - inversion HL2; subst. now apply IH. }
  rewrite Hw. exists words. split; [reflexivity|].
  apply Forall2_of_map in HF.
  assert (HF' : Forall2 (fun rows row =>
                   Z.of_nat (length row) =
                     (if bigrams then 2 * Z.of_nat (length rows) - Z.of_nat window_size
                      else Z.of_nat (length rows))%Z) dfts words).
  { eapply Forall2_impl; [|exact HF]. cbn beta. intros rows row Hr.
    now rewrite length_map in Hr. }
  assert (Hpair : Forall2 (fun x rows =>
                     length rows = (length x - window_size + 1)%nat /\
                     (bigrams = true -> (2 * window_size <= length x + 1)%nat))
                    Xs' dfts).
  { clear - Hshape Hbig. induction Hshape as [|x rows Xs' dfts [H1 H2] _ IH].
    - constructor.
    - constructor.
      + split; [exact H1|]. intros Hb. specialize (Hbig Hb). now inversion Hbig.
      + apply IH. intros Hb. specialize (Hbig Hb). now inversion Hbig. }
  eapply Forall2_compose; [|exact Hpair|exact HF'].
  cbn beta. intros x rows row [H1 H3] Hr. rewrite H1 in Hr.
  destruct bigrams; [specialize (H3 eq_refl)|]; lia.
Qed.

Lemma fitted_model_transforms_witness :
  exists self' words,
    fit (list (list R)) check_X_id no_f_classif no_tree no_kbins
      (__init__ (2 * 1) 4 4 false "equi-depth"%string false false false)
      two_waves None = inr self' /\
    transform (list (list R)) check_X_id self' two_waves = inr words /\
    Forall2 (fun x row =>
               length row =
                 if false then (2 * (length x - 4 + 1) - 4)%nat
                 else (length x - 4 + 1)%nat) two_waves words.
Proof.
  destruct FitClaims.depth_sfa_fit_succeeds as [self' Hfit].
  destruct (fitted_model_transforms (list (list R)) check_X_id no_f_classif
              no_tree no_kbins 1 4 4 false "equi-depth"%string false
              two_waves None self' two_waves two_waves) as [words Hw].
  - lia.
  - lia.
  - exact Hfit.
  - reflexivity.
  - unfold two_waves. repeat (apply Forall_cons; [simpl; lia|]). apply Forall_nil.
  - simpl. lia.
  - discriminate.
  - exists self', words. split; [exact Hfit|exact Hw].
Defined.

End PipelineProperties.
(* ================================================================== *)
(** * The distance factory: what the callable it builds computes *)
(* ================================================================== *)

Module DistanceProperties.
Import Distance DistanceScenario.
Local Open Scope R_scope.

Section Factory.
Variable K : Type.
Variable Cost : Type.
Variable cost_zeros : nat -> nat -> Cost.
Variable cost_add : Cost -> Cost -> option Cost.

(** The loop over the dimensions, when every dimension gives a float. *)
Lemma sum_dimensions_rows (d : callable Cost) (cx cy : nat)
    (rx ry : list (list R)) :
  forall (dists : list R) (k : nat) (total : R),
    (forall i dist, nth_error dists i = Some dist ->
       exists u v,
         nth_error rx (k + i) = Some u /\ nth_error ry (k + i) = Some v /\
         d (Arr1 u) (Arr1 v) = Some (Dist dist)) ->
    sum_dimensions Cost d (Arr2 cx rx) (Arr2 cy ry) (seq k (length dists)) total
    = Some (fold_left Rplus dists total).
Proof.
  induction dists as [|dist dists IH]; intros k total Hd; [reflexivity|].
  cbn [length seq sum_dimensions getitem fold_left].
  destruct (Hd 0%nat dist eq_refl) as (u & v & Hu & Hv & Huv).
  rewrite Nat.add_0_r in Hu, Hv. rewrite Hu, Hv. cbn [option_map]. rewrite Huv.
  apply IH.
  intros i di Hi. destruct (Hd (S i) di Hi) as (u' & v' & Hu' & Hv' & Huv').
  exists u', v'. replace (S k + i)%nat with (k + S i)%nat by lia. auto.
Qed.

(** With a cost matrix kept, the loop computes the total the loop without
    one computes on the first components. *)
Lemma sum_dimensions_cost_total (d : callable Cost) (x y : arg) :
  forall (dims : list nat) (total : R) (cost : Cost) (total' : R) (cost' : Cost),
    sum_dimensions_cost Cost cost_add d x y dims total cost = Some (total', cost') ->
    sum_dimensions Cost (_cost_matrix_callable Cost d) x y dims total = Some total'.
Proof.
  induction dims as [|i dims IH]; intros total cost total' cost' H.
  - cbn in *. inversion H. reflexivity.
  - cbn [sum_dimensions_cost sum_dimensions] in *.
    destruct (getitem x i) as [xi|]; [|discriminate].
    destruct (getitem y i) as [yi|]; [|discriminate].
    unfold _cost_matrix_callable at 1.
    destruct (d xi yi) as [[r|r c]|]; try discriminate.
    destruct (cost_add cost c) as [cost1|]; [|discriminate].
    eapply IH. exact H.
Qed.

End Factory.

(** X25. The strategy is read as ["independent"] whenever the first series
    has fewer than two dimensions or the subclass does not override
    [_dependent_distance]: [distance] then returns, for every strategy that
    does not take the local branch, what it returns for ["independent"]. *)
Theorem strategy_falls_back_to_independent (K Cost : Type)
    (cost_zeros : nat -> nat -> Cost) (cost_add : Cost -> Cost -> option Cost)
    (self : BaseDistance K Cost) (x y : arg) (strategy : String.string)
    (return_cost_matrix : bool) (kwargs : K) :
  String.eqb strategy "local"%string && _has_local_distance self = false ->
  (exists d, ndim x = Some d /\ (d < 2)%nat) \/ _dependent_distance self = None ->
  distance K Cost cost_zeros cost_add self x y strategy return_cost_matrix kwargs
  = distance K Cost cost_zeros cost_add self x y "independent"%string
      return_cost_matrix kwargs.
Proof.
  intros Hlocal Hcase. unfold distance, distance_factory. rewrite Hlocal.
  change (String.eqb "independent" "local") with false. cbn [andb].
  destruct (ndim x) as [d|]; [|reflexivity].
  destruct (d <? 2)%nat eqn:Ed; [reflexivity|].
  destruct Hcase as [[d' [Hd' Hlt]]|Hdep].
  - inversion Hd'; subst d'. apply Nat.ltb_ge in Ed. lia.
  - rewrite Hdep. rewrite Bool.orb_true_r. reflexivity.
Qed.

Lemma strategy_falls_back_to_independent_witness :
  distance unit matrix zeros add plain_distance (Arr2 2 [[1; 2]; [3; 4]])
    (Arr2 2 [[0; 0]; [0; 0]]) "dependent"%string false tt
  = distance unit matrix zeros add plain_distance (Arr2 2 [[1; 2]; [3; 4]])
      (Arr2 2 [[0; 0]; [0; 0]]) "independent"%string false tt.
Proof.
  apply (strategy_falls_back_to_independent unit matrix zeros add plain_distance).
  - reflexivity.
  - right. reflexivity.
Defined.

(** X26. For two-dimensional series and a subclass without a cost matrix,
    the independent distance is the sum over the dimensions [i] of the
    distance of [x[i]] and [y[i]], accumulated from 0 in the order of the
    dimensions, and handed with the two series lengths to the result callback
    when the subclass overrides it (no numba, series left as they are by the
    preprocessing). *)
Theorem independent_distance_sums_the_dimensions (K Cost : Type)
    (cost_zeros : nat -> nat -> Cost) (cost_add : Cost -> Cost -> option Cost)
    (self : BaseDistance K Cost) (cx cy : nat) (rx ry : list (list R))
    (kwargs : K) (d : callable Cost) (dists : list R) :
  _numba_distance self = false -> _has_cost_matrix self = false ->
  (forall a, _preprocessing_time_series_callback self kwargs a = Some a) ->
  _independent_distance self (Arr2 cx rx) (Arr2 cy ry) kwargs = Some d ->
  length dists = length rx ->
  (forall i dist, nth_error dists i = Some dist ->
     exists u v,
       nth_error rx i = Some u /\ nth_error ry i = Some v /\
       d (Arr1 u) (Arr1 v) = Some (Dist dist)) ->
  independent_distance K Cost cost_zeros cost_add self (Arr2 cx rx) (Arr2 cy ry)
    false kwargs
  = Some (Dist (match _result_distance_callback self with
                | Some result_callback =>
                    result_callback (fold_left Rplus dists 0) cx cy
                | None => fold_left Rplus dists 0
                end)).
Proof.
  intros Hnumba Hcost Hpre Hd Hlen Hrows.
  assert (Hsum : sum_dimensions Cost d (Arr2 cx rx) (Arr2 cy ry)
                   (seq 0 (length rx)) 0 = Some (fold_left Rplus dists 0)).
  { rewrite <- Hlen. apply sum_dimensions_rows. exact Hrows. }
  unfold independent_distance, distance, distance_factory,
    _preprocess_time_series_factory.
  change (String.eqb "independent" "local") with false.
  cbn [andb ndim Nat.ltb Nat.leb].
  change (String.eqb "independent" "independent") with true. cbn [orb].
  rewrite Hd, Hnumba, Hcost. cbn [negb].
  rewrite !Hpre.
  change (String.eqb "independent" "independent") with true. cbv iota.
  destruct (_result_distance_callback self) as [cb|].
  - unfold result_callback_callable, _independent_distance_wrapper.
    cbn [shape0 shape_last]. rewrite Hsum. reflexivity.
  - unfold _independent_distance_wrapper. cbn [shape0]. rewrite Hsum. reflexivity.
Qed.

Lemma independent_distance_sums_the_dimensions_witness :
  independent_distance unit matrix zeros add plain_distance
    (Arr2 2 [[1; 2]; [3; 4]]) (Arr2 2 [[0; 0]; [0; 0]]) false tt
  = Some (Dist (match _result_distance_callback plain_distance with
                | Some result_callback =>
                    result_callback
                      (fold_left Rplus [squared [1; 2] [0; 0]; squared [3; 4] [0; 0]] 0)
                      2%nat 2%nat
                | None =>
                    fold_left Rplus [squared [1; 2] [0; 0]; squared [3; 4] [0; 0]] 0
                end)).
Proof.
  apply (independent_distance_sums_the_dimensions unit matrix zeros add
           plain_distance 2 2 [[1; 2]; [3; 4]] [[0; 0]; [0; 0]] tt squared_callable
           [squared [1; 2] [0; 0]; squared [3; 4] [0; 0]]).
  - reflexivity.
  - reflexivity.
  - intros a. reflexivity.
  - reflexivity.
  - reflexivity.
  - intros [|[|i]] dist H; cbn in H; inversion H; subst.
    + exists [1; 2], [0; 0]. repeat split; reflexivity.
    + exists [3; 4], [0; 0]. repeat split; reflexivity.
    + destruct i; discriminate.
Defined.

(** X27. For one-dimensional series [distance] ignores the strategy: the
    series are taken as one dimension each, and the result is 0 plus the
    distance [_independent_distance] gives for the two series, handed with
    their lengths to the result callback when there is one (no numba, no cost
    matrix, series left as they are by the preprocessing). *)
Theorem one_dimensional_distance (K Cost : Type)
    (cost_zeros : nat -> nat -> Cost) (cost_add : Cost -> Cost -> option Cost)
    (self : BaseDistance K Cost) (u v : list R) (strategy : String.string)
    (kwargs : K) (d : callable Cost) (dist : R) :
  _numba_distance self = false -> _has_cost_matrix self = false ->
  String.eqb strategy "local"%string && _has_local_distance self = false ->
  (forall a, _preprocessing_time_series_callback self kwargs a = Some a) ->
  _independent_distance self (Arr2 (length u) [u]) (Arr2 (length v) [v]) kwargs
    = Some d ->
  d (Arr1 u) (Arr1 v) = Some (Dist dist) ->
  distance K Cost cost_zeros cost_add self (Arr1 u) (Arr1 v) strategy false kwargs
  = Some (Dist (match _result_distance_callback self with
                | Some result_callback =>
                    result_callback (0 + dist) (length u) (length v)
                | None => 0 + dist
                end)).
Proof.
  intros Hnumba Hcost Hlocal Hpre Hd Huv.
  unfold distance, distance_factory, _preprocess_time_series_factory.
  rewrite Hlocal. cbn [ndim Nat.ltb Nat.leb reshape_row].
  change (String.eqb "independent" "independent") with true. cbn [orb].
  rewrite Hd, Hnumba, Hcost. cbn [negb to_single_row]. rewrite !Hpre.
  change (String.eqb "independent" "independent") with true. cbv iota.
  destruct (_result_distance_callback self) as [cb|].
  - unfold result_callback_callable, _independent_distance_wrapper.
    cbn [shape0 shape_last length seq sum_dimensions getitem nth_error option_map].
    rewrite Huv. reflexivity.
  - unfold _independent_distance_wrapper.
    cbn [shape0 length seq sum_dimensions getitem nth_error option_map].
    rewrite Huv. reflexivity.
Qed.

Lemma one_dimensional_distance_witness :
  distance unit matrix zeros add plain_distance (Arr1 [1; 2; 3]) (Arr1 [3; 2; 1])
    "dependent"%string false tt
  = Some (Dist (match _result_distance_callback plain_distance with
                | Some result_callback =>
                    result_callback (0 + squared [1; 2; 3] [3; 2; 1])
                      (length [1; 2; 3]) (length [3; 2; 1])
                | None => 0 + squared [1; 2; 3] [3; 2; 1]
                end)).
Proof.
  apply (one_dimensional_distance unit matrix zeros add plain_distance
           [1; 2; 3] [3; 2; 1] "dependent"%string tt squared_callable);
    reflexivity.
Defined.

(** X28. For a subclass with a cost matrix, asking for the distance alone
    gives the distance that comes with the cost matrix: whenever [distance]
    with [return_cost_matrix=True] returns a pair, [distance] with
    [return_cost_matrix=False] returns its first component (no numba, any
    strategy that does not take the local branch). *)
Theorem distance_alone_is_the_first_component (K Cost : Type)
    (cost_zeros : nat -> nat -> Cost) (cost_add : Cost -> Cost -> option Cost)
    (self : BaseDistance K Cost) (x y : arg) (strategy : String.string)
    (kwargs : K) (dist : R) (cost_matrix : Cost) :
  _numba_distance self = false -> _has_cost_matrix self = true ->
  String.eqb strategy "local"%string && _has_local_distance self = false ->
  distance K Cost cost_zeros cost_add self x y strategy true kwargs
    = Some (DistCost dist cost_matrix) ->
  distance K Cost cost_zeros cost_add self x y strategy false kwargs
    = Some (Dist dist).
Proof.
  intros Hnumba Hcost Hlocal.
  unfold distance, distance_factory. rewrite Hlocal, Hnumba, Hcost.
  destruct (ndim x) as [nd|]; [|discriminate].
  destruct (if (nd <? 2)%nat then reshape_row x else Some x) as [temp_x|];
    [|discriminate].
  destruct (if (nd <? 2)%nat then reshape_row y else Some y) as [temp_y|];
    [|discriminate].
  set (independent :=
         String.eqb (if (nd <? 2)%nat then "independent"%string else strategy)
           "independent"%string
         || match _dependent_distance self with None => true | Some _ => false end).
  match goal with
  | |- match (match ?c with _ => _ end) with _ => _ end = _ -> _ =>
      destruct c as [initial|]; [|discriminate]
  end.
  cbn [negb].
  destruct (_preprocess_time_series_factory K Cost self x y kwargs) as [pre|];
    [|discriminate].
  destruct (pre x) as [px|]; [|discriminate].
  destruct (pre y) as [py|]; [|discriminate].
  set (strategy' := if independent then "independent"%string
                    else if (nd <? 2)%nat then "independent"%string else strategy).
  assert (Hfinal : forall r c,
    (if String.eqb strategy' "independent"
     then _independent_distance_wrapper Cost cost_zeros cost_add true initial
     else initial) px py = Some (DistCost r c) ->
    (if String.eqb strategy' "independent"
     then _independent_distance_wrapper Cost cost_zeros cost_add false
            (_cost_matrix_callable Cost initial)
     else _cost_matrix_callable Cost initial) px py = Some (Dist r)).
  { intros r c. destruct (String.eqb strategy' "independent").
    - unfold _independent_distance_wrapper.
      destruct (shape1 px) as [n|]; [|discriminate].
      destruct (shape1 py) as [m|]; [|discriminate].
      destruct (shape0 px) as [dims|]; [|discriminate].
      destruct (sum_dimensions_cost Cost cost_add initial px py (seq 0 dims) 0
                  (cost_zeros n m)) as [[total cm]|] eqn:Es; [|discriminate].
      intros H. inversion H; subst.
      rewrite (sum_dimensions_cost_total Cost cost_add initial px py _ _ _ _ _ Es).
      reflexivity.
    - unfold _cost_matrix_callable. intros ->. reflexivity. }
  destruct (_result_distance_callback self) as [cb|].
  - unfold result_callback_callable.
    match goal with
    | |- match ?c with _ => _ end = _ -> _ => destruct c as [[r|r c0]|] eqn:Ef
    end.
    + destruct (shape_last px), (shape_last py); discriminate.
    + rewrite (Hfinal r c0 eq_refl).
      destruct (shape_last px) as [n|]; [|discriminate].
      destruct (shape_last py) as [m|]; [|discriminate].
      intros H. inversion H; subst. reflexivity.
    + discriminate.
  - intros H. exact (Hfinal _ _ H).
Qed.

Lemma distance_alone_is_the_first_component_witness :
  distance unit matrix zeros add cost_distance (Arr2 1 [[1]]) (Arr2 1 [[3]])
    "independent"%string false tt
  = Some (Dist (0 + squared [1] [3])).
Proof.
  apply (distance_alone_is_the_first_component unit matrix zeros add cost_distance
           (Arr2 1 [[1]]) (Arr2 1 [[3]]) "independent"%string tt
           (0 + squared [1] [3]) [[0 + squared [1] [3]]]);
    reflexivity.
Defined.

(** X29. A cost matrix cannot be had from a distance that returns a float:
    with [return_cost_matrix=True] the independent wrapper unpacks what the
    distance of a dimension returns into a pair, and [independent_distance]
    raises on series with at least one dimension (no numba, series left as
    they are by the preprocessing). *)
Theorem float_distance_has_no_cost_matrix (K Cost : Type)
    (cost_zeros : nat -> nat -> Cost) (cost_add : Cost -> Cost -> option Cost)
    (self : BaseDistance K Cost) (cx cy : nat) (u v : list R)
    (rx ry : list (list R)) (kwargs : K) (d : callable Cost) (dist : R) :
  _numba_distance self = false ->
  (forall a, _preprocessing_time_series_callback self kwargs a = Some a) ->
  _independent_distance self (Arr2 cx (u :: rx)) (Arr2 cy (v :: ry)) kwargs
    = Some d ->
  d (Arr1 u) (Arr1 v) = Some (Dist dist) ->
  independent_distance K Cost cost_zeros cost_add self (Arr2 cx (u :: rx))
    (Arr2 cy (v :: ry)) true kwargs = None.
Proof.
  intros Hnumba Hpre Hd Huv.
  unfold independent_distance, distance, distance_factory,
    _preprocess_time_series_factory.
  change (String.eqb "independent" "local") with false.
  cbn [andb ndim Nat.ltb Nat.leb].
  change (String.eqb "independent" "independent") with true. cbn [orb].
  rewrite Hd, Hnumba. cbn [negb]. rewrite !Hpre.
  change (String.eqb "independent" "independent") with true. cbv iota.
  assert (Hw : _independent_distance_wrapper Cost cost_zeros cost_add true d
                 (Arr2 cx (u :: rx)) (Arr2 cy (v :: ry)) = None).
  { unfold _independent_distance_wrapper.
    cbn [shape1 shape0 length seq sum_dimensions_cost getitem nth_error option_map].
    rewrite Huv. reflexivity. }
  destruct (_result_distance_callback self) as [cb|].
  - unfold result_callback_callable. rewrite Hw. reflexivity.
  - exact Hw.
Qed.

Lemma float_distance_has_no_cost_matrix_witness :
  independent_distance unit matrix zeros add plain_distance
    (Arr2 2 [[1; 2]; [3; 4]]) (Arr2 2 [[0; 0]; [0; 0]]) true tt = None.
Proof.
  apply (float_distance_has_no_cost_matrix unit matrix zeros add plain_distance
           2 2 [1; 2] [0; 0] [[3; 4]] [[0; 0]] tt squared_callable
           (squared [1; 2] [0; 0]));
    reflexivity.
Defined.

(** X30. The local strategy is taken only by a subclass that declares
    [_has_local_distance]: [distance] then returns what the callable of
    [_local_distance] returns on the two arguments, with no preprocessing
    and no result callback, and raises when the subclass has not overridden
    [_local_distance]; without the declaration, [local_distance] on two
    Python floats raises (no numba). *)
Theorem local_strategy_needs_the_declaration (K Cost : Type)
    (cost_zeros : nat -> nat -> Cost) (cost_add : Cost -> Cost -> option Cost)
    (self : BaseDistance K Cost) (kwargs : K) :
  _numba_distance self = false ->
  (_has_local_distance self = true ->
   forall x y return_cost_matrix,
     distance K Cost cost_zeros cost_add self x y "local"%string
       return_cost_matrix kwargs
     = match _local_distance self with
       | Some local =>
           match local x y kwargs with
           | Some local_dist => local_dist x y
           | None => None
           end
       | None => None
       end) /\
  (_has_local_distance self = false ->
   forall a b,
     local_distance K Cost cost_zeros cost_add self (Float a) (Float b) kwargs
     = None).
Proof.
  intros Hnumba. split.
  - intros Hl x y rcm. unfold distance, distance_factory.
    change (String.eqb "local" "local") with true. rewrite Hl, Hnumba. cbn [andb].
    destruct (_local_distance self) as [local|]; [|reflexivity].
    destruct (local x y kwargs); reflexivity.
  - intros Hl a b. unfold local_distance, distance, distance_factory.
    rewrite Hl, Bool.andb_false_r. reflexivity.
Qed.

Lemma local_strategy_needs_the_declaration_witness :
  (_has_local_distance plain_distance = true ->
   forall x y return_cost_matrix,
     distance unit matrix zeros add plain_distance x y "local"%string
       return_cost_matrix tt
     = match _local_distance plain_distance with
       | Some local =>
           match local x y tt with
           | Some local_dist => local_dist x y
           | None => None
           end
       | None => None
       end) /\
  (_has_local_distance plain_distance = false ->
   forall a b,
     local_distance unit matrix zeros add plain_distance (Float a) (Float b) tt
     = None).
Proof.
  apply (local_strategy_needs_the_declaration unit matrix zeros add plain_distance tt).
  reflexivity.
Defined.

End DistanceProperties.
